(** * tools/find_js_duplicates.py: a verified model

    A shallow embedding of the duplicate-function scanner
    [tools/find_js_duplicates.py] and the properties of its normalizer,
    function extractor, grouping engine and canonical selector.

    Text is a list of characters; a character is a code point in 0..255
    (Rocq's [ascii]), so the model covers Latin-1 text.  Python floats are
    the kernel's binary64 floats. *)

From Stdlib Require Import Ascii String.
From Stdlib Require Import List Bool Arith Lia ZArith.
From Stdlib Require Import Permutation Sorted.
From Stdlib Require Import Floats Uint63.
Import ListNotations.

Set Implicit Arguments.

(** ** Python text *)

Module Text.

Definition str := list ascii.

(** A literal, written as a Rocq string. *)
Definition lit (s : string) : str := list_ascii_of_string s.

Definition ord (c : ascii) : nat := nat_of_ascii c.

Definition chr_eqb (a b : ascii) : bool := Ascii.eqb a b.

Definition LF : ascii := ascii_of_nat 10.
Definition CR : ascii := ascii_of_nat 13.
Definition SPACE : ascii := ascii_of_nat 32.
Definition BACKSLASH : ascii := ascii_of_nat 92.

(** [str.isspace] on one character, which is also the class [\s] of [re]
    for text patterns: TAB, LF, VT, FF, CR, FS, GS, RS, US, SPACE, NEL and
    NBSP are the white space code points below 256. *)
Definition isspace (c : ascii) : bool :=
  let n := ord c in
  ((9 <=? n) && (n <=? 13)) || ((28 <=? n) && (n <=? 32))
  || (n =? 133) || (n =? 160).

(** The line boundaries of [str.splitlines] below 256: LF, VT, FF, CR, FS,
    GS, RS and NEL (CR LF counts as one boundary). *)
Definition is_linebreak (c : ascii) : bool :=
  let n := ord c in
  ((10 <=? n) && (n <=? 13)) || ((28 <=? n) && (n <=? 30)) || (n =? 133).

(** [s.splitlines()]: the lines without their boundaries; a boundary at the
    very end of the text opens no further line. *)
Fixpoint splitlines_aux (cur : str) (s : str) : list str :=
  match s with
  | [] => match cur with [] => [] | _ => [rev cur] end
  | c :: tl =>
      if chr_eqb c CR then
        match tl with
        | d :: tl' =>
            if chr_eqb d LF then rev cur :: splitlines_aux [] tl'
            else rev cur :: splitlines_aux [] tl
        | [] => rev cur :: splitlines_aux [] tl
        end
      else if is_linebreak c then rev cur :: splitlines_aux [] tl
      else splitlines_aux (c :: cur) tl
  end.

Definition splitlines (s : str) : list str := splitlines_aux [] s.

(** [sep.join(parts)]. *)
Fixpoint join (sep : str) (parts : list str) : str :=
  match parts with
  | [] => []
  | [p] => p
  | p :: rest => p ++ sep ++ join sep rest
  end.

(** [s.count(c)] for a one-character [c]. *)
Definition count (c : ascii) (s : str) : nat :=
  length (filter (chr_eqb c) s).

(** [c in s] for a one-character [c]. *)
Definition contains (c : ascii) (s : str) : bool := existsb (chr_eqb c) s.

(** [s.lstrip()], [s.rstrip()] and [s.strip()]. *)
Fixpoint lstrip (s : str) : str :=
  match s with
  | c :: tl => if isspace c then lstrip tl else s
  | [] => []
  end.

Definition rstrip (s : str) : str := rev (lstrip (rev s)).

Definition strip (s : str) : str := rstrip (lstrip s).

(** [s.lower()] on one character: only A-Z and the Latin-1 capitals
    0xC0-0xDE (but the multiplication sign 0xD7) have a lower case 32 above. *)
Definition lower_chr (c : ascii) : ascii :=
  let n := ord c in
  if ((65 <=? n) && (n <=? 90))
     || ((192 <=? n) && (n <=? 222) && negb (n =? 215))
  then ascii_of_nat (n + 32) else c.

Definition lower (s : str) : str := map lower_chr s.

(** [s.replace(c, by)] for a one-character [c]. *)
Fixpoint replace_chr (c : ascii) (by_ : str) (s : str) : str :=
  match s with
  | [] => []
  | d :: tl =>
      if chr_eqb d c then by_ ++ replace_chr c by_ tl
      else d :: replace_chr c by_ tl
  end.

(** The slice [s[:n]]. *)
Definition prefix (n : nat) (s : str) : str := firstn n s.

Fixpoint str_eqb (a b : str) : bool :=
  match a, b with
  | [], [] => true
  | x :: a', y :: b' => chr_eqb x y && str_eqb a' b'
  | _, _ => false
  end.

(** Python's order on text: by code point, a proper prefix first. *)
Fixpoint str_ltb (a b : str) : bool :=
  match a, b with
  | _, [] => false
  | [], _ :: _ => true
  | x :: a', y :: b' =>
      if ord x <? ord y then true
      else if ord y <? ord x then false
      else str_ltb a' b'
  end.


End Text.

(** ** The fragment of Python's [re] the program uses

    Backtracking matching in continuation-passing style.  Every repetition
    in the program's seven patterns is over a single-character class, so
    [Star] and [StarLazy] take a class; alternatives are tried left to
    right, a greedy star takes the longest run first and a lazy one the
    shortest, as [re] does. *)

Module Re.
Import Text.

Inductive regex : Type :=
| Eps
| Chr (p : ascii -> bool)          (* a literal or a class *)
| Star (p : ascii -> bool)         (* [p*] *)
| StarLazy (p : ascii -> bool)     (* [p*?] *)
| Seq (r1 r2 : regex)
| Alt (r1 r2 : regex)
| Group (r : regex)                (* the capturing group 1 *)
| Bol                              (* [^] under re.M *)
| Eol                              (* [$] under re.M *)
| WordB.                           (* [\b] *)

(** [p+] *)
Definition Plus (p : ascii -> bool) : regex := Seq (Chr p) (Star p).

(** The characters of a literal, one after another. *)
Fixpoint Lit (s : str) : regex :=
  match s with
  | [] => Eps
  | c :: tl => Seq (Chr (chr_eqb c)) (Lit tl)
  end.

(** [\s], [.] without and with re.S, and [\w] on text below 256. *)
Definition ws : ascii -> bool := isspace.
Definition dot (c : ascii) : bool := negb (chr_eqb c LF).
Definition dot_all (c : ascii) : bool := true.
Definition word (c : ascii) : bool :=
  let n := ord c in
  ((48 <=? n) && (n <=? 57)) || ((65 <=? n) && (n <=? 90)) || (n =? 95)
  || ((97 <=? n) && (n <=? 122)) || (n =? 170) || (n =? 178) || (n =? 179)
  || (n =? 181) || (n =? 185) || (n =? 186) || ((188 <=? n) && (n <=? 190))
  || ((192 <=? n) && (n <=? 214)) || ((216 <=? n) && (n <=? 246))
  || ((248 <=? n) && (n <=? 255)).

(** The matcher's position: the character just before it (none at the start
    of the text), the text still ahead, and what group 1 captured. *)
Record mstate : Type := MState {
  prev : option ascii;
  rest : str;
  grp : option str
}.

Definition is_word_opt (o : option ascii) : bool :=
  match o with Some c => word c | None => false end.

Definition at_bol (st : mstate) : bool :=
  match prev st with None => true | Some c => chr_eqb c LF end.

Definition at_eol (st : mstate) : bool :=
  match rest st with [] => true | c :: _ => chr_eqb c LF end.

Definition at_wordb (st : mstate) : bool :=
  xorb (is_word_opt (prev st)) (is_word_opt (hd_error (rest st))).

Section Matcher.
Variable k : mstate -> option mstate.
Variable p : ascii -> bool.
Variable g : option str.

Fixpoint star_greedy (pv : option ascii) (s : str) : option mstate :=
  match s with
  | c :: tl =>
      if p c then
        match star_greedy (Some c) tl with
        | Some r => Some r
        | None => k (MState pv s g)
        end
      else k (MState pv s g)
  | [] => k (MState pv s g)
  end.

Fixpoint star_lazy (pv : option ascii) (s : str) : option mstate :=
  match k (MState pv s g) with
  | Some r => Some r
  | None =>
      match s with
      | c :: tl => if p c then star_lazy (Some c) tl else None
      | [] => None
      end
  end.
End Matcher.

(** What lies between two positions of one text. *)
Definition consumed (st st' : mstate) : str :=
  firstn (length (rest st) - length (rest st')) (rest st).

Fixpoint rmatch (r : regex) (k : mstate -> option mstate) (st : mstate)
  : option mstate :=
  match r with
  | Eps => k st
  | Chr p =>
      match rest st with
      | c :: tl => if p c then k (MState (Some c) tl (grp st)) else None
      | [] => None
      end
  | Star p => star_greedy k p (grp st) (prev st) (rest st)
  | StarLazy p => star_lazy k p (grp st) (prev st) (rest st)
  | Seq r1 r2 => rmatch r1 (rmatch r2 k) st
  | Alt r1 r2 =>
      match rmatch r1 k st with
      | Some x => Some x
      | None => rmatch r2 k st
      end
  | Group r1 =>
      rmatch r1
        (fun st' => k (MState (prev st') (rest st') (Some (consumed st st'))))
        st
  | Bol => if at_bol st then k st else None
  | Eol => if at_eol st then k st else None
  | WordB => if at_wordb st then k st else None
  end.

(** A match that starts at the given position: where it ends, if any. *)
Definition match_here (r : regex) (pv : option ascii) (s : str)
  : option mstate :=
  rmatch r (fun st => Some st) (MState pv s None).

(** [pattern.match(line)]: a match at the start of [line]. *)
Definition match_ (r : regex) (line : str) : option mstate :=
  match_here r None line.

(** [m.group(1)] *)
Definition group1 (m : mstate) : option str := grp m.

(** [re.sub(pattern, repl, s)]: the leftmost matches, none overlapping, each
    replaced by [repl].  [skip] counts the characters of the current match
    still to pass over; an empty match is replaced and the next character
    kept. *)
Fixpoint sub_aux (r : regex) (repl : str) (skip : nat)
    (pv : option ascii) (s : str) : str :=
  match skip with
  | S n =>
      match s with
      | [] => []
      | c :: tl => sub_aux r repl n (Some c) tl
      end
  | O =>
      match match_here r pv s with
      | Some st' =>
          match length s - length (rest st'), s with
          | S n, c :: tl => repl ++ sub_aux r repl n (Some c) tl
          | _, c :: tl => repl ++ c :: sub_aux r repl 0 (Some c) tl
          | _, [] => repl
          end
      | None =>
          match s with
          | [] => []
          | c :: tl => c :: sub_aux r repl 0 (Some c) tl
          end
      end
  end.

Definition sub (r : regex) (repl : str) (s : str) : str :=
  sub_aux r repl 0 None s.

End Re.

Import Text Re.

(** ** The normalizer *)

Definition chr (s : string) : ascii :=
  match s with String c _ => c | EmptyString => Ascii.zero end.

(** [/\*.*?\*/] under re.S *)
Definition BLOCK_COMMENT : regex :=
  Seq (Lit (lit "/*")) (Seq (StarLazy dot_all) (Lit (lit "*/"))).

(** [//.*?$] under re.M *)
Definition LINE_COMMENT : regex :=
  Seq (Lit (lit "//")) (Seq (StarLazy dot) Eol).

(** [\s+] *)
Definition WHITESPACE : regex := Plus ws.

Definition strip_comments (code : str) : str :=
  let code := sub BLOCK_COMMENT [] code in
  let code := sub LINE_COMMENT [] code in
  code.

Definition normalize (code : str) : str :=
  let s := strip_comments code in
  let s := sub WHITESPACE [SPACE] s in
  let s := strip s in
  s.

(** ** The function extractor *)

(** [[A-Za-z0-9_$]] *)
Definition ident (c : ascii) : bool :=
  let n := ord c in
  ((65 <=? n) && (n <=? 90)) || ((97 <=? n) && (n <=? 122))
  || ((48 <=? n) && (n <=? 57)) || (n =? 95) || (n =? 36).

(** [[^\)]] and [[^=\n]] *)
Definition not_rparen (c : ascii) : bool := negb (chr_eqb c (chr ")")).
Definition not_eq_nl (c : ascii) : bool :=
  negb (chr_eqb c (chr "=")) && negb (chr_eqb c LF).

Definition seq (rs : list regex) : regex := fold_right Seq Eps rs.

(** [(?:var|let|const)] *)
Definition VAR_LET_CONST : regex :=
  Alt (Lit (lit "var")) (Alt (Lit (lit "let")) (Lit (lit "const"))).

(** [^\s*function\s+([A-Za-z0-9_$]+)\s*\([^\)]*\)\s*\{] *)
Definition PAT_DECLARATION : regex :=
  seq [Bol; Star ws; Lit (lit "function"); Plus ws; Group (Plus ident);
       Star ws; Chr (chr_eqb (chr "(")); Star not_rparen;
       Chr (chr_eqb (chr ")")); Star ws; Chr (chr_eqb (chr "{"))].

(** [^\s*(?:var|let|const)\s+([A-Za-z0-9_$]+)\s*=\s*function\b] *)
Definition PAT_FUNCTION_EXPR : regex :=
  seq [Bol; Star ws; VAR_LET_CONST; Plus ws; Group (Plus ident); Star ws;
       Chr (chr_eqb (chr "=")); Star ws; Lit (lit "function"); WordB].

(** [^\s*(?:var|let|const)\s+([A-Za-z0-9_$]+)\s*=\s*[^=\n]*=>\s*\{] *)
Definition PAT_ARROW : regex :=
  seq [Bol; Star ws; VAR_LET_CONST; Plus ws; Group (Plus ident); Star ws;
       Chr (chr_eqb (chr "=")); Star ws; Star not_eq_nl; Lit (lit "=>");
       Star ws; Chr (chr_eqb (chr "{"))].

(** [^\s*([A-Za-z0-9_$]+)\s*\([^\)]*\)\s*\{] *)
Definition PAT_METHOD : regex :=
  seq [Bol; Star ws; Group (Plus ident); Star ws; Chr (chr_eqb (chr "("));
       Star not_rparen; Chr (chr_eqb (chr ")")); Star ws;
       Chr (chr_eqb (chr "{"))].

Definition FUNC_PATTERNS : list regex :=
  [PAT_DECLARATION; PAT_FUNCTION_EXPR; PAT_ARROW; PAT_METHOD].

Definition KEYWORD_NAMES : list str :=
  map lit ["if"; "for"; "while"; "switch"; "catch"; "else";
           "constructor"; "settimeout"; "setinterval"; "timeout"]%string.

Definition in_keyword_names (s : str) : bool :=
  existsb (str_eqb s) KEYWORD_NAMES.

(** One detected function occurrence: the dictionary [extract_functions]
    appends to its results. *)
Record FunctionRecord : Type := {
  path : str;
  start_line : nat;
  end_line : nat;
  name : option str;
  code : str;
  norm : str;
  snippet : str
}.

(** Python's truth value of [name]: neither [None] nor empty. *)
Definition truthy (o : option str) : bool :=
  match o with
  | Some (_ :: _) => true
  | _ => false
  end.

(** What the [for pat in FUNC_PATTERNS] loop leaves behind for one line:
    nothing matched; the first matching pattern captured a denylisted name
    (the loop has then already done [i += 1]); or a match with its name. *)
Inductive line_scan : Type :=
| NoMatch
| Denied
| Matched (name : option str).

Fixpoint scan_patterns (pats : list regex) (line : str) : line_scan :=
  match pats with
  | [] => NoMatch
  | pat :: pats' =>
      match match_ pat line with
      | Some m =>
          let name := group1 m in
          if truthy name
             && match name with
                | Some n => in_keyword_names (lower (strip n))
                | None => false
                end
          then Denied
          else Matched name
      | None => scan_patterns pats' line
      end
  end.

(** The inner [while j < L] loop over [lines[j:]]: the index one past the
    line on which the brace count returns to zero or below after an opening
    brace was seen, or [L] when it never does. *)
Fixpoint scan_braces (ls : list str) (j : nat) (brace_count : Z)
    (found_brace : bool) : nat :=
  match ls with
  | [] => j
  | l :: tl =>
      let brace_count := (brace_count + Z.of_nat (count (chr "{") l))%Z in
      let brace_count := (brace_count - Z.of_nat (count (chr "}") l))%Z in
      let found_brace := if contains (chr "{") l then true else found_brace in
      let j := j + 1 in
      if found_brace && (brace_count <=? 0)%Z then j
      else scan_braces tl j brace_count found_brace
  end.

(** [lines[a:b]] *)
Definition slice (A : Type) (a b : nat) (l : list A) : list A :=
  firstn (b - a) (skipn a l).

Section Scanner.

(** [os.path.relpath(p, ROOT)] and [os.path.join(ROOT, p)], of the Python
    library. *)
Variable relpath_root : str -> str.
Variable join_root : str -> str.

(** [SequenceMatcher(None, a, b).ratio()], of the Python library. *)
Variable ratio : str -> str -> float.

(** The outer [while i < L] loop; each turn moves [i] forward, so [L] turns
    of fuel are never used up. *)
Fixpoint extract_loop (fuel : nat) (lines : list str) (file : str)
    (i : nat) (results : list FunctionRecord) : list FunctionRecord :=
  match fuel with
  | O => results
  | S fuel' =>
      if i <? length lines then
        let line := nth i lines [] in
        match scan_patterns FUNC_PATTERNS line with
        | NoMatch => extract_loop fuel' lines file (i + 1) results
        | Denied => extract_loop fuel' lines file (i + 1 + 1) results
        | Matched name =>
            let start := i in
            let end_ := scan_braces (skipn i lines) i 0%Z false in
            let func_code := join [LF] (slice start end_ lines) in
            let snippet :=
              replace_chr LF [BACKSLASH; chr "n"] (prefix 120 func_code) in
            extract_loop fuel' lines file end_
              (results ++
               [{| path := relpath_root file;
                   start_line := start + 1;
                   end_line := end_;
                   name := name;
                   code := func_code;
                   norm := normalize func_code;
                   snippet := snippet |}])
        end
      else results
  end.

Definition extract_functions (code : str) (file : str)
  : list FunctionRecord :=
  let lines := splitlines code in
  extract_loop (length lines) lines file 0 [].

(** ** The grouping engine *)

Definition option_str_eq_dec (a b : option str) : {a = b} + {a <> b}.
Proof. repeat decide equality. Defined.

Definition str_eq_dec (a b : str) : {a = b} + {a <> b}.
Proof. repeat decide equality. Defined.

(** [==] on two records: dictionaries with the same seven keys are equal
    when their values are. *)
Definition FunctionRecord_eq_dec (a b : FunctionRecord) : {a = b} + {a <> b}.
Proof.
  decide equality; try apply str_eq_dec; try apply option_str_eq_dec;
    apply Nat.eq_dec.
Defined.

Definition nonempty (s : str) : bool :=
  match s with [] => false | _ :: _ => true end.

(** [d[key].append(f)] on a [defaultdict(list)]; the dictionary keeps its
    keys in the order of their first insertion. *)
Fixpoint dict_append (A : Type) (key : str) (f : A)
    (d : list (str * list A)) : list (str * list A) :=
  match d with
  | [] => [(key, [f])]
  | (k, items) :: d' =>
      if str_eqb k key then (k, items ++ [f]) :: d'
      else (k, items) :: dict_append key f d'
  end.

Definition group_exact (funcs : list FunctionRecord)
  : list (list FunctionRecord) :=
  let by_body :=
    fold_left (fun d f => dict_append (norm f) f d) funcs [] in
  fold_left
    (fun groups (entry : str * list FunctionRecord) =>
       let (k, items) := entry in
       if (1 <? length items) && nonempty k then groups ++ [items]
       else groups)
    by_body [].

(** [len(set(i['norm'] for i in items))] *)
Definition distinct_bodies (items : list FunctionRecord) : nat :=
  length (nodup str_eq_dec (map norm items)).

Definition group_identical_named (funcs : list FunctionRecord)
  : list (list FunctionRecord) :=
  let by_name :=
    fold_left
      (fun d f =>
         match name f with
         | Some n => if truthy (name f) then dict_append n f d else d
         | None => d
         end)
      funcs [] in
  fold_left
    (fun groups (entry : str * list FunctionRecord) =>
       let (_, items) := entry in
       if (1 <? length items) && (1 <? distinct_bodies items)
       then groups ++ [items]
       else groups)
    by_name [].

(** A member of a fuzzy cluster: the representative is the record itself,
    every other member is [{**other, 'similarity': score}]. *)
Record ClusterMember : Type := {
  member : FunctionRecord;
  similarity : option float
}.

(** [unused.remove(r)]: the first element equal to [r] goes. *)
Fixpoint list_remove (r : FunctionRecord) (l : list FunctionRecord)
  : list FunctionRecord :=
  match l with
  | [] => []
  | x :: l' => if FunctionRecord_eq_dec x r then l' else x :: list_remove r l'
  end.

(** The threshold [0.82] that [main] passes: the float nearest to 0.82. *)
#[warnings="-inexact-float"]
Definition FUZZY_THRESHOLD : float := 0.82%float.

(** The test [score >= threshold and score < 1.0]. *)
Definition absorbs (threshold score : float) : bool :=
  (threshold <=? score)%float && (score <? 1)%float.

(** One turn of the [while unused] loop after [rep = unused.pop(0)]: the
    [for other in unused] loop, giving [cluster] and [to_remove]. *)
Definition fuzzy_pass (threshold : float) (rep : FunctionRecord)
    (unused : list FunctionRecord)
  : list ClusterMember * list FunctionRecord :=
  fold_left
    (fun (acc : list ClusterMember * list FunctionRecord) other =>
       let (cluster, to_remove) := acc in
       if negb (nonempty (norm rep)) || negb (nonempty (norm other))
       then acc
       else
         let score := ratio (norm rep) (norm other) in
         if absorbs threshold score
         then (cluster ++ [{| member := other; similarity := Some score |}],
               to_remove ++ [other])
         else acc)
    unused
    ([{| member := rep; similarity := None |}], []).

Fixpoint group_fuzzy_loop (fuel : nat) (threshold : float)
    (unused : list FunctionRecord) (groups : list (list ClusterMember))
  : list (list ClusterMember) :=
  match fuel with
  | O => groups
  | S fuel' =>
      match unused with
      | [] => groups
      | rep :: unused =>
          let (cluster, to_remove) := fuzzy_pass threshold rep unused in
          let unused := fold_left (fun u r => list_remove r u)
                                  to_remove unused in
          let groups :=
            if 1 <? length cluster then groups ++ [cluster] else groups in
          group_fuzzy_loop fuel' threshold unused groups
      end
  end.

(** Every turn pops one record, so [len(funcs)] turns of fuel suffice. *)
Definition group_fuzzy (funcs : list FunctionRecord) (threshold : float)
  : list (list ClusterMember) :=
  group_fuzzy_loop (length funcs) threshold funcs [].

(** ** The canonical selector and the report *)

(** An entry of the output document. *)
Record Entry : Type := {
  e_path : str;
  e_start_line : nat;
  e_end_line : nat;
  e_name : option str;
  e_snippet : str
}.

Definition make_entry (f : FunctionRecord) : Entry :=
  {| e_path := path f;
     e_start_line := start_line f;
     e_end_line := end_line f;
     e_name := name f;
     e_snippet := if nonempty (snippet f) then prefix 120 (snippet f)
                  else [] |}.

(** The sort key [(len(x['path']), x['path'])] and Python's [<] on such
    pairs. *)
Definition path_key (p : str) : nat * str := (length p, p).

Definition key_ltb (a b : nat * str) : bool :=
  if fst a <? fst b then true
  else if fst b <? fst a then false
  else str_ltb (snd a) (snd b).

(** [sorted(group, key=...)]: Python's sort is stable, and so is this
    insertion sort, which puts an element before the first one that is not
    smaller than it. *)
Fixpoint insert_by (A : Type) (key : A -> nat * str) (x : A) (l : list A)
  : list A :=
  match l with
  | [] => [x]
  | y :: l' =>
      if key_ltb (key y) (key x) then y :: insert_by key x l'
      else x :: l
  end.

Definition sorted_by (A : Type) (key : A -> nat * str) (l : list A)
  : list A :=
  fold_right (insert_by key) [] l.

(** [choose_canonical] for a group of dictionaries whose ['path'] is
    [path_of]; [sorted_items[0]] on an empty group raises, which is
    [None]. *)
Definition choose_canonical (A : Type) (path_of : A -> str)
    (group : list A) : option (str * str) :=
  let sorted_items := sorted_by (fun x => path_key (path_of x)) group in
  match sorted_items with
  | [] => None
  | canon :: _ =>
      let justification :=
        lit "first by path (" ++ path_of canon
        ++ lit ") and shortest path heuristic" in
      Some (relpath_root (join_root (path_of canon)), justification)
  end.

Record GroupReport : Type := {
  functions : list Entry;
  suggested_canonical : str;
  justification : str
}.

Record FuzzyReport : Type := {
  representative : Entry;
  matches : list (Entry * float);
  fz_suggested_canonical : str;
  fz_justification : str
}.

Record Report : Type := {
  exact_body_duplicates : list GroupReport;
  identical_named_duplicates : list GroupReport;
  fuzzy_duplicates : list FuzzyReport
}.

(** Python's [round(x, 3)], taken from the caller. *)
Variable round3 : float -> float.

Definition report_group (g : list FunctionRecord) : option GroupReport :=
  let entries := map make_entry g in
  match choose_canonical path g with
  | Some (canon, just) =>
      Some {| functions := entries;
              suggested_canonical := canon;
              justification := just |}
  | None => None
  end.

(** [o.get('similarity', 0.0)] *)
Definition get_similarity (o : ClusterMember) : float :=
  match similarity o with Some s => s | None => 0%float end.

Definition report_fuzzy (g : list ClusterMember) : option FuzzyReport :=
  match g with
  | [] => None
  | rep :: tl =>
      let rep_entry := make_entry (member rep) in
      let others :=
        map (fun o => (make_entry (member o), round3 (get_similarity o)))
            tl in
      match choose_canonical (fun m => path (member m)) g with
      | Some (canon, just) =>
          Some {| representative := rep_entry;
                  matches := others;
                  fz_suggested_canonical := canon;
                  fz_justification := just |}
      | None => None
      end
  end.

(** A list of results, or [None] as soon as one step raised. *)
Fixpoint all_some (A : Type) (l : list (option A)) : option (list A) :=
  match l with
  | [] => Some []
  | None :: _ => None
  | Some x :: l' =>
      match all_some l' with
      | Some xs => Some (x :: xs)
      | None => None
      end
  end.

(** The records of all files, in file order: an empty text is skipped. *)
Definition scan_files (files : list (str * str)) : list FunctionRecord :=
  fold_left
    (fun funcs (file : str * str) =>
       let (p, code) := file in
       if nonempty code then funcs ++ extract_functions code p else funcs)
    files [].

(** [exact_norms] of [main]. *)
Definition exact_norms (exact_groups : list (list FunctionRecord))
  : list str :=
  flat_map
    (fun g =>
       match g with
       | f :: _ => if nonempty (norm f) then [norm f] else []
       | [] => []
       end)
    exact_groups.

Definition remaining (funcs : list FunctionRecord)
    (norms : list str) : list FunctionRecord :=
  filter (fun f => negb (existsb (str_eqb (norm f)) norms)) funcs.

(** [main], from the files the walker found, as (path, text) pairs, to the
    document it prints. *)
Definition main (files : list (str * str)) : option Report :=
  let funcs := scan_files files in
  let exact_groups := group_exact funcs in
  let ident_groups := group_identical_named funcs in
  let remaining := remaining funcs (exact_norms exact_groups) in
  let fuzzy_groups := group_fuzzy remaining FUZZY_THRESHOLD in
  match all_some (map report_group exact_groups),
        all_some (map report_group ident_groups),
        all_some (map report_fuzzy fuzzy_groups) with
  | Some e, Some i, Some f =>
      Some {| exact_body_duplicates := e;
              identical_named_duplicates := i;
              fuzzy_duplicates := f |}
  | _, _, _ => None
  end.

End Scanner.

(** ** The Python library the scanner calls

    Models of [difflib.SequenceMatcher.ratio], [round] and [os.path] as
    CPython 3.11 has them, to run the scanner on concrete files. *)

Module Difflib.

(** [b2j] of [__chain_b]: for each element of [b], the indices where it
    occurs, in increasing order; keys in order of first occurrence. *)
Fixpoint b2j_add (c : ascii) (i : nat) (d : list (ascii * list nat))
  : list (ascii * list nat) :=
  match d with
  | [] => [(c, [i])]
  | (e, idxs) :: d' =>
      if chr_eqb e c then (e, idxs ++ [i]) :: d'
      else (e, idxs) :: b2j_add c i d'
  end.

Fixpoint b2j_build (b : str) (i : nat) (d : list (ascii * list nat))
  : list (ascii * list nat) :=
  match b with
  | [] => d
  | c :: tl => b2j_build tl (i + 1) (b2j_add c i d)
  end.

(** [__chain_b] with [isjunk=None] and [autojunk=True]: no junk; when [b]
    has 200 elements or more, the elements occurring more than
    [n // 100 + 1] times are popular and leave [b2j]. *)
Definition chain_b (b : str) : list (ascii * list nat) :=
  let b2j := b2j_build b 0 [] in
  let n := length b in
  if 200 <=? n then
    let ntest := n / 100 + 1 in
    filter (fun e : ascii * list nat => negb (ntest <? length (snd e))) b2j
  else b2j.

(** [b2j.get(c, [])] *)
Fixpoint b2j_get (d : list (ascii * list nat)) (c : ascii) : list nat :=
  match d with
  | [] => []
  | (e, idxs) :: d' => if chr_eqb e c then idxs else b2j_get d' c
  end.

(** [j2len.get(j, 0)] *)
Fixpoint j2len_get (d : list (nat * nat)) (j : nat) : nat :=
  match d with
  | [] => 0
  | (j', k) :: d' => if j' =? j then k else j2len_get d' j
  end.

Record Match : Type := { m_a : nat; m_b : nat; m_size : nat }.

Section FindLongestMatch.
Variables a b : str.
Variable b2j : list (ascii * list nat).
Variables alo ahi blo bhi : nat.

(** The loop [for j in b2j.get(a[i], nothing)] for one [i]. *)
Fixpoint inner_loop (i : nat) (js : list nat) (j2len newj2len : list (nat * nat))
    (best : Match) : list (nat * nat) * Match :=
  match js with
  | [] => (newj2len, best)
  | j :: js' =>
      if j <? blo then inner_loop i js' j2len newj2len best
      else if bhi <=? j then (newj2len, best)
      else
        let k := (match j with O => 0 | S j1 => j2len_get j2len j1 end) + 1 in
        let newj2len := (j, k) :: newj2len in
        let best :=
          if m_size best <? k
          then {| m_a := i + 1 - k; m_b := j + 1 - k; m_size := k |}
          else best in
        inner_loop i js' j2len newj2len best
  end.

(** The loop [for i in range(alo, ahi)], over [a[i:ahi]]. *)
Fixpoint outer_loop (ai : str) (i : nat) (n : nat) (j2len : list (nat * nat))
    (best : Match) : Match :=
  match n, ai with
  | S n', c :: tl =>
      let (newj2len, best) := inner_loop i (b2j_get b2j c) j2len [] best in
      outer_loop tl (i + 1) n' newj2len best
  | _, _ => best
  end.

Definition elt (s : str) (i : nat) : ascii := nth i s Ascii.zero.

(** The two loops that extend the match over elements that are not junk
    (with [isjunk=None] nothing is junk, and the two loops over junk that
    follow them never run). *)
Fixpoint extend_left (fuel : nat) (best : Match) : Match :=
  match fuel with
  | O => best
  | S fuel' =>
      if (alo <? m_a best) && (blo <? m_b best)
         && chr_eqb (elt a (m_a best - 1)) (elt b (m_b best - 1))
      then extend_left fuel'
             {| m_a := m_a best - 1; m_b := m_b best - 1;
                m_size := m_size best + 1 |}
      else best
  end.

Fixpoint extend_right (fuel : nat) (best : Match) : Match :=
  match fuel with
  | O => best
  | S fuel' =>
      if (m_a best + m_size best <? ahi) && (m_b best + m_size best <? bhi)
         && chr_eqb (elt a (m_a best + m_size best))
                    (elt b (m_b best + m_size best))
      then extend_right fuel'
             {| m_a := m_a best; m_b := m_b best;
                m_size := m_size best + 1 |}
      else best
  end.

Definition find_longest_match : Match :=
  let best := {| m_a := alo; m_b := blo; m_size := 0 |} in
  let best := outer_loop (skipn alo a) alo (ahi - alo) [] best in
  let best := extend_left (m_a best) best in
  let best := extend_right (ahi - (m_a best + m_size best)) best in
  best.

End FindLongestMatch.

(** The [while queue] loop of [get_matching_blocks]; [queue.pop()] takes
    the tuple appended last. *)
Fixpoint blocks_loop (fuel : nat) (a b : str) (b2j : list (ascii * list nat))
    (queue : list (nat * nat * nat * nat)) (blocks : list Match)
  : list Match :=
  match fuel with
  | O => blocks
  | S fuel' =>
      match queue with
      | [] => blocks
      | (alo, ahi, blo, bhi) :: queue =>
          let x := find_longest_match a b b2j alo ahi blo bhi in
          let (i, j) := (m_a x, m_b x) in
          let k := m_size x in
          if 0 <? k then
            let queue :=
              if (alo <? i) && (blo <? j) then (alo, i, blo, j) :: queue
              else queue in
            let queue :=
              if (i + k <? ahi) && (j + k <? bhi)
              then (i + k, ahi, j + k, bhi) :: queue
              else queue in
            blocks_loop fuel' a b b2j queue (blocks ++ [x])
          else blocks_loop fuel' a b b2j queue blocks
      end
  end.

(** The blocks found by [get_matching_blocks], before it sorts them and
    merges adjacent ones (neither changes the sum of their sizes).  Every
    turn that finds a block uses up an element of [a], and only such turns
    queue at most two more, so [2 * len(a) + 1] turns suffice. *)
Definition matching_blocks (a b : str) : list Match :=
  blocks_loop (S (2 * length a)) a b (chain_b b)
    [(0, length a, 0, length b)] [].

Definition float_of_nat (n : nat) : float :=
  PrimFloat.of_uint63 (Uint63.of_Z (Z.of_nat n)).

Definition calculate_ratio (matches length : nat) : float :=
  if 0 <? length
  then (2 * float_of_nat matches / float_of_nat length)%float
  else 1%float.

Definition ratio (a b : str) : float :=
  let matches := fold_left (fun s m => s + m_size m) (matching_blocks a b) 0 in
  calculate_ratio matches (length a + length b).

End Difflib.

Module Builtins.

(** Round half to even of the rational [num / den], for [den > 0]. *)
Definition round_half_even (num den : Z) : Z :=
  let q := (num / den)%Z in
  let r := (num mod den)%Z in
  match (2 * r ?= den)%Z with
  | Lt => q
  | Gt => (q + 1)%Z
  | Eq => if Z.even q then q else (q + 1)%Z
  end.

(** [round(x, 3)] on a float: CPython prints the exact value of [x]
    correctly rounded (half to even) to three places after the point and
    reads the decimal back as the nearest float.  That float is
    [n / 1000.0] for the integer [n] of thousandths, the quotient of two
    floats that hold [n] and 1000 exactly.  From [2^43] on, floats lie more
    than 0.001 apart and [round] returns [x]; zeros, infinities and NaN
    are returned as they are. *)
Definition round3 (x : float) : float :=
  match Prim2SF x with
  | S754_finite s m e =>
      if (0x1p43 <=? PrimFloat.abs x)%float then x
      else
        let n :=
          if (0 <=? e)%Z then (Zpos m * 1000 * 2 ^ e)%Z
          else round_half_even (Zpos m * 1000) (2 ^ (- e)) in
        let r := (PrimFloat.of_uint63 (Uint63.of_Z n) / 1000)%float in
        if s then (- r)%float else r
  | _ => x
  end.

End Builtins.

Module Posix.

Definition SEP : ascii := "/"%char.

(** [s.split('/')] *)
Fixpoint split_aux (cur : str) (s : str) : list str :=
  match s with
  | [] => [rev cur]
  | c :: tl =>
      if chr_eqb c SEP then rev cur :: split_aux [] tl
      else split_aux (c :: cur) tl
  end.

Definition split (s : str) : list str := split_aux [] s.

Definition isabs (p : str) : bool :=
  match p with c :: _ => chr_eqb c SEP | [] => false end.

(** [os.path.join(a, p)] *)
Definition join2 (a p : str) : str :=
  if isabs p then p
  else match rev a with
       | [] => p
       | c :: _ => if chr_eqb c SEP then a ++ p else a ++ [SEP] ++ p
       end.

Definition DOT : str := lit ".".
Definition DOTDOT : str := lit "..".

(** The loop of [os.path.normpath] over the components. *)
Fixpoint norm_comps (initial_slashes : bool) (comps : list str)
    (new_comps : list str) : list str :=
  match comps with
  | [] => new_comps
  | comp :: comps' =>
      if str_eqb comp [] || str_eqb comp DOT
      then norm_comps initial_slashes comps' new_comps
      else if negb (str_eqb comp DOTDOT)
              || (negb initial_slashes
                  && match new_comps with [] => true | _ => false end)
              || (match rev new_comps with
                  | last :: _ => str_eqb last DOTDOT
                  | [] => false
                  end)
      then norm_comps initial_slashes comps' (new_comps ++ [comp])
      else norm_comps initial_slashes comps' (removelast new_comps)
  end.

(** [os.path.normpath(path)]; exactly two leading slashes are kept. *)
Definition normpath (p : str) : str :=
  match p with
  | [] => DOT
  | _ =>
      let initial_slashes :=
        match p with
        | a :: b :: c :: _ =>
            if chr_eqb a SEP then
              if chr_eqb b SEP && negb (chr_eqb c SEP) then 2 else 1
            else 0
        | [a; b] =>
            if chr_eqb a SEP then if chr_eqb b SEP then 2 else 1 else 0
        | [a] => if chr_eqb a SEP then 1 else 0
        | [] => 0
        end in
      let comps := norm_comps (0 <? initial_slashes) (split p) [] in
      let path := repeat SEP initial_slashes ++ join [SEP] comps in
      match path with [] => DOT | _ => path end
  end.

Section Paths.
(** The working directory and the scanner's [ROOT], both absolute. *)
Variables cwd ROOT : str.

Definition abspath (p : str) : str :=
  normpath (if isabs p then p else join2 cwd p).

Definition parts (p : str) : list str :=
  filter (fun x => match x with [] => false | _ => true end)
         (split (abspath p)).

(** The length of the common prefix of two lists of components. *)
Fixpoint common (a b : list str) : nat :=
  match a, b with
  | x :: a', y :: b' => if str_eqb x y then S (common a' b') else 0
  | _, _ => 0
  end.

(** [os.path.relpath(path, ROOT)]; on an empty [path] Python raises
    ValueError, which no caller of the scanner provokes, and the model
    answers the empty text. *)
Definition relpath_root (p : str) : str :=
  match p with
  | [] => []
  | _ =>
      let start_list := parts ROOT in
      let path_list := parts p in
      let i := common start_list path_list in
      let rel_list :=
        repeat DOTDOT (length start_list - i) ++ skipn i path_list in
      match rel_list with
      | [] => DOT
      | _ => join [SEP] rel_list
      end
  end.

(** [os.path.join(ROOT, p)] *)
Definition join_root (p : str) : str := join2 ROOT p.

End Paths.

End Posix.

(** The scanner with the library in place, for a tree rooted at [/repo]
    and run from [/repo/tools]. *)
Module Run.

Definition CWD : str := lit "/repo/tools".
Definition ROOT : str := lit "/repo".

Definition relpath_root : str -> str := Posix.relpath_root CWD ROOT.
Definition join_root : str -> str := Posix.join_root ROOT.

Definition extract_functions : str -> str -> list FunctionRecord :=
  extract_functions relpath_root.

Definition main : list (str * str) -> option Report :=
  main relpath_root join_root Difflib.ratio Builtins.round3.

End Run.

(** ** The file walker *)

Definition EXTS : list str := map lit [".js"; ".jsx"; ".ts"; ".tsx"]%string.

Definition EXCLUDE_DIRS : list str :=
  map lit ["node_modules"; "dist"; "build"; ".git";
           "website/static/scripts"]%string.

(** [s.startswith(p)] *)
Fixpoint startswith (p s : str) : bool :=
  match p, s with
  | [], _ => true
  | a :: p', b :: s' => chr_eqb a b && startswith p' s'
  | _ :: _, [] => false
  end.

(** [s.endswith(suffixes)] for a tuple of suffixes. *)
Definition endswith (suffixes : list str) (s : str) : bool :=
  existsb (fun e => startswith (rev e) (rev s)) suffixes.

(** [keep_dir(d)] inside the loop of [list_files], for the [rel_dir] of the
    directory at hand. *)
Definition keep_dir (rel_dir d : str) : bool :=
  let child_rel :=
    if nonempty rel_dir then Posix.normpath (Posix.join2 rel_dir d) else d in
  negb (existsb
          (fun ex =>
             let ex_norm := Posix.normpath ex in
             str_eqb child_rel ex_norm
             || startswith (ex_norm ++ [Posix.SEP]) child_rel)
          EXCLUDE_DIRS).

(** What [os.walk] finds in a directory: its sub directories by name, in
    the order in which [os.walk] lists them, and the names of its files.  A
    directory that [os.walk] lists but does not enter (a symbolic link, or
    one it cannot read) stands here as a directory with nothing in it: in
    both cases no file of it is reached. *)
#[warnings="-register-all"]
Inductive Dir : Type :=
| Node (dirnames : list (str * Dir)) (filenames : list str).

Section Walker.

(** The working directory and the [root] that [list_files] is given. *)
Variables cwd root : str.

(** The loop of [list_files] over [os.walk], from the directory [dirpath]
    on: the files of the directory itself, then, in order, what the walk
    finds in the sub directories that [dirnames[:] = ...] has kept. *)
Fixpoint walk (dirpath : str) (t : Dir) : list str :=
  match t with
  | Node dirnames filenames =>
      let rel_dir := Posix.relpath_root cwd root dirpath in
      let rel_dir := if str_eqb rel_dir (lit ".") then [] else rel_dir in
      map (Posix.join2 dirpath) (filter (endswith EXTS) filenames)
      ++ flat_map
           (fun sub =>
              if keep_dir rel_dir (fst sub)
              then walk (Posix.join2 dirpath (fst sub)) (snd sub)
              else [])
           dirnames
  end.

Definition list_files (t : Dir) : list str := walk root t.

End Walker.

(** ** Notions of the specification *)




(** ** Concrete files *)

Module Examples.

Definition lines_text (ls : list string) : str :=
  flat_map (fun l => lit l ++ [LF]) ls.

Definition a_js : str := lit "/repo/lib/a.js".
Definition b_js : str := lit "/repo/b.js".

(** A control statement that the denylist rejects, then a function. *)
Definition if_then_function : str :=
  lines_text ["if (x) {"; "function foo() {"; "}"]%string.

Definition function_alone : str :=
  lines_text ["function foo() {"; "}"]%string.


(** Comments whose every line starts with [/] or [*], and blank lines. *)
Definition tidy_comments : str :=
  lines_text ["// helper(a) {"; "/* old:"; " * function f() {";
              " * }"; " */"; "   "; ""]%string.

(** A function of three lines, 167 characters long. *)
Definition long_function : str :=
  lit "function f() {" ++ [LF] ++ repeat (chr "x") 150 ++ [LF] ++ lit "}".

(** Two files, each one function whose body is 3000 times [x]; the
    functions differ in their names only. *)
Definition big_function (fname : string) : str :=
  lit "function " ++ lit fname ++ lit "(){" ++ repeat (chr "x") 3000
  ++ lit "}".

Definition near_twins : list (str * str) :=
  [(a_js, big_function "f"); (b_js, big_function "g")].

(** Three small files: two functions that differ by one character, one
    function of another kind, and a copy of the first. *)
Definition c_js : str := lit "/repo/lib/c.js".
Definition d_js : str := lit "/repo/d.js".

Definition small_tree : list (str * str) :=
  [(a_js, lit "function add(a, b) { return a + b; }");
   (b_js, lit "function add2(a, b) { return a + b; }");
   (c_js, lit "function log(m) { console.log(m); }");
   (d_js, lit "function add(a, b) {  return a + b; } // copy")].

End Examples.

(** The records of [Examples.small_tree], and a record with an empty
    [norm], which no scan yields but the grouping functions accept. *)
Definition blank_record : FunctionRecord :=
  {| path := lit "blank.js"; start_line := 1; end_line := 1; name := None;
     code := []; norm := []; snippet := [] |}.

Definition small_records : list FunctionRecord :=
  scan_files Run.relpath_root Examples.small_tree.

(** * Properties *)

Unset Implicit Arguments.

(** ** Notions of the proofs *)

(** The declarative reading of a pattern: from position [st] it can reach
    position [st']. *)
Fixpoint accepts (r : regex) (st st' : mstate) : Prop :=
  match r with
  | Eps => st' = st
  | Chr p =>
      exists c, p c = true /\ rest st = c :: rest st'
                /\ prev st' = Some c /\ grp st' = grp st
  | Star p | StarLazy p =>
      exists w, forallb p w = true /\ rest st = w ++ rest st'
                /\ grp st' = grp st
  | Seq r1 r2 => exists mid, accepts r1 st mid /\ accepts r2 mid st'
  | Alt r1 r2 => accepts r1 st st' \/ accepts r2 st st'
  | Group r1 =>
      exists st1, accepts r1 st st1
                  /\ st' = MState (prev st1) (rest st1)
                                  (Some (consumed st st1))
  | Bol => at_bol st = true /\ st' = st
  | Eol => at_eol st = true /\ st' = st
  | WordB => at_wordb st = true /\ st' = st
  end.

(** What a match of a boundary pattern says about its line: after leading
    white space comes an identifier character, and group 1 holds a
    non-empty run of identifier characters. *)
Definition line_shape (line : str) (m : mstate) : Prop :=
  (exists w c tl, line = w ++ c :: tl /\ forallb isspace w = true
                  /\ ident c = true)
  /\ (exists c n, group1 m = Some (c :: n)
                  /\ forallb ident (c :: n) = true).


(** The record appended for a function that starts at line index [i]. *)
Definition record_at (relpath_root : str -> str) (lines : list str) (file : str) (i : nat)
    (name : option str) : FunctionRecord :=
  let end_ := scan_braces (skipn i lines) i 0%Z false in
  let func_code := join [LF] (slice i end_ lines) in
  {| path := relpath_root file;
     start_line := i + 1;
     end_line := end_;
     name := name;
     code := func_code;
     norm := normalize func_code;
     snippet := replace_chr LF [BACKSLASH; chr "n"] (prefix 120 func_code) |}.

(** Every record of the result was built by [record_at] at a line that
    matched, and the records come in the order of their lines. *)
Inductive emitted (relpath_root : str -> str) (lines : list str)
    (file : str)
  : nat -> list FunctionRecord -> Prop :=
| emitted_nil i : emitted relpath_root lines file i []
| emitted_cons i j name rs :
    i <= j -> j < length lines ->
    scan_patterns FUNC_PATTERNS (nth j lines []) = Matched name ->
    emitted relpath_root lines file
      (end_line (record_at relpath_root lines file j name)) rs ->
    emitted relpath_root lines file i
      (record_at relpath_root lines file j name :: rs).

(** The buckets of a [defaultdict(list)] filled by [dict_append]: every
    bucket is non-empty and holds records of its own key only. *)
Definition buckets_ok {A : Type} (key : A -> str) (P : A -> Prop)
    (d : list (str * list A)) : Prop :=
  Forall (fun e => snd e <> [] /\ Forall (fun f => key f = fst e /\ P f) (snd e))
         d.

(** The records the representative [rep] absorbs under [threshold]. *)
Definition absorbed_by (ratio : str -> str -> float) (threshold : float)
    (rep other : FunctionRecord) : bool :=
  nonempty (norm rep) && nonempty (norm other)
  && absorbs threshold (ratio (norm rep) (norm other)).

(** [{**other, 'similarity': score}] for the score against [rep]. *)
Definition scored (ratio : str -> str -> float)
    (rep other : FunctionRecord) : ClusterMember :=
  {| member := other;
     similarity := Some (ratio (norm rep) (norm other)) |}.

(** A cluster of the output: a representative from the pool and, after
    it, at least one record of the pool that it absorbs, each with its
    score against the representative. *)
Definition cluster_of (ratio : str -> str -> float) (threshold : float)
    (pool : list FunctionRecord) (c : list ClusterMember) : Prop :=
  exists rep others,
    c = {| member := rep; similarity := None |}
          :: map (scored ratio rep) others
    /\ others <> [] /\ In rep pool
    /\ Forall (fun o => In o pool
                        /\ absorbed_by ratio threshold rep o = true)
              others.

(** [re.sub] read as a relation: [F s] is the text left after the match
    that starts at the front of [s], if there is one. *)
Inductive subst_rel (F : str -> option str) (repl : str)
  : str -> str -> Prop :=
| subst_end : subst_rel F repl [] []
| subst_match s s' out :
    F s = Some s' -> subst_rel F repl s' out ->
    subst_rel F repl s (repl ++ out)
| subst_copy c tl out :
    F (c :: tl) = None -> subst_rel F repl tl out ->
    subst_rel F repl (c :: tl) (c :: out).

(** The text from the first line feed on. *)
Fixpoint drop_line (s : str) : str :=
  match s with
  | [] => []
  | c :: tl => if chr_eqb c LF then s else drop_line tl
  end.

(** What a match of [\s+] at the front of [s] leaves. *)
Definition after_spaces (s : str) : option str :=
  match s with
  | c :: tl => if isspace c then Some (lstrip tl) else None
  | [] => None
  end.

(** What a match of [//.*?$] at the front of [s] leaves. *)
Definition after_line_comment (s : str) : option str :=
  match s with
  | a :: b :: tl =>
      if chr_eqb (chr "/") a && chr_eqb (chr "/") b
      then Some (drop_line tl) else None
  | _ => None
  end.

(** Every two neighbouring characters of the text satisfy [R]. *)
Fixpoint chain (R : ascii -> ascii -> bool) (l : str) : bool :=
  match l with
  | a :: tl =>
      match tl with
      | b :: _ => R a b && chain R tl
      | [] => true
      end
  | [] => true
  end.

(** No [//], no [/*], and white space only as single spaces. *)
Definition no_double_slash (l : str) : bool :=
  chain (fun a b => negb (chr_eqb (chr "/") a && chr_eqb (chr "/") b)) l.

Definition no_block_opener (l : str) : bool :=
  chain (fun a b => negb (chr_eqb (chr "/") a && chr_eqb (chr "*") b)) l.

Definition single_spaced (l : str) : bool :=
  forallb (fun c => implb (isspace c) (chr_eqb c SPACE)) l
  && chain (fun a b => negb (isspace a && isspace b)) l.


(** The records of [l] filed under the key [k], in the order of [l]. *)
Definition bucket {A : Type} (key : A -> str) (k : str) (l : list A)
  : list A :=
  filter (fun f => str_eqb (key f) k) l.

(** The keys of a dictionary filled in the order of [l]: every key once, in
    the order of its first occurrence. *)
Definition add_key (ks : list str) (k : str) : list str :=
  if existsb (str_eqb k) ks then ks else ks ++ [k].

Definition first_keys (l : list str) : list str := fold_left add_key l [].

(** The name a record is filed under by [group_identical_named]. *)
Definition name_key (f : FunctionRecord) : str :=
  match name f with Some n => n | None => [] end.

(** The braces of a run of lines, as the inner loop of the extractor keeps
    them: opening minus closing braces, and whether an opening brace was
    seen. *)
Definition brace_balance (ls : list str) : Z :=
  (Z.of_nat (count (chr "{") (concat ls))
   - Z.of_nat (count (chr "}") (concat ls)))%Z.

Definition seen_open (ls : list str) : bool :=
  existsb (contains (chr "{")) ls.

(** The test [found_brace and brace_count <= 0] after the lines [ls]. *)
Definition balanced (ls : list str) : bool :=
  seen_open ls && (brace_balance ls <=? 0)%Z.

(** What [main] writes for one exact or identical-named group and for one
    fuzzy cluster. *)
Definition reports_group (relpath_root join_root : str -> str)
    (g : list FunctionRecord) (r : GroupReport) : Prop :=
  functions r = map make_entry g
  /\ 2 <= length (functions r)
  /\ exists canon,
       In canon g
       /\ suggested_canonical r = relpath_root (join_root (path canon))
       /\ justification r
          = lit "first by path (" ++ path canon
            ++ lit ") and shortest path heuristic".

Definition reports_cluster (relpath_root join_root : str -> str)
    (round3 : float -> float) (c : list ClusterMember) (r : FuzzyReport)
  : Prop :=
  exists rep others,
    c = rep :: others
    /\ others <> []
    /\ representative r = make_entry (member rep)
    /\ matches r
       = map (fun o => (make_entry (member o), round3 (get_similarity o)))
             others
    /\ exists canon,
         In canon c
         /\ fz_suggested_canonical r
            = relpath_root (join_root (path (member canon))).

(** [u] is [v] with some characters deleted. *)
Inductive subseq : str -> str -> Prop :=
| subseq_nil : subseq [] []
| subseq_skip c u v : subseq u v -> subseq u (c :: v)
| subseq_keep c u v : subseq u v -> subseq (c :: u) (c :: v).

(** The characters of a text that are not white space. *)
Definition code_chars (s : str) : str :=
  filter (fun c => negb (isspace c)) s.

(** A text as [normalize] leaves it: white space only as single spaces
    between other characters, and no [//]. *)
Definition normal_shape (t : str) : Prop :=
  single_spaced t = true
  /\ no_double_slash t = true
  /\ match t with c :: _ => isspace c = false | [] => True end
  /\ match rev t with c :: _ => isspace c = false | [] => True end.

(** A name as a directory holds it: not empty, without a slash, and
    neither [.] nor [..]. *)
Definition simple (c : str) : bool :=
  nonempty c && negb (contains Posix.SEP c)
  && negb (str_eqb c Posix.DOT) && negb (str_eqb c Posix.DOTDOT).

(** A tree all of whose directories and files have such names. *)
Fixpoint well_named (t : Dir) : bool :=
  match t with
  | Node dirnames filenames =>
      forallb (fun sub => simple (fst sub) && well_named (snd sub)) dirnames
      && forallb simple filenames
  end.

(** The absolute path with the components [comps]. *)
Definition abs_of (comps : list str) : str :=
  concat (map (cons Posix.SEP) comps).

(** The entries of [EXCLUDE_DIRS], split into their components. *)
Definition EXCLUDED : list (list str) :=
  map (map lit)
      [["node_modules"]; ["dist"]; ["build"]; [".git"];
       ["website"; "static"; "scripts"]]%string.

Fixpoint is_prefix (p l : list str) : bool :=
  match p, l with
  | [], _ => true
  | a :: p', b :: l' => str_eqb a b && is_prefix p' l'
  | _ :: _, [] => false
  end.

(** The directory with the components [comps] below the root is an
    excluded directory or lies in one. *)
Definition pruned (comps : list str) : bool :=
  existsb (fun ex => is_prefix ex comps) EXCLUDED.

(** The files the walk reaches, each with the components of its directory
    below the root: the files with a listed extension in every directory
    that is not pruned, a directory before its sub directories. *)
Fixpoint walk_components (comps : list str) (t : Dir)
  : list (list str * str) :=
  match t with
  | Node dirnames filenames =>
      map (pair comps) (filter (endswith EXTS) filenames)
      ++ flat_map
           (fun sub =>
              if pruned (comps ++ [fst sub]) then []
              else walk_components (comps ++ [fst sub]) (snd sub))
           dirnames
  end.

(** The end of a component inside a path: the end of the path or a
    slash. *)
Definition at_boundary (w : str) : Prop :=
  match w with [] => True | x :: _ => x = Posix.SEP end.

(** A small tree: excluded directories at the top and further down, and
    files with and without a listed extension. *)
Definition sample_tree : Dir :=
  Node
    [(lit "node_modules", Node [] [lit "x.js"]);
     (lit "lib",
      Node [(lit "node_modules", Node [] [lit "y.js"])]
           [lit "a.js"; lit "b.txt"; lit "c.tsx"]);
     (lit "website",
      Node [(lit "static",
             Node [(lit "scripts", Node [] [lit "s.js"]);
                   (lit "img", Node [] [lit "i.jsx"])]
                  [])]
           [lit "w.ts"]);
     (lit ".git", Node [] [lit "g.js"])]
    [lit "top.js"; lit "README.md"].

(** The continuation [k] succeeds from the text [s] with group [g], whatever
    the character before, and its result satisfies [Q]. *)
Definition succeeds (k : mstate -> option mstate) (s : str)
    (g : option str) (Q : mstate -> Prop) : Prop :=
  forall pv, exists r, k (MState pv s g) = Some r /\ Q r.

(** The text [s] is over or goes on with a character outside the class
    [p]. *)
Definition stops (p : ascii -> bool) (s : str) : Prop :=
  match s with [] => True | c :: _ => p c = false end.

(** A line that declares a function: [function], a name, the parameters in
    parentheses and an opening brace, with white space where JavaScript
    allows it. *)
Definition declaration_line (indent sp1 n sp2 args sp3 tl : str) : str :=
  indent ++ lit "function" ++ sp1 ++ n ++ sp2 ++ lit "(" ++ args
  ++ lit ")" ++ sp3 ++ lit "{" ++ tl.







(** ** What a match of the engine says about the text *)

Module ReFacts.
Import Text Re.

Lemma star_greedy_sound k p g x : forall s pv,
  star_greedy k p g pv s = Some x ->
  exists w s' pv', forallb p w = true /\ s = w ++ s'
                   /\ k (MState pv' s' g) = Some x.
Proof.
  induction s as [|c tl IH]; intros pv H; simpl in H.
  - exists [], [], pv. auto.
  - destruct (p c) eqn:Hp.
    + destruct (star_greedy k p g (Some c) tl) eqn:Hrec.
      * inversion H; subst.
        destruct (IH _ Hrec) as (w & s' & pv' & Hw & Hs & Hk).
        exists (c :: w), s', pv'. simpl. rewrite Hp, Hw, Hs. auto.
      * exists [], (c :: tl), pv. auto.
    + exists [], (c :: tl), pv. auto.
Qed.

Lemma star_lazy_sound k p g x : forall s pv,
  star_lazy k p g pv s = Some x ->
  exists w s' pv', forallb p w = true /\ s = w ++ s'
                   /\ k (MState pv' s' g) = Some x.
Proof.
  induction s as [|c tl IH]; intros pv H; simpl in H.
  - destruct (k (MState pv [] g)) eqn:Hk; [|discriminate].
    exists [], [], pv. inversion H; subst. auto.
  - destruct (k (MState pv (c :: tl) g)) eqn:Hk.
    + inversion H; subst. exists [], (c :: tl), pv. auto.
    + destruct (p c) eqn:Hp; [|discriminate].
      destruct (IH _ H) as (w & s' & pv' & Hw & Hs & Hk').
      exists (c :: w), s', pv'. simpl. rewrite Hp, Hw, Hs. auto.
Qed.

(** Whatever the engine finds, the pattern accepts. *)
Lemma rmatch_sound : forall r k st x,
  rmatch r k st = Some x ->
  exists st', accepts r st st' /\ k st' = Some x.
Proof.
  induction r; intros k st x H; simpl in H.
  - exists st. simpl. auto.
  - destruct (rest st) as [|c tl] eqn:Hr; [discriminate|].
    destruct (p c) eqn:Hp; [|discriminate].
    exists (MState (Some c) tl (grp st)). simpl. split; [|exact H].
    exists c. auto.
  - destruct (star_greedy_sound _ _ _ _ _ _ H) as (w & s' & pv' & Hw & Hs & Hk).
    exists (MState pv' s' (grp st)). simpl. split; [|exact Hk].
    exists w. auto.
  - destruct (star_lazy_sound _ _ _ _ _ _ H) as (w & s' & pv' & Hw & Hs & Hk).
    exists (MState pv' s' (grp st)). simpl. split; [|exact Hk].
    exists w. auto.
  - destruct (IHr1 _ _ _ H) as (mid & Ha & Hk).
    destruct (IHr2 _ _ _ Hk) as (st' & Hb & Hk').
    exists st'. simpl. split; [exists mid; auto|exact Hk'].
  - destruct (rmatch r1 k st) eqn:H1.
    + inversion H; subst.
      destruct (IHr1 _ _ _ H1) as (st' & Ha & Hk).
      exists st'. simpl. auto.
    + destruct (IHr2 _ _ _ H) as (st' & Ha & Hk).
      exists st'. simpl. auto.
  - destruct (IHr _ _ _ H) as (st1 & Ha & Hk).
    eexists. simpl. split; [exists st1; split; [exact Ha|reflexivity]|].
    exact Hk.
  - destruct (at_bol st) eqn:Hb; [|discriminate].
    exists st. simpl. auto.
  - destruct (at_eol st) eqn:Hb; [|discriminate].
    exists st. simpl. auto.
  - destruct (at_wordb st) eqn:Hb; [|discriminate].
    exists st. simpl. auto.
Qed.

Lemma match_here_sound r pv s m :
  match_here r pv s = Some m -> accepts r (MState pv s None) m.
Proof.
  unfold match_here. intros H.
  destruct (rmatch_sound _ _ _ _ H) as (st' & Ha & Hk).
  inversion Hk; subst. exact Ha.
Qed.

Lemma consumed_app st st' u :
  rest st = u ++ rest st' -> consumed st st' = u.
Proof.
  unfold consumed. intros ->. rewrite length_app.
  replace (length u + length (rest st') - length (rest st'))
    with (length u + 0) by lia.
  rewrite firstn_app_2. simpl. apply app_nil_r.
Qed.

End ReFacts.

(** ** The four boundary patterns *)

Section Patterns.
Import ReFacts.

Ltac break_accepts :=
  repeat match goal with
         | H : exists _, _ |- _ => destruct H
         | H : _ /\ _ |- _ => destruct H
         | H : _ \/ _ |- _ => destruct H
         end.

Lemma ident_not_space c : ident c = true -> isspace c = false.
Proof.
  destruct c as [[] [] [] [] [] [] [] []]; vm_compute; congruence.
Qed.

Lemma chr_eqb_eq a b : chr_eqb a b = true -> a = b.
Proof. unfold chr_eqb. apply Ascii.eqb_eq. Qed.

Lemma accepts_Lit s : forall st st',
  accepts (Lit s) st st' -> rest st = s ++ rest st' /\ grp st' = grp st.
Proof.
  induction s as [|c tl IH]; intros st st' H; cbn [Lit accepts] in H.
  - subst. auto.
  - destruct H as (mid & (d & Hd & Hr & _ & Hg) & Htl).
    apply chr_eqb_eq in Hd. subst d.
    destruct (IH _ _ Htl) as [Hr' Hg'].
    rewrite Hr, Hr', Hg', Hg. auto.
Qed.

Lemma accepts_Plus_ident st st' :
  accepts (Plus ident) st st' ->
  exists c n, rest st = (c :: n) ++ rest st'
              /\ forallb ident (c :: n) = true /\ grp st' = grp st.
Proof.
  cbn [Plus accepts]. intros (mid & (c & Hc & Hr & _ & Hg) & (w & Hw & Hr' & Hg')).
  exists c, w. simpl. rewrite Hr, Hr', Hc, Hw, Hg', Hg. auto.
Qed.

Lemma accepts_Group_ident st st' :
  accepts (Group (Plus ident)) st st' ->
  exists c n, rest st = (c :: n) ++ rest st'
              /\ forallb ident (c :: n) = true
              /\ grp st' = Some (c :: n).
Proof.
  cbn [accepts]. intros (st1 & Ha & ->).
  destruct (accepts_Plus_ident _ _ Ha) as (c & n & Hr & Hi & _).
  exists c, n. cbn [rest grp]. rewrite (consumed_app _ _ _ Hr). auto.
Qed.

Ltac open_pattern H :=
  apply match_here_sound in H;
  cbn [accepts seq fold_right VAR_LET_CONST] in H;
  break_accepts;
  repeat match goal with
         | H : accepts (Lit _) _ _ |- _ => apply accepts_Lit in H; destruct H
         | H : accepts (Group (Plus ident)) _ _ |- _ =>
             apply accepts_Group_ident in H;
             destruct H as (? & ? & ? & ? & ?)
         | H : accepts (Plus _) _ _ |- _ =>
             cbn [Plus accepts] in H; break_accepts
         end;
  subst; cbn [rest grp prev] in *.

Ltac solve_first_char :=
  match goal with
  | Hl : ?line = ?w ++ rest ?a, Hw : forallb ws ?w = true
    |- exists _ _ _, ?line = _ /\ _ =>
      match goal with
      | Hr : rest a = ?c :: ?tl, Hc : ident ?c = true |- _ =>
          exists w, c, tl; rewrite Hl, Hr; auto
      | Hr : rest a = lit _ ++ _ |- _ =>
          cbn [lit list_ascii_of_string app] in Hr;
          match type of Hr with
          | _ = ?c :: ?tl =>
              exists w, c, tl; rewrite Hl, Hr;
              split; [reflexivity | split; [exact Hw | reflexivity]]
          end
      end
  end.

Ltac solve_group :=
  match goal with
  | Hg : grp _ = Some (consumed ?s ?e), Hc : ident ?c = true,
    H1 : rest ?s = ?c :: rest ?m, Hn : forallb ident ?n = true,
    H2 : rest ?m = ?n ++ rest ?e |- exists _ _, group1 _ = _ /\ _ =>
      exists c, n; unfold group1;
      repeat match goal with
             | H : grp ?a = _ |- context [grp ?a] => rewrite H
             end;
      rewrite (consumed_app s e (c :: n))
        by (rewrite H1, H2; reflexivity);
      split; [reflexivity | simpl; rewrite Hc, Hn; reflexivity]
  end.

Lemma pat_declaration_shape line m :
  match_ PAT_DECLARATION line = Some m -> line_shape line m.
Proof.
  intros H. unfold match_, PAT_DECLARATION in H. open_pattern H.
  split; [solve_first_char | solve_group].
Qed.

Lemma pat_function_expr_shape line m :
  match_ PAT_FUNCTION_EXPR line = Some m -> line_shape line m.
Proof.
  intros H. unfold match_, PAT_FUNCTION_EXPR in H. open_pattern H;
    (split; [solve_first_char | solve_group]).
Qed.

Lemma pat_arrow_shape line m :
  match_ PAT_ARROW line = Some m -> line_shape line m.
Proof.
  intros H. unfold match_, PAT_ARROW in H. open_pattern H;
    (split; [solve_first_char | solve_group]).
Qed.

Lemma pat_method_shape line m :
  match_ PAT_METHOD line = Some m -> line_shape line m.
Proof.
  intros H. unfold match_, PAT_METHOD in H. open_pattern H.
  split; [solve_first_char | solve_group].
Qed.

Lemma func_patterns_shape pat line m :
  In pat FUNC_PATTERNS -> match_ pat line = Some m -> line_shape line m.
Proof.
  unfold FUNC_PATTERNS. simpl.
  intros [<-|[<-|[<-|[<-|[]]]]].
  - apply pat_declaration_shape.
  - apply pat_function_expr_shape.
  - apply pat_arrow_shape.
  - apply pat_method_shape.
Qed.

End Patterns.

(** ** The extractor's loop *)

Section Extractor.
Variable relpath_root : str -> str.

Lemma scan_patterns_matched line name : forall pats,
  (forall pat, In pat pats -> In pat FUNC_PATTERNS) ->
  scan_patterns pats line = Matched name ->
  exists c n, name = Some (c :: n) /\ forallb ident (c :: n) = true.
Proof.
  induction pats as [|pat pats IH]; intros Hin H; simpl in H.
  - discriminate.
  - destruct (match_ pat line) as [m|] eqn:Hm.
    + destruct (func_patterns_shape pat line m (Hin _ (or_introl eq_refl)) Hm)
        as [_ (c & n & Hg & Hi)].
      rewrite Hg in H.
      destruct (truthy (Some (c :: n)) && in_keyword_names (lower (strip (c :: n))));
        [discriminate|].
      inversion H; subst. exists c, n. auto.
    + apply IH; [|exact H]. intros p Hp. apply Hin. right. exact Hp.
Qed.




Lemma extract_loop_acc lines file : forall fuel i acc,
  extract_loop relpath_root fuel lines file i acc
  = acc ++ extract_loop relpath_root fuel lines file i [].
Proof.
  induction fuel as [|fuel IH]; intros i acc; cbn [extract_loop app].
  - rewrite app_nil_r. reflexivity.
  - destruct (i <? length lines); [|rewrite app_nil_r; reflexivity].
    destruct (scan_patterns FUNC_PATTERNS (nth i lines [])); try apply IH.
    rewrite (IH _ (acc ++ _)), (IH _ [_]), app_assoc. reflexivity.
Qed.

Lemma scan_braces_bounds : forall ls j bc fb,
  j <= scan_braces ls j bc fb <= j + length ls
  /\ (ls <> [] -> j < scan_braces ls j bc fb).
Proof.
  induction ls as [|l tl IH]; intros j bc fb; simpl.
  - split; [lia|congruence].
  - match goal with |- context [if ?b then _ else _] => destruct b end.
    + split; [lia|intros; lia].
    + match goal with |- context [scan_braces tl ?j' ?bc' ?fb'] =>
        destruct (IH j' bc' fb') as [Hb _] end.
      split; [lia|intros; lia].
Qed.

Lemma emitted_weaken lines file i i' rs :
  i' <= i -> emitted relpath_root lines file i rs -> emitted relpath_root lines file i' rs.
Proof.
  intros Hle H. destruct H.
  - constructor.
  - econstructor; eauto. lia.
Qed.

Lemma extract_loop_emitted lines file : forall fuel i,
  emitted relpath_root lines file i (extract_loop relpath_root fuel lines file i []).
Proof.
  induction fuel as [|fuel IH]; intros i; cbn [extract_loop app].
  - constructor.
  - destruct (i <? length lines) eqn:Hi; [|constructor].
    apply Nat.ltb_lt in Hi.
    destruct (scan_patterns FUNC_PATTERNS (nth i lines [])) as [| |nm] eqn:Hs.
    + apply emitted_weaken with (i + 1); [lia|apply IH].
    + apply emitted_weaken with (i + 1 + 1); [lia|apply IH].
    + rewrite extract_loop_acc. cbn [app].
      apply (emitted_cons relpath_root lines file i i nm); auto.
Qed.

Lemma extract_functions_emitted code file :
  emitted relpath_root (splitlines code) file 0
          (extract_functions relpath_root code file).
Proof. apply extract_loop_emitted. Qed.

(** The fuel [len(lines)] is never used up: any fuel that covers the lines
    still ahead gives the same records. *)
Lemma extract_loop_fuel lines file : forall fuel fuel' i acc,
  length lines - i <= fuel -> length lines - i <= fuel' ->
  extract_loop relpath_root fuel lines file i acc
  = extract_loop relpath_root fuel' lines file i acc.
Proof.
  induction fuel as [|fuel IH]; intros fuel' i acc Hf Hf'.
  - destruct fuel'; cbn [extract_loop]; [reflexivity|].
    replace (i <? length lines) with false; [reflexivity|].
    symmetry. apply Nat.ltb_ge. lia.
  - destruct fuel' as [|fuel']; cbn [extract_loop].
    + replace (i <? length lines) with false; [reflexivity|].
      symmetry. apply Nat.ltb_ge. lia.
    + destruct (i <? length lines) eqn:Hi; [|reflexivity].
      apply Nat.ltb_lt in Hi.
      destruct (scan_patterns FUNC_PATTERNS (nth i lines [])).
      * apply IH; lia.
      * apply IH; lia.
      * assert (Hb : i < scan_braces (skipn i lines) i 0%Z false).
        { apply scan_braces_bounds. intros He.
          apply (f_equal (@length str)) in He.
          rewrite length_skipn in He. simpl in He. lia. }
        apply IH; lia.
Qed.

(** A turn of the loop on a denylisted line moves on by two lines. *)
Lemma denied_line_advances_two fuel lines file i acc :
  i < length lines ->
  scan_patterns FUNC_PATTERNS (nth i lines []) = Denied ->
  extract_loop relpath_root (S fuel) lines file i acc
  = extract_loop relpath_root fuel lines file (i + 2) acc.
Proof.
  intros Hi Hs. cbn [extract_loop]. unfold str in *.
  apply Nat.ltb_lt in Hi. rewrite Hi, Hs.
  replace (i + 1 + 1) with (i + 2) by lia. reflexivity.
Qed.

Lemma emitted_Forall lines file (P : FunctionRecord -> Prop) :
  (forall j name, j < length lines ->
     scan_patterns FUNC_PATTERNS (nth j lines []) = Matched name ->
     P (record_at relpath_root lines file j name)) ->
  forall i rs, emitted relpath_root lines file i rs -> Forall P rs.
Proof.
  intros HP i rs H. induction H; constructor; auto.
Qed.

Lemma record_at_lines lines file j name :
  j < length lines ->
  j + 1 = start_line (record_at relpath_root lines file j name)
  /\ start_line (record_at relpath_root lines file j name)
     <= end_line (record_at relpath_root lines file j name)
  /\ end_line (record_at relpath_root lines file j name) <= length lines.
Proof.
  intros Hj. cbn [record_at start_line end_line].
  destruct (scan_braces_bounds (skipn j lines) j 0%Z false) as [Hb Hlt].
  rewrite length_skipn in Hb.
  assert (skipn j lines <> []).
  { intros He. apply (f_equal (@length str)) in He.
    rewrite length_skipn in He. simpl in He. lia. }
  specialize (Hlt H). lia.
Qed.

Lemma emitted_ordered lines file : forall i rs,
  emitted relpath_root lines file i rs ->
  Forall (fun r => i < start_line r /\ start_line r <= end_line r) rs
  /\ StronglySorted (fun a b => end_line a < start_line b) rs.
Proof.
  intros i rs H. induction H as [i|i j name rs Hij Hj Hs Hrs [IHa IHb]].
  - split; constructor.
  - destruct (record_at_lines lines file j name Hj) as (Hst & Hle & _).
    split.
    + constructor; [lia|].
      eapply Forall_impl; [|exact IHa]. cbv beta. intros r [Hr1 Hr2]. lia.
    + constructor; [exact IHb|].
      eapply Forall_impl; [|exact IHa]. cbv beta. intros r [Hr1 Hr2]. lia.
Qed.

End Extractor.

(** ** Claims about the extractor *)

Section ExtractorClaims.
Variable relpath_root : str -> str.

(** C3: the extractor emits its records in source order; each record has
    [1 <= start_line <= end_line], and every record starts strictly after
    the end of each record before it, so line ranges never overlap. *)
Theorem extract_functions_ordered code file :
  Forall (fun r => 1 <= start_line r /\ start_line r <= end_line r)
         (extract_functions relpath_root code file)
  /\ StronglySorted (fun a b => end_line a < start_line b)
                    (extract_functions relpath_root code file).
Proof.
  destruct (emitted_ordered relpath_root _ _ _ _
              (extract_functions_emitted relpath_root code file))
    as [Ha Hb].
  split; [|exact Hb].
  eapply Forall_impl; [|exact Ha]. cbv beta. intros r [H1 H2]. lia.
Qed.

Lemma replace_chr_length c a b s :
  length (replace_chr c [a; b] s) = length s + count c s.
Proof.
  unfold count. induction s as [|d s IH]; simpl; [reflexivity|].
  unfold chr_eqb in *. rewrite (Ascii.eqb_sym c d).
  destruct (Ascii.eqb d c); simpl; rewrite IH; lia.
Qed.

Lemma count_le c s : count c s <= length s.
Proof. unfold count. apply filter_length_le. Qed.

Lemma prefix_length n s : length (prefix n s) <= n.
Proof. unfold prefix. rewrite length_firstn. lia. Qed.

Lemma make_entry_snippet r : e_snippet (make_entry r) = prefix 120 (snippet r).
Proof.
  unfold make_entry. cbn [e_snippet]. destruct (snippet r); reflexivity.
Qed.

(** C8, as amended: the snippet of every record of the extractor is the
    newline-escaped form of the first 120 characters of its code, one
    character longer than that prefix for each newline in it and so at most
    240 characters long; the snippet of the output entry made from the
    record is the first 120 characters of the record's snippet, at most 120
    characters. *)
Theorem snippet_of_record text file :
  Forall (fun r =>
            snippet r
            = replace_chr LF [BACKSLASH; chr "n"] (prefix 120 (code r))
            /\ length (snippet r)
               = length (prefix 120 (code r)) + count LF (prefix 120 (code r))
            /\ length (snippet r) <= 240
            /\ e_snippet (make_entry r) = prefix 120 (snippet r)
            /\ length (e_snippet (make_entry r)) <= 120)
         (extract_functions relpath_root text file).
Proof.
  apply (emitted_Forall relpath_root (splitlines text) file) with (i := 0);
    [|apply extract_functions_emitted].
  intros j nm _ _.
  rewrite make_entry_snippet.
  cbn [record_at snippet code].
  rewrite replace_chr_length.
  pose proof (prefix_length 120
    (join [LF]
       (slice j (scan_braces (skipn j (splitlines text)) j 0%Z false)
          (splitlines text)))) as Hp.
  pose proof (count_le LF (prefix 120
    (join [LF]
       (slice j (scan_braces (skipn j (splitlines text)) j 0%Z false)
          (splitlines text))))) as Hc.
  repeat split; try reflexivity; try lia.
  apply prefix_length.
Qed.

(** C10: every record of the extractor has a name, and the name is a
    non-empty run of identifier characters; so over the records of any
    scan the test [if f['name']] of the identical-named grouping is always
    true. *)
Theorem extracted_name_present :
  (forall code file,
     Forall (fun r => exists c n, name r = Some (c :: n)
                                  /\ forallb ident (c :: n) = true)
            (extract_functions relpath_root code file))
  /\ (forall files,
        Forall (fun r => truthy (name r) = true)
               (scan_files relpath_root files)).
Proof.
  assert (H : forall code file,
     Forall (fun r => exists c n, name r = Some (c :: n)
                                  /\ forallb ident (c :: n) = true)
            (extract_functions relpath_root code file)).
  { intros code file.
    apply (emitted_Forall relpath_root (splitlines code) file) with (i := 0);
      [|apply extract_functions_emitted].
    intros j nm _ Hs. cbn [record_at name].
    apply (scan_patterns_matched _ _ FUNC_PATTERNS (fun _ h => h) Hs). }
  split; [exact H|].
  intros files. unfold scan_files.
  assert (G : forall acc,
    Forall (fun r => truthy (name r) = true) acc ->
    Forall (fun r => truthy (name r) = true)
      (fold_left
         (fun funcs (file : str * str) =>
            let (p, code) := file in
            if nonempty code
            then funcs ++ extract_functions relpath_root code p
            else funcs) files acc)).
  { induction files as [|[p code] files IH]; intros acc Hacc; simpl.
    - exact Hacc.
    - apply IH. destruct (nonempty code); [|exact Hacc].
      apply Forall_app. split; [exact Hacc|].
      eapply Forall_impl; [|apply (H code p)]. cbv beta.
      intros r (c & n & -> & _). reflexivity. }
  apply G. constructor.
Qed.

End ExtractorClaims.

Import Examples.

Section QuietScan.
Variable relpath_root : str -> str.






End QuietScan.

Section CommentOnly.
Variable relpath_root : str -> str.


End CommentOnly.



(** C8 as stated fails: the code of this record has a newline among its
    first 120 characters, and the record's snippet is 121 characters
    long. *)
Lemma snippet_longer_than_120 :
  map (fun r => (length (code r), length (snippet r),
                 length (e_snippet (make_entry r))))
      (Run.extract_functions long_function a_js)
  = [(167, 121, 120)].
Proof. vm_compute. reflexivity. Qed.

(** C4 fails on the code: [if (x) {] matches the method pattern with the
    denylisted name [if]; the loop then adds 1 to [i] twice, once in the
    denylist branch and once for the unmatched line, so the function on the
    next line, detected when it stands alone, is never examined. *)
Lemma denylisted_line_skips_next_line :
  scan_patterns FUNC_PATTERNS (lit "if (x) {") = Denied
  /\ scan_patterns FUNC_PATTERNS (lit "function foo() {")
     = Matched (Some (lit "foo"))
  /\ map (fun r => (start_line r, end_line r, name r))
         (Run.extract_functions function_alone a_js)
     = [(1, 2, Some (lit "foo"))]
  /\ Run.extract_functions if_then_function a_js = [].
Proof. repeat split; vm_compute; reflexivity. Qed.

(** ** The grouping engine *)

Section Folds.

(** A loop that appends to a list whatever passes a test. *)
Lemma fold_left_append_if (A B : Type) (f : list B -> A -> list B)
    (c : A -> bool) (h : A -> B) :
  (forall acc x, f acc x = if c x then acc ++ [h x] else acc) ->
  forall l acc, fold_left f l acc = acc ++ map h (filter c l).
Proof.
  intros Hf. induction l as [|x l IH]; intros acc; simpl.
  - rewrite app_nil_r. reflexivity.
  - rewrite IH, Hf. destruct (c x); simpl; [|reflexivity].
    rewrite <- app_assoc. reflexivity.
Qed.

Lemma str_eqb_eq a : forall b, str_eqb a b = true <-> a = b.
Proof.
  induction a as [|x a IH]; intros [|y b]; simpl; split; intros H;
    try reflexivity; try discriminate.
  - apply andb_prop in H. destruct H as [Hx Hab].
    apply chr_eqb_eq in Hx. apply IH in Hab. congruence.
  - inversion H; subst. unfold chr_eqb. rewrite Ascii.eqb_refl.
    apply IH. reflexivity.
Qed.

Lemma str_eqb_refl a : str_eqb a a = true.
Proof. apply str_eqb_eq. reflexivity. Qed.

Lemma dict_append_ok (A : Type) (key : A -> str) (P : A -> Prop) f :
  P f -> forall d,
  buckets_ok key P d -> buckets_ok key P (dict_append (key f) f d).
Proof.
  intros Pf. induction d as [|[k items] d IH]; intros Hd; simpl.
  - constructor; [|constructor]. simpl. split; [discriminate|].
    constructor; auto.
  - inversion Hd as [|e d' [Hne Hall] Hd']; subst. simpl in *.
    destruct (str_eqb k (key f)) eqn:Hk.
    + apply str_eqb_eq in Hk. constructor; [|exact Hd'].
      simpl. split; [destruct items; discriminate|].
      apply Forall_app. split; [exact Hall|]. constructor; auto.
    + constructor; [|apply IH; exact Hd']. simpl. auto.
Qed.

End Folds.

Section ExactGroups.

Lemma by_body_ok funcs :
  buckets_ok norm (fun f => In f funcs)
    (fold_left (fun d f => dict_append (norm f) f d) funcs []).
Proof.
  assert (G : forall l d,
    (forall f, In f l -> In f funcs) ->
    buckets_ok norm (fun f => In f funcs) d ->
    buckets_ok norm (fun f => In f funcs)
      (fold_left (fun d f => dict_append (norm f) f d) l d)).
  { induction l as [|f l IH]; intros d Hl Hd; simpl; [exact Hd|].
    apply IH; [intros; apply Hl; right; assumption|].
    apply dict_append_ok; [apply Hl; left; reflexivity|exact Hd]. }
  apply G; [auto|constructor].
Qed.

(** Every exact-body group has at least two members, all of them records
    of the input with one and the same non-empty [norm]. *)
Lemma group_exact_spec funcs g :
  In g (group_exact funcs) ->
  exists k, k <> [] /\ 2 <= length g
            /\ Forall (fun f => norm f = k /\ In f funcs) g.
Proof.
  unfold group_exact.
  rewrite (fold_left_append_if _ _
             (fun groups (entry : str * list FunctionRecord) =>
                let (k, items) := entry in
                if (1 <? length items) && nonempty k then groups ++ [items]
                else groups)
             (fun e => (1 <? length (snd e)) && nonempty (fst e)) snd)
    by (intros acc [k items]; reflexivity).
  simpl. rewrite in_map_iff. intros ([k items] & <- & Hin).
  apply filter_In in Hin. destruct Hin as [Hin Hc]. simpl in *.
  apply andb_prop in Hc. destruct Hc as [Hlen Hk].
  apply Nat.ltb_lt in Hlen.
  pose proof (by_body_ok funcs) as Hok. unfold buckets_ok in Hok.
  rewrite Forall_forall in Hok. destruct (Hok _ Hin) as [_ Hall].
  exists k. split; [destruct k; [discriminate|congruence]|].
  split; [lia|exact Hall].
Qed.

Lemma exact_norms_spec groups g f :
  In g groups -> In f g -> norm f <> [] ->
  (forall f', In f' g -> norm f' = norm f) ->
  In (norm f) (exact_norms groups).
Proof.
  intros Hg Hf Hne Hsame. unfold exact_norms. apply in_flat_map.
  exists g. split; [exact Hg|].
  destruct g as [|f0 g']; [contradiction|].
  rewrite (Hsame f0 (or_introl eq_refl)).
  destruct (norm f) as [|c n]; [congruence|]. simpl. auto.
Qed.

Lemma remaining_spec funcs norms f :
  In f (remaining funcs norms) <-> In f funcs /\ ~ In (norm f) norms.
Proof.
  unfold remaining. rewrite filter_In. split; intros [Hin Hn]; split; auto.
  - intros Hc. apply negb_true_iff in Hn.
    assert (existsb (str_eqb (norm f)) norms = true); [|congruence].
    apply existsb_exists. exists (norm f). split; [exact Hc|apply str_eqb_refl].
  - apply negb_true_iff. destruct (existsb _ norms) eqn:He; [|reflexivity].
    apply existsb_exists in He. destruct He as (x & Hx & Heq).
    apply str_eqb_eq in Heq. subst x. contradiction.
Qed.

End ExactGroups.

(** ** Comparisons of floats *)

Section FloatFacts.

Lemma SFcompare_antisym x y :
  SFcompare y x = option_map CompOpp (SFcompare x y).
Proof.
  destruct x as [sx|sx| |sx mx ex], y as [sy|sy| |sy my ey]; simpl;
    try reflexivity;
    try (destruct sx; reflexivity); try (destruct sy; reflexivity);
    try (destruct sx, sy; reflexivity).
  destruct sx, sy; try reflexivity;
    rewrite (Z.compare_antisym ex ey);
    destruct (ex ?= ey)%Z; simpl; try reflexivity;
    change (Pos.compare_cont Eq my mx) with (Pos.compare my mx);
    change (Pos.compare_cont Eq mx my) with (Pos.compare mx my);
    rewrite (Pos.compare_antisym mx my);
    destruct (mx ?= my)%positive; reflexivity.
Qed.

(** [x < y] excludes [y <= x]. *)
Lemma ltb_not_leb x y : (x <? y)%float = true -> (y <=? x)%float = false.
Proof.
  rewrite FloatAxioms.ltb_spec, FloatAxioms.leb_spec. unfold SFltb, SFleb.
  rewrite (SFcompare_antisym (Prim2SF x) (Prim2SF y)).
  destruct (SFcompare (Prim2SF x) (Prim2SF y)) as [[| |]|]; simpl; congruence.
Qed.

(** A score that reaches the threshold of [main] is not negative. *)
Lemma threshold_nonneg s :
  (FUZZY_THRESHOLD <=? s)%float = true -> (0 <=? s)%float = true.
Proof.
  rewrite !FloatAxioms.leb_spec. unfold SFleb.
  destruct (Prim2SF s) as [ss|ss| |ss ms es];
    try (destruct ss); vm_compute; congruence.
Qed.

End FloatFacts.

(** ** The library models meet what the claims assume of them *)

Section LibraryFacts.

Lemma zero_quotient_not_absorbed y :
  absorbs FUZZY_THRESHOLD (0 / y)%float = false.
Proof.
  unfold absorbs. rewrite FloatAxioms.leb_spec, FloatAxioms.div_spec.
  unfold SFleb.
  destruct (Prim2SF y) as [sy|sy| |sy my ey];
    try destruct sy; vm_compute; reflexivity.
Qed.

Lemma outer_loop_no_index blo bhi : forall ai i n j2len best,
  Difflib.outer_loop [] blo bhi ai i n j2len best = best.
Proof.
  induction ai as [|c tl IH]; intros i n j2len best; destruct n; simpl; auto.
Qed.

Lemma matching_blocks_nil_l b : Difflib.matching_blocks [] b = [].
Proof. reflexivity. Qed.

Lemma matching_blocks_nil_r a : Difflib.matching_blocks a [] = [].
Proof.
  unfold Difflib.matching_blocks. cbn [Difflib.blocks_loop].
  unfold Difflib.find_longest_match.
  change (Difflib.chain_b []) with (@nil (ascii * list nat)).
  cbn [Difflib.m_a Difflib.m_b Difflib.m_size].
  rewrite outer_loop_no_index.
  cbn [Difflib.m_a Difflib.m_b Difflib.m_size Difflib.extend_left length].
  assert (He : forall fuel best,
    Difflib.m_b best + Difflib.m_size best = 0 ->
    Difflib.extend_right a [] (length a) 0 fuel best = best).
  { intros [|fuel] best Hb; cbn [Difflib.extend_right]; [reflexivity|].
    rewrite Hb. cbn [Nat.ltb Nat.leb]. rewrite andb_false_r. reflexivity. }
  rewrite He by reflexivity. cbn [Difflib.m_size Nat.ltb Nat.leb].
  destruct (2 * length a); reflexivity.
Qed.

(** [difflib] scores an empty text 1.0 against the empty text and 0.0
    against any other: never a score that [main] absorbs. *)
Lemma difflib_ratio_empty a b :
  a = [] \/ b = [] ->
  absorbs FUZZY_THRESHOLD (Difflib.ratio a b) = false.
Proof.
  intros [-> | ->]; unfold Difflib.ratio, Difflib.calculate_ratio.
  - rewrite matching_blocks_nil_l. cbn [fold_left].
    destruct (0 <? length [] + length b); [|reflexivity].
    change (2 * Difflib.float_of_nat 0)%float with 0%float.
    apply zero_quotient_not_absorbed.
  - rewrite matching_blocks_nil_r. cbn [fold_left].
    destruct (0 <? length a + length []); [|reflexivity].
    change (2 * Difflib.float_of_nat 0)%float with 0%float.
    apply zero_quotient_not_absorbed.
Qed.

Lemma ltb_leb x y : (x <? y)%float = true -> (x <=? y)%float = true.
Proof.
  rewrite FloatAxioms.ltb_spec, FloatAxioms.leb_spec. unfold SFltb, SFleb.
  destruct (SFcompare (Prim2SF x) (Prim2SF y)) as [[| |]|]; congruence.
Qed.

Lemma digits2_pos_bound m : (Zpos m < 2 ^ Zpos (digits2_pos m))%Z.
Proof.
  induction m as [p IH|p IH|]; cbn [digits2_pos].
  - rewrite Pos2Z.inj_succ, Z.pow_succ_r by lia. lia.
  - rewrite Pos2Z.inj_succ, Z.pow_succ_r by lia. lia.
  - reflexivity.
Qed.

(** A mantissa of a binary64 float has at most 53 bits. *)
Lemma valid_mantissa_bound m e :
  bounded prec emax m e = true -> (Zpos m < 2 ^ 53)%Z.
Proof.
  unfold bounded, canonical_mantissa, fexp. intros H.
  apply andb_prop in H. destruct H as [H _]. apply Z.eqb_eq in H.
  pose proof (digits2_pos_bound m) as Hd.
  assert (Hle : (Zpos (digits2_pos m) <= 53)%Z).
  { unfold prec in H. lia. }
  assert ((2 ^ Zpos (digits2_pos m) <= 2 ^ 53)%Z)
    by (apply Z.pow_le_mono_r; lia).
  lia.
Qed.

Lemma round_half_even_bounds num den :
  (0 <= num < 1000 * den)%Z -> (0 < den)%Z ->
  (0 <= Builtins.round_half_even num den <= 1000)%Z.
Proof.
  intros Hn Hd. unfold Builtins.round_half_even.
  assert (Hq : (0 <= num / den < 1000)%Z).
  { split; [apply Z.div_pos; lia|].
    apply Z.div_lt_upper_bound; lia. }
  destruct (2 * (num mod den) ?= den)%Z; [destruct (Z.even _)| |]; lia.
Qed.

Lemma thousandths_in_unit_interval n :
  (0 <= n <= 1000)%Z ->
  (0 <=? PrimFloat.of_uint63 (Uint63.of_Z n) / 1000)%float = true
  /\ (PrimFloat.of_uint63 (Uint63.of_Z n) / 1000 <=? 1)%float = true.
Proof.
  intros Hn.
  assert (Htab : forallb
    (fun k => ((0 <=? PrimFloat.of_uint63 (Uint63.of_Z (Z.of_nat k)) / 1000)
               && (PrimFloat.of_uint63 (Uint63.of_Z (Z.of_nat k)) / 1000
                   <=? 1))%float)
    (List.seq 0 1001) = true) by (vm_compute; reflexivity).
  rewrite forallb_forall in Htab.
  specialize (Htab (Z.to_nat n)).
  rewrite Z2Nat.id in Htab by lia.
  apply andb_prop. apply Htab. apply in_seq. lia.
Qed.

(** [round(s, 3)] of a score in [0, 1) lies in [0, 1]. *)
Lemma round3_unit_interval s :
  (0 <=? s)%float = true -> (s <? 1)%float = true ->
  (0 <=? Builtins.round3 s)%float = true
  /\ (Builtins.round3 s <=? 1)%float = true.
Proof.
  intros H0 H1. pose proof (ltb_leb _ _ H1) as Hle.
  pose proof (FloatAxioms.Prim2SF_valid s) as Hv.
  pose proof H0 as H0'. pose proof H1 as H1'.
  rewrite FloatAxioms.leb_spec in H0'. rewrite FloatAxioms.ltb_spec in H1'.
  unfold Builtins.round3.
  destruct (Prim2SF s) as [sg|sg| |sg m e] eqn:E; auto.
  destruct (0x1p43 <=? PrimFloat.abs s)%float; [auto|].
  destruct sg; [vm_compute in H0'; discriminate|].
  cbn [valid_binary] in Hv. apply valid_mantissa_bound in Hv.
  assert (P1 : Prim2SF 1 = S754_finite false 4503599627370496 (-52))
    by (vm_compute; reflexivity).
  rewrite P1 in H1'. unfold SFltb in H1'. cbn [SFcompare] in H1'.
  assert (He : (e <= -52)%Z /\ (e = -52 -> Zpos m < 4503599627370496)%Z).
  { destruct (e ?= -52)%Z eqn:Hc.
    - apply Z.compare_eq in Hc. split; [lia|]. intros _.
      destruct (Pos.compare_cont Eq m 4503599627370496) eqn:Hm;
        try discriminate.
      apply (proj1 (Pos.compare_lt_iff m 4503599627370496)) in Hm.
      apply Pos2Z.pos_lt_pos. exact Hm.
    - change (e < -52)%Z in Hc. split; [lia|intros; lia].
    - discriminate. }
  destruct He as [He1 He2].
  destruct (0 <=? e)%Z eqn:Hpos; [apply Z.leb_le in Hpos; lia|].
  apply thousandths_in_unit_interval.
  apply round_half_even_bounds.
  - split; [lia|].
    destruct (Z.eq_dec e (-52)) as [->|Hne].
    + specialize (He2 eq_refl).
      change (2 ^ (- -52))%Z with 4503599627370496%Z. lia.
    + assert (Hp : (2 ^ 53 <= 2 ^ (- e))%Z)
        by (apply Z.pow_le_mono_r; lia).
      change (2 ^ 53)%Z with 9007199254740992%Z in *.
      lia.
  - apply Z.pow_pos_nonneg; lia.
Qed.

End LibraryFacts.

(** ** Fuzzy clustering *)

Section Fuzzy.
Variable ratio : str -> str -> float.

Lemma fuzzy_pass_eq threshold rep unused :
  fuzzy_pass ratio threshold rep unused
  = ({| member := rep; similarity := None |}
       :: map (scored ratio rep) (filter (absorbed_by ratio threshold rep) unused),
     filter (absorbed_by ratio threshold rep) unused).
Proof.
  unfold fuzzy_pass.
  match goal with |- fold_left ?f _ _ = _ => set (step := f) end.
  assert (Hstep : forall c r o,
    step (c, r) o
    = if absorbed_by ratio threshold rep o
      then (c ++ [scored ratio rep o], r ++ [o]) else (c, r)).
  { intros c r o. unfold step, absorbed_by, scored.
    destruct (nonempty (norm rep)), (nonempty (norm o)); reflexivity. }
  assert (G : forall l c r,
    fold_left step l (c, r)
    = (c ++ map (scored ratio rep) (filter (absorbed_by ratio threshold rep) l),
       r ++ filter (absorbed_by ratio threshold rep) l)).
  { induction l as [|o l IH]; intros c r; cbn [fold_left filter map].
    - rewrite !app_nil_r. reflexivity.
    - rewrite Hstep. destruct (absorbed_by ratio threshold rep o); rewrite IH;
        cbn [map]; rewrite <- ?app_assoc; reflexivity. }
  apply G.
Qed.

Lemma list_remove_incl r l x : In x (list_remove r l) -> In x l.
Proof.
  induction l as [|y l IH]; simpl; [auto|].
  destruct (FunctionRecord_eq_dec y r); simpl; intuition.
Qed.

Lemma remove_all_incl to_remove : forall l x,
  In x (fold_left (fun u r => list_remove r u) to_remove l) -> In x l.
Proof.
  induction to_remove as [|r tr IH]; intros l x H; simpl in H; [exact H|].
  apply (list_remove_incl r). apply IH. exact H.
Qed.

Lemma list_remove_length r l : length (list_remove r l) <= length l.
Proof.
  induction l as [|y l IH]; simpl; [lia|].
  destruct (FunctionRecord_eq_dec y r); simpl; lia.
Qed.

Lemma remove_all_length to_remove : forall l,
  length (fold_left (fun u r => list_remove r u) to_remove l) <= length l.
Proof.
  induction to_remove as [|r tr IH]; intros l; simpl; [lia|].
  etransitivity; [apply IH|apply list_remove_length].
Qed.

Lemma cluster_of_incl threshold pool pool' c :
  (forall x, In x pool -> In x pool') ->
  cluster_of ratio threshold pool c -> cluster_of ratio threshold pool' c.
Proof.
  intros Hincl (rep & others & Hc & Hne & Hrep & Hall).
  exists rep, others. repeat split; auto.
  eapply Forall_impl; [|exact Hall]. cbv beta. intros o [Ho Ha]. auto.
Qed.

Lemma group_fuzzy_loop_spec threshold : forall fuel unused groups c,
  In c (group_fuzzy_loop ratio fuel threshold unused groups) ->
  In c groups \/ cluster_of ratio threshold unused c.
Proof.
  induction fuel as [|fuel IH]; intros unused groups c H;
    cbn [group_fuzzy_loop] in H; [auto|].
  destruct unused as [|rep unused]; [auto|].
  rewrite fuzzy_pass_eq in H.
  apply IH in H. destruct H as [H|H].
  - destruct (1 <? length _) eqn:Hlen in H; [|auto].
    apply in_app_or in H. destruct H as [H|[<-|[]]]; [auto|].
    right. exists rep, (filter (absorbed_by ratio threshold rep) unused).
    split; [reflexivity|]. split.
    + intros He. rewrite He in Hlen. discriminate.
    + split; [left; reflexivity|].
      apply Forall_forall. intros o Ho. apply filter_In in Ho.
      destruct Ho as [Ho Ha]. split; [right; exact Ho|exact Ha].
  - right. eapply cluster_of_incl; [|exact H].
    intros x Hx. right. eapply remove_all_incl. exact Hx.
Qed.

(** Every cluster [group_fuzzy] returns is a cluster of its input. *)
Lemma group_fuzzy_spec threshold funcs c :
  In c (group_fuzzy ratio funcs threshold) -> cluster_of ratio threshold funcs c.
Proof.
  unfold group_fuzzy. intros H.
  apply group_fuzzy_loop_spec in H. destruct H as [[]|H]. exact H.
Qed.

(** The fuel [len(funcs)] is never used up. *)
Lemma group_fuzzy_loop_fuel threshold : forall fuel fuel' unused groups,
  length unused <= fuel -> length unused <= fuel' ->
  group_fuzzy_loop ratio fuel threshold unused groups
  = group_fuzzy_loop ratio fuel' threshold unused groups.
Proof.
  induction fuel as [|fuel IH]; intros fuel' unused groups Hf Hf'.
  - destruct unused; [|simpl in Hf; lia]. destruct fuel'; reflexivity.
  - destruct fuel' as [|fuel'].
    + destruct unused; [|simpl in Hf'; lia]. reflexivity.
    + cbn [group_fuzzy_loop]. destruct unused as [|rep unused]; [reflexivity|].
      destruct (fuzzy_pass ratio threshold rep unused) as [cluster to_remove].
      pose proof (remove_all_length to_remove unused).
      simpl in Hf, Hf'. apply IH; lia.
Qed.

End Fuzzy.

(** ** Claims about the grouping engine *)

Section GroupingClaims.
Variable ratio : str -> str -> float.

(** C1: in one turn of the clustering loop, with [rep] taken as the
    representative and [unused] the pool of records not yet clustered (no
    score against an empty [norm] lying in the absorbing range, as is the
    case for [difflib]): every record of the pool whose ratio to [rep] is at
    least 0.82 and below 1.0 joins the cluster of [rep], with that ratio as
    its similarity; every other member of the cluster is such a record; no
    record of the pool whose ratio is below 0.82 is among them; and the loop
    goes on with this cluster and the pool less the absorbed records. *)
Theorem fuzzy_pass_absorbs rep unused :
  (forall other, In other unused ->
     norm rep = [] \/ norm other = [] ->
     absorbs FUZZY_THRESHOLD (ratio (norm rep) (norm other)) = false) ->
  (forall other, In other unused ->
     (FUZZY_THRESHOLD <=? ratio (norm rep) (norm other))%float = true ->
     (ratio (norm rep) (norm other) <? 1)%float = true ->
     In (scored ratio rep other)
        (tl (fst (fuzzy_pass ratio FUZZY_THRESHOLD rep unused))))
  /\ (forall m,
        In m (tl (fst (fuzzy_pass ratio FUZZY_THRESHOLD rep unused))) ->
        In (member m) unused
        /\ similarity m = Some (ratio (norm rep) (norm (member m)))
        /\ (FUZZY_THRESHOLD <=? ratio (norm rep) (norm (member m)))%float
           = true
        /\ (ratio (norm rep) (norm (member m)) <? 1)%float = true)
  /\ (forall other, In other unused ->
        (ratio (norm rep) (norm other) <? FUZZY_THRESHOLD)%float = true ->
        ~ In other
            (map member
                 (tl (fst (fuzzy_pass ratio FUZZY_THRESHOLD rep unused)))))
  /\ (forall fuel groups,
        group_fuzzy_loop ratio (S fuel) FUZZY_THRESHOLD (rep :: unused) groups
        = group_fuzzy_loop ratio fuel FUZZY_THRESHOLD
            (fold_left (fun u r => list_remove r u)
               (snd (fuzzy_pass ratio FUZZY_THRESHOLD rep unused)) unused)
            (if 1 <? length (fst (fuzzy_pass ratio FUZZY_THRESHOLD rep unused))
             then groups
                  ++ [fst (fuzzy_pass ratio FUZZY_THRESHOLD rep unused)]
             else groups)).
Proof.
  intros Hempty.
  assert (Hmem : forall m,
    In m (tl (fst (fuzzy_pass ratio FUZZY_THRESHOLD rep unused))) ->
    exists o, m = scored ratio rep o /\ In o unused
              /\ absorbed_by ratio FUZZY_THRESHOLD rep o = true).
  { intros m Hm. rewrite fuzzy_pass_eq in Hm. cbn [fst tl] in Hm.
    apply in_map_iff in Hm. destruct Hm as (o & <- & Ho).
    apply filter_In in Ho. exists o. tauto. }
  repeat split.
  - intros other Hin Hge Hlt. rewrite fuzzy_pass_eq. cbn [fst tl].
    apply in_map. apply filter_In. split; [exact Hin|].
    assert (Habs : absorbs FUZZY_THRESHOLD (ratio (norm rep) (norm other))
                   = true)
      by (unfold absorbs; rewrite Hge, Hlt; reflexivity).
    unfold absorbed_by. rewrite Habs, andb_true_r.
    destruct (nonempty (norm rep)) eqn:Hr.
    + destruct (nonempty (norm other)) eqn:Ho; [reflexivity|].
      assert (He : norm other = [])
        by (destruct (norm other); [reflexivity|discriminate]).
      rewrite (Hempty other Hin (or_intror He)) in Habs. discriminate.
    + assert (He : norm rep = [])
        by (destruct (norm rep); [reflexivity|discriminate]).
      rewrite (Hempty other Hin (or_introl He)) in Habs. discriminate.
  - destruct (Hmem m H) as (o & -> & Ho & _). exact Ho.
  - destruct (Hmem m H) as (o & -> & _ & _). reflexivity.
  - destruct (Hmem m H) as (o & -> & _ & Ha). unfold absorbed_by in Ha.
    apply andb_prop in Ha. destruct Ha as [_ Ha].
    apply andb_prop in Ha. destruct Ha as [Ha _]. exact Ha.
  - destruct (Hmem m H) as (o & -> & _ & Ha). unfold absorbed_by in Ha.
    apply andb_prop in Ha. destruct Ha as [_ Ha].
    apply andb_prop in Ha. destruct Ha as [_ Ha]. exact Ha.
  - intros other Hin Hlow Hc. apply in_map_iff in Hc.
    destruct Hc as (m & Hm & Hin').
    destruct (Hmem m Hin') as (o & -> & _ & Ha). cbn [scored member] in Hm.
    subst o. unfold absorbed_by in Ha.
    apply andb_prop in Ha. destruct Ha as [_ Ha].
    apply andb_prop in Ha. destruct Ha as [Ha _].
    rewrite (ltb_not_leb _ _ Hlow) in Ha. discriminate.
  - intros fuel groups. cbn [group_fuzzy_loop].
    destruct (fuzzy_pass ratio FUZZY_THRESHOLD rep unused). reflexivity.
Qed.

(** C5: every record whose [norm] is the shared [norm] of an exact-body
    group is left out of the input of the fuzzy clustering, so no record of
    an exact-body group is a member of a fuzzy cluster. *)
Theorem exact_groups_excluded_from_fuzzy funcs :
  (forall g f f', In g (group_exact funcs) -> In f' g ->
     norm f = norm f' ->
     ~ In f (remaining funcs (exact_norms (group_exact funcs))))
  /\ (forall g f c m, In g (group_exact funcs) -> In f g ->
        In c (group_fuzzy ratio
                (remaining funcs (exact_norms (group_exact funcs)))
                FUZZY_THRESHOLD) ->
        In m c -> member m <> f).
Proof.
  assert (Hex : forall g f f', In g (group_exact funcs) -> In f' g ->
     norm f = norm f' ->
     ~ In f (remaining funcs (exact_norms (group_exact funcs)))).
  { intros g f f' Hg Hf' Hn Hin.
    apply remaining_spec in Hin. destruct Hin as [_ Hnot]. apply Hnot.
    destruct (group_exact_spec funcs g Hg) as (k & Hk & _ & Hall).
    rewrite Forall_forall in Hall.
    rewrite Hn. apply (exact_norms_spec (group_exact funcs) g f' Hg Hf').
    - destruct (Hall f' Hf') as [-> _]. exact Hk.
    - intros f'' Hf''. destruct (Hall f' Hf') as [-> _].
      destruct (Hall f'' Hf'') as [-> _]. reflexivity. }
  split; [exact Hex|].
  intros g f c m Hg Hf Hc Hm Heq.
  apply group_fuzzy_spec in Hc.
  destruct Hc as (rep & others & -> & _ & Hrep & Hall).
  apply (Hex g f f Hg Hf eq_refl).
  destruct Hm as [<-|Hm].
  - cbn [member] in Heq. subst rep. exact Hrep.
  - apply in_map_iff in Hm. destruct Hm as (o & <- & Ho).
    cbn [scored member] in Heq. subst o.
    rewrite Forall_forall in Hall. apply (Hall f Ho).
Qed.

Variables relpath_root join_root : str -> str.

Lemma sorted_by_nonempty (A : Type) (key : A -> nat * str) (l : list A) :
  l <> [] -> sorted_by key l <> [].
Proof.
  destruct l as [|x l]; [congruence|]. intros _. simpl.
  destruct (sorted_by key l) as [|y l']; simpl; [discriminate|].
  destruct (key_ltb (key y) (key x)); discriminate.
Qed.

(** C9, as amended: every non-representative member of a fuzzy cluster
    carries the similarity [s] of its normalized body against that of the
    representative, the first member of the cluster, with
    [0 <= 0.82 <= s < 1]; what the output document reports for it is
    [round(s, 3)], which lies in the closed interval from 0 to 1 and can
    be [1.0]. *)
Theorem fuzzy_similarity_range funcs c :
  In c (group_fuzzy ratio funcs FUZZY_THRESHOLD) ->
  (exists rep,
     hd_error c = Some rep /\ similarity rep = None
     /\ forall m, In m (tl c) ->
          exists s, similarity m = Some s /\ get_similarity m = s
                    /\ s = ratio (norm (member rep)) (norm (member m))
                    /\ (0 <=? s)%float = true
                    /\ (FUZZY_THRESHOLD <=? s)%float = true
                    /\ (s <? 1)%float = true)
  /\ (exists fr,
        report_fuzzy relpath_root join_root Builtins.round3 c = Some fr
        /\ matches fr
           = map (fun o => (make_entry (member o),
                            Builtins.round3 (get_similarity o)))
                 (tl c)
        /\ Forall (fun e => (0 <=? snd e)%float = true
                            /\ (snd e <=? 1)%float = true)
                  (matches fr))
  /\ (exists files,
        option_map
          (fun r => map (fun fz => map snd (matches fz)) (fuzzy_duplicates r))
          (Run.main files)
        = Some [[1%float]]).
Proof.
  intros Hc. apply group_fuzzy_spec in Hc.
  destruct Hc as (rep & others & -> & _ & _ & Hall).
  assert (Hm : forall m, In m (map (scored ratio rep) others) ->
     exists s, similarity m = Some s /\ get_similarity m = s
               /\ s = ratio (norm rep) (norm (member m))
               /\ (0 <=? s)%float = true
               /\ (FUZZY_THRESHOLD <=? s)%float = true
               /\ (s <? 1)%float = true).
  { intros m Hm. apply in_map_iff in Hm.
    destruct Hm as (o & <- & Ho).
    rewrite Forall_forall in Hall. destruct (Hall o Ho) as [_ Ha].
    unfold absorbed_by in Ha.
    apply andb_prop in Ha. destruct Ha as [_ Ha].
    apply andb_prop in Ha. destruct Ha as [Hge Hlt].
    exists (ratio (norm rep) (norm o)).
    repeat split; auto. apply threshold_nonneg. exact Hge. }
  split; [|split].
  - exists {| member := rep; similarity := None |}.
    split; [reflexivity|]. split; [reflexivity|]. exact Hm.
  - unfold report_fuzzy, choose_canonical.
    match goal with |- context [sorted_by ?k ?l] =>
      pose proof (sorted_by_nonempty _ k l) as Hne;
      destruct (sorted_by k l) as [|canon rest]
    end.
    + exfalso. apply Hne; [discriminate|reflexivity].
    + eexists. split; [reflexivity|]. cbn [matches tl].
      split; [reflexivity|].
      apply Forall_forall. intros e He. apply in_map_iff in He.
      destruct He as (m & <- & Hin). cbn [snd].
      destruct (Hm m Hin) as (s & _ & <- & _ & H0 & _ & H1).
      apply round3_unit_interval; assumption.
  - exists Examples.near_twins. vm_compute. reflexivity.
Qed.

End GroupingClaims.

(** An instance: with the first record of [small_records] as representative
    and the rest of them and a record with an empty [norm] as pool, the record
    of [b.js] is absorbed, at a score of 0.986. *)
Lemma fuzzy_pass_absorbs_witness :
  map (fun m => (path (member m), similarity m))
      (fst (fuzzy_pass Difflib.ratio FUZZY_THRESHOLD
              (hd blank_record small_records)
              (tl small_records ++ [blank_record])))
  = [(lit "lib/a.js", None); (lit "b.js", Some 0x1.f8fc7e3f1f8fcp-1%float)]
  /\ In (scored Difflib.ratio (hd blank_record small_records)
           (hd blank_record (tl small_records)))
        (tl (fst (fuzzy_pass Difflib.ratio FUZZY_THRESHOLD
                    (hd blank_record small_records)
                    (tl small_records ++ [blank_record])))).
Proof.
  split; [vm_compute; reflexivity|].
  apply (proj1 (fuzzy_pass_absorbs Difflib.ratio
                  (hd blank_record small_records)
                  (tl small_records ++ [blank_record])
                  (fun other _ He => difflib_ratio_empty _ _ He)));
    vm_compute; auto.
Defined.

(** An instance: the one fuzzy cluster of [small_records]; the score 0.9863...
    is reported as 0.986. *)
Lemma fuzzy_similarity_range_witness :
  map (map similarity) (group_fuzzy Difflib.ratio small_records FUZZY_THRESHOLD)
  = [[None; Some 0x1.f8fc7e3f1f8fcp-1%float]]
  /\ exists fr,
       report_fuzzy Run.relpath_root Run.join_root Builtins.round3
         (hd [] (group_fuzzy Difflib.ratio small_records FUZZY_THRESHOLD))
       = Some fr
       /\ map snd (matches fr) = [0x1.f8d4fdf3b645ap-1%float].
Proof.
  split; [vm_compute; reflexivity|].
  destruct (proj1 (proj2 (fuzzy_similarity_range Difflib.ratio
                            Run.relpath_root Run.join_root
                            small_records
                            (hd [] (group_fuzzy Difflib.ratio small_records
                                       FUZZY_THRESHOLD))
                            ltac:(vm_compute; left; reflexivity))))
    as (fr & Hfr & Hm & _).
  exists fr. split; [exact Hfr|]. rewrite Hm. vm_compute. reflexivity.
Defined.

(** C9 as stated fails: the two functions of [near_twins] score
    0.99966..., below 1, and the output document reports their similarity
    as 1.0. *)
Lemma reported_similarity_of_one :
  map (map similarity)
      (group_fuzzy Difflib.ratio (scan_files Run.relpath_root near_twins)
         FUZZY_THRESHOLD)
  = [[None; Some 0x1.ffd4832485dc5p-1%float]]
  /\ option_map
       (fun r => map (fun fz => map snd (matches fz)) (fuzzy_duplicates r))
       (Run.main near_twins)
     = Some [[1%float]].
Proof. split; vm_compute; reflexivity. Qed.

(** ** The canonical selector *)

Section Canonical.










Variable A : Type.
Variable key : A -> nat * str.

Lemma insert_by_In x : forall l y,
  In y (insert_by key x l) <-> y = x \/ In y l.
Proof.
  induction l as [|h l IH]; intros y; simpl.
  - intuition.
  - destruct (key_ltb (key h) (key x)); simpl; [rewrite IH|]; intuition.
Qed.

Lemma sorted_by_In l : forall y, In y (sorted_by key l) <-> In y l.
Proof.
  induction l as [|x l IH]; intros y; simpl; [tauto|].
  rewrite insert_by_In, IH. intuition.
Qed.


End Canonical.

(** An instance: [small_records] has the exact-body group of [lib/a.js] and
    [d.js]; neither record is left for the fuzzy clustering. *)
Lemma exact_groups_excluded_from_fuzzy_witness :
  map (map path) (group_exact small_records)
  = [[lit "lib/a.js"; lit "d.js"]]
  /\ map path (remaining small_records
                 (exact_norms (group_exact small_records)))
     = [lit "b.js"; lit "lib/c.js"]
  /\ ~ In (hd blank_record small_records)
          (remaining small_records (exact_norms (group_exact small_records))).
Proof.
  split; [vm_compute; reflexivity|]. split; [vm_compute; reflexivity|].
  apply (proj1 (exact_groups_excluded_from_fuzzy Difflib.ratio small_records)
           (hd [] (group_exact small_records))
           (hd blank_record small_records)
           (hd blank_record small_records)).
  - vm_compute. left. reflexivity.
  - vm_compute. left. reflexivity.
  - reflexivity.
Defined.

(** ** Substitution, one match after another *)

Section Substitution.

Variable r : regex.
Variable repl : str.

Lemma sub_aux_skip : forall n pv s,
  n <= length s ->
  exists pv', sub_aux r repl n pv s = sub_aux r repl 0 pv' (skipn n s).
Proof.
  induction n as [|n IH]; intros pv s Hn.
  - exists pv. reflexivity.
  - destruct s as [|c tl]; [simpl in Hn; lia|].
    simpl in Hn. destruct (IH (Some c) tl ltac:(lia)) as [pv' H].
    exists pv'. exact H.
Qed.

Variable F : str -> option str.
Hypothesis match_rest : forall pv s,
  option_map rest (match_here r pv s) = F s.
Hypothesis match_progress : forall s s',
  F s = Some s' -> exists c u, s = (c :: u) ++ s'.

Lemma sub_aux_rel : forall n s, length s <= n ->
  forall pv, subst_rel F repl s (sub_aux r repl 0 pv s).
Proof.
  induction n as [|n IH]; intros s Hlen pv.
  - destruct s; [|simpl in Hlen; lia]. cbn [sub_aux].
    pose proof (match_rest pv []) as Hm.
    destruct (match_here r pv []) as [st'|]; [|constructor].
    simpl in Hm. symmetry in Hm.
    destruct (match_progress _ _ Hm) as (c & u & Hc). discriminate.
  - destruct s as [|c tl].
    + apply (IH []); simpl; lia.
    + cbn [sub_aux]. pose proof (match_rest pv (c :: tl)) as Hm.
      destruct (match_here r pv (c :: tl)) as [st'|].
      * simpl in Hm. symmetry in Hm.
        destruct (match_progress _ _ Hm) as (d & u & Hs).
        assert (Hn : length (c :: tl) - length (rest st') = S (length u)).
        { rewrite Hs, length_app. cbn [length]. lia. }
        rewrite Hn.
        destruct (sub_aux_skip (length u) (Some c) tl) as [pv' Hskip].
        { inversion Hs. rewrite length_app. lia. }
        rewrite Hskip.
        assert (Htl : skipn (length u) tl = rest st').
        { inversion Hs. rewrite skipn_app, skipn_all, Nat.sub_diag. reflexivity. }
        rewrite Htl.
        apply subst_match with (s' := rest st'); [exact Hm|].
        apply IH. simpl in Hlen. inversion Hs as [[Hd Ht]].
        rewrite Ht in Hlen. rewrite length_app in Hlen. lia.
      * simpl in Hm. apply subst_copy; [symmetry; exact Hm|].
        apply IH. simpl in Hlen. lia.
Qed.

Lemma sub_rel s : subst_rel F repl s (sub r repl s).
Proof. unfold sub. apply (sub_aux_rel (length s)). lia. Qed.

End Substitution.

(** ** The three patterns of the normalizer *)

Section NormalizerPatterns.

Lemma star_greedy_spaces g : forall s pv,
  exists pv', star_greedy (fun st => Some st) ws g pv s
              = Some (MState pv' (lstrip s) g).
Proof.
  induction s as [|c tl IH]; intros pv; simpl.
  - eauto.
  - unfold ws at 1. destruct (isspace c).
    + destruct (IH (Some c)) as [pv' ->]. eauto.
    + eauto.
Qed.

Lemma match_whitespace pv s :
  option_map rest (match_here WHITESPACE pv s) = after_spaces s.
Proof.
  unfold match_here, WHITESPACE, Plus. cbn [rmatch rest prev grp].
  destruct s as [|c tl]; [reflexivity|]. cbn [after_spaces].
  unfold ws at 1. destruct (isspace c); [|reflexivity].
  destruct (star_greedy_spaces None tl (Some c)) as [pv' ->]. reflexivity.
Qed.

Lemma star_lazy_eol g : forall s pv,
  exists pv', star_lazy (rmatch Eol (fun st => Some st)) dot g pv s
              = Some (MState pv' (drop_line s) g).
Proof.
  induction s as [|c tl IH]; intros pv; cbn [star_lazy rmatch].
  - unfold at_eol. cbn [rest]. eauto.
  - unfold at_eol, dot. cbn [rest drop_line].
    destruct (chr_eqb c LF); cbn [negb].
    + eauto.
    + apply IH.
Qed.

Lemma match_line_comment pv s :
  option_map rest (match_here LINE_COMMENT pv s) = after_line_comment s.
Proof.
  unfold match_here, LINE_COMMENT.
  cbn [rmatch Lit lit list_ascii_of_string rest prev grp].
  destruct s as [|a [|b tl]]; cbn [after_line_comment].
  - reflexivity.
  - destruct (chr_eqb "/" a); reflexivity.
  - change (chr "/") with "/"%char.
    destruct (chr_eqb "/" a); [|reflexivity].
    cbn [rest andb]. destruct (chr_eqb "/" b); [|reflexivity].
    destruct (star_lazy_eol None tl (Some b)) as [pv' H].
    match goal with
    | |- context [star_lazy ?k dot None (Some b) tl] =>
        change (star_lazy k dot None (Some b) tl)
          with (star_lazy (rmatch Eol (fun st => Some st)) dot None
                  (Some b) tl)
    end.
    rewrite H. reflexivity.
Qed.

Lemma lstrip_suffix s : exists u, s = u ++ lstrip s.
Proof.
  induction s as [|c tl [u IH]]; simpl.
  - exists []. reflexivity.
  - destruct (isspace c).
    + exists (c :: u). simpl. congruence.
    + exists []. reflexivity.
Qed.

Lemma drop_line_suffix s : exists u, s = u ++ drop_line s.
Proof.
  induction s as [|c tl [u IH]]; simpl.
  - exists []. reflexivity.
  - destruct (chr_eqb c LF).
    + exists []. reflexivity.
    + exists (c :: u). simpl. congruence.
Qed.

Lemma after_spaces_progress s s' :
  after_spaces s = Some s' -> exists c u, s = (c :: u) ++ s'.
Proof.
  destruct s as [|c tl]; simpl; [discriminate|].
  destruct (isspace c); [|discriminate]. intros H. inversion H; subst.
  destruct (lstrip_suffix tl) as [u Hu]. exists c, u. simpl. congruence.
Qed.

Lemma after_line_comment_progress s s' :
  after_line_comment s = Some s' -> exists c u, s = (c :: u) ++ s'.
Proof.
  destruct s as [|a [|b tl]]; cbn [after_line_comment]; try discriminate.
  destruct (chr_eqb (chr "/") a && chr_eqb (chr "/") b); [|discriminate].
  intros H. inversion H; subst.
  destruct (drop_line_suffix tl) as [u Hu]. exists a, (b :: u).
  cbn [app]. congruence.
Qed.

(** A block comment can only start at [/*]. *)
Lemma match_block_comment_start pv s :
  match_here BLOCK_COMMENT pv s <> None ->
  exists tl, s = chr "/" :: chr "*" :: tl.
Proof.
  unfold match_here, BLOCK_COMMENT.
  cbn [rmatch Lit lit list_ascii_of_string rest prev grp].
  destruct s as [|a [|b tl]].
  - intros H. exfalso. apply H. reflexivity.
  - destruct (chr_eqb "/" a); intros H; exfalso; apply H; reflexivity.
  - destruct (chr_eqb "/" a) eqn:Ha;
      [|intros H; exfalso; apply H; reflexivity].
    cbn [rest]. destruct (chr_eqb "*" b) eqn:Hb;
      [|intros H; exfalso; apply H; reflexivity].
    apply chr_eqb_eq in Ha, Hb. subst. intros _. eauto.
Qed.

(** Where the pattern matches at no position, [re.sub] changes nothing. *)
Lemma sub_aux_no_match r repl : forall s pv,
  (forall u v pv', s = u ++ v -> match_here r pv' v = None) ->
  sub_aux r repl 0 pv s = s.
Proof.
  induction s as [|c tl IH]; intros pv H; cbn [sub_aux].
  - rewrite (H [] [] pv eq_refl). reflexivity.
  - rewrite (H [] (c :: tl) pv eq_refl). f_equal. apply IH.
    intros u v pv' ->. apply (H (c :: u) v pv'). reflexivity.
Qed.

(** Removing matches never makes a text longer, and a text of the same
    length is the same text. *)
Lemma sub_aux_remove_length r : forall s n pv,
  length (sub_aux r [] n pv s) <= length s
  /\ (n = 0 -> length (sub_aux r [] 0 pv s) = length s ->
      sub_aux r [] 0 pv s = s).
Proof.
  induction s as [|c tl IH]; intros n pv.
  - destruct n; cbn [sub_aux].
    + destruct (match_here r pv []); simpl; auto.
    + simpl. split; [lia|discriminate].
  - destruct n as [|n]; cbn [sub_aux].
    + destruct (match_here r pv (c :: tl)) as [st'|].
      * destruct (length (c :: tl) - length (rest st')) as [|m].
        -- destruct (IH 0 (Some c)) as [Hle Heq]. cbn [app length].
           split; [lia|]. intros _ Hl. f_equal. apply Heq; [reflexivity|lia].
        -- destruct (IH m (Some c)) as [Hle _]. cbn [app length].
           split; [lia|]. intros _ Hl. lia.
      * destruct (IH 0 (Some c)) as [Hle Heq]. cbn [length].
        split; [lia|]. intros _ Hl. f_equal. apply Heq; [reflexivity|lia].
    + destruct (IH n (Some c)) as [Hle _]. cbn [length].
      split; [lia|discriminate].
Qed.

End NormalizerPatterns.

(** ** Texts without certain neighbours *)

Section Chains.

Lemma chain_cons R a l :
  chain R (a :: l) = true ->
  chain R l = true
  /\ match l with b :: _ => R a b = true | [] => True end.
Proof.
  destruct l as [|b l]; cbn [chain]; [auto|].
  intros H. apply andb_prop in H. tauto.
Qed.

Lemma chain_suffix R : forall u v, chain R (u ++ v) = true -> chain R v = true.
Proof.
  induction u as [|a u IH]; intros v H; [exact H|].
  apply IH. apply (chain_cons R a (u ++ v)). exact H.
Qed.

Lemma chain_prefix R : forall u v, chain R (u ++ v) = true -> chain R u = true.
Proof.
  induction u as [|a u IH]; intros v H; [reflexivity|].
  destruct (chain_cons R a (u ++ v) H) as [Ht Hh].
  specialize (IH v Ht). destruct u as [|b u]; [reflexivity|].
  change (chain R (a :: b :: u)) with (R a b && chain R (b :: u)).
  cbn [app] in Hh. rewrite Hh, IH. reflexivity.
Qed.

Lemma single_spaced_suffix u v :
  single_spaced (u ++ v) = true -> single_spaced v = true.
Proof.
  unfold single_spaced. intros H. apply andb_prop in H. destruct H as [Ha Hc].
  rewrite forallb_app in Ha. apply andb_prop in Ha. destruct Ha as [_ Ha].
  rewrite Ha. apply (chain_suffix _ u v Hc).
Qed.

Lemma single_spaced_prefix u v :
  single_spaced (u ++ v) = true -> single_spaced u = true.
Proof.
  unfold single_spaced. intros H. apply andb_prop in H. destruct H as [Ha Hc].
  rewrite forallb_app in Ha. apply andb_prop in Ha. destruct Ha as [Ha _].
  rewrite Ha. apply (chain_prefix _ u v Hc).
Qed.

Lemma rstrip_prefix s : exists u, s = rstrip s ++ u.
Proof.
  unfold rstrip. destruct (lstrip_suffix (rev s)) as [u Hu].
  exists (rev u). rewrite <- rev_app_distr, <- Hu, rev_involutive.
  reflexivity.
Qed.

Lemma lstrip_head s c tl : lstrip s = c :: tl -> isspace c = false.
Proof.
  induction s as [|d s IH]; simpl; [discriminate|].
  destruct (isspace d) eqn:Hd; [exact IH|].
  intros H. inversion H; subst. exact Hd.
Qed.

Lemma lstrip_id s :
  match s with c :: _ => isspace c = false | [] => True end -> lstrip s = s.
Proof.
  destruct s as [|c tl]; simpl; [reflexivity|]. intros ->. reflexivity.
Qed.

(** A stripped text neither starts nor ends with white space. *)
Lemma strip_ends s :
  match strip s with c :: _ => isspace c = false | [] => True end
  /\ match rev (strip s) with c :: _ => isspace c = false | [] => True end.
Proof.
  unfold strip, rstrip. rewrite rev_involutive.
  set (y := lstrip s).
  assert (Hy : match y with c :: _ => isspace c = false | [] => True end).
  { destruct y as [|c tl] eqn:E; [exact I|]. apply (lstrip_head s c tl E). }
  split.
  - destruct (lstrip_suffix (rev y)) as [u Hu].
    apply (f_equal (@rev ascii)) in Hu.
    rewrite rev_involutive, rev_app_distr in Hu.
    destruct (rev (lstrip (rev y))) as [|c tl] eqn:E; [exact I|].
    rewrite Hu in Hy. exact Hy.
  - destruct (lstrip (rev y)) as [|c tl] eqn:E; [exact I|].
    apply (lstrip_head (rev y) c tl E).
Qed.

Lemma strip_id s :
  match s with c :: _ => isspace c = false | [] => True end ->
  match rev s with c :: _ => isspace c = false | [] => True end ->
  strip s = s.
Proof.
  intros H1 H2. unfold strip, rstrip.
  rewrite (lstrip_id s H1), (lstrip_id (rev s) H2). apply rev_involutive.
Qed.

Lemma strip_length s : length (strip s) <= length s.
Proof.
  unfold strip. destruct (rstrip_prefix (lstrip s)) as [u Hu].
  destruct (lstrip_suffix s) as [v Hv].
  apply (f_equal (@length ascii)) in Hu, Hv.
  rewrite length_app in Hu, Hv. lia.
Qed.

End Chains.

(** ** What each phase of the normalizer leaves *)

Section NormalizerPhases.

Lemma line_rel s :
  subst_rel after_line_comment [] s (sub LINE_COMMENT [] s).
Proof.
  apply sub_rel;
    [apply match_line_comment|apply after_line_comment_progress].
Qed.

Lemma spaces_rel s :
  subst_rel after_spaces [SPACE] s (sub WHITESPACE [SPACE] s).
Proof.
  apply sub_rel; [apply match_whitespace|apply after_spaces_progress].
Qed.

Lemma after_line_comment_some s s' :
  after_line_comment s = Some s' ->
  exists tl, s = chr "/" :: chr "/" :: tl.
Proof.
  destruct s as [|a [|b tl]]; cbn [after_line_comment]; try discriminate.
  destruct (chr_eqb (chr "/") a) eqn:Ha; [|discriminate].
  destruct (chr_eqb (chr "/") b) eqn:Hb; [|discriminate].
  apply chr_eqb_eq in Ha, Hb. subst. eauto.
Qed.

Lemma line_out_head s out :
  subst_rel after_line_comment [] s out ->
  forall tl, out = chr "/" :: tl -> exists tl', s = chr "/" :: tl'.
Proof.
  intros H tl Hout. destruct H as [|s s' out Hm Hr|c tl0 out Hm Hr].
  - discriminate.
  - destruct (after_line_comment_some _ _ Hm) as [tl' ->]. eauto.
  - inversion Hout; subst. eauto.
Qed.

(** After the line comments are gone, no [//] is left. *)
Lemma line_no_double_slash s out :
  subst_rel after_line_comment [] s out -> no_double_slash out = true.
Proof.
  intros H. induction H as [|s s' out Hm Hr IH|c tl out Hm Hr IH].
  - reflexivity.
  - exact IH.
  - destruct out as [|d out']; [reflexivity|].
    unfold no_double_slash in *.
    change (chain ?R (c :: d :: out')) with (R c d && chain R (d :: out')).
    rewrite IH, andb_true_r.
    destruct (chr_eqb (chr "/") c) eqn:Hc; [|reflexivity].
    destruct (chr_eqb (chr "/") d) eqn:Hd; [|reflexivity].
    apply chr_eqb_eq in Hc, Hd. subst c d.
    destruct (line_out_head _ _ Hr out' eq_refl) as [tl' ->].
    discriminate Hm.
Qed.

Lemma after_spaces_some s s' :
  after_spaces s = Some s' ->
  exists c tl, s = c :: tl /\ isspace c = true /\ s' = lstrip tl.
Proof.
  destruct s as [|c tl]; cbn [after_spaces]; [discriminate|].
  destruct (isspace c) eqn:Hc; [|discriminate].
  intros H. inversion H. eauto.
Qed.

Lemma after_spaces_none c tl :
  after_spaces (c :: tl) = None -> isspace c = false.
Proof. cbn [after_spaces]. destruct (isspace c); [discriminate|reflexivity]. Qed.

(** The first character after the white space is collapsed. *)
Lemma spaces_out_head s out :
  subst_rel after_spaces [SPACE] s out ->
  match s with
  | [] => out = []
  | c :: _ => exists out', out = (if isspace c then SPACE else c) :: out'
  end.
Proof.
  intros H. destruct H as [|s s' out Hm Hr|c tl out Hm Hr].
  - reflexivity.
  - destruct (after_spaces_some _ _ Hm) as (c & tl & -> & Hc & _).
    rewrite Hc. cbn [app]. eauto.
  - rewrite (after_spaces_none _ _ Hm). eauto.
Qed.

Lemma isspace_SPACE : isspace SPACE = true.
Proof. reflexivity. Qed.

Lemma slash_not_space : isspace (chr "/") = false.
Proof. reflexivity. Qed.

(** After white space is collapsed, it only occurs as single spaces, and
    no [//] has come about. *)
Lemma spaces_single_spaced s out :
  subst_rel after_spaces [SPACE] s out ->
  single_spaced out = true
  /\ (no_double_slash s = true -> no_double_slash out = true).
Proof.
  intros H. induction H as [|s s' out Hm Hr [IH1 IH2]|c tl out Hm Hr [IH1 IH2]].
  - split; reflexivity.
  - destruct (after_spaces_some _ _ Hm) as (c & tl & -> & Hc & ->).
    pose proof (spaces_out_head _ _ Hr) as Hh.
    cbn [app]. split.
    + unfold single_spaced in *. apply andb_prop in IH1.
      destruct IH1 as [Ha Hch]. cbn [forallb].
      rewrite Ha, isspace_SPACE. cbn [implb].
      unfold chr_eqb at 1. rewrite Ascii.eqb_refl. cbn [andb].
      destruct out as [|d out']; [reflexivity|].
      change (chain ?R (SPACE :: d :: out'))
        with (R SPACE d && chain R (d :: out')).
      rewrite Hch, andb_true_r.
      destruct (lstrip tl) as [|e tl'] eqn:El; [discriminate Hh|].
      destruct Hh as [out'' Hh].
      rewrite (lstrip_head _ _ _ El) in Hh. inversion Hh; subst.
      rewrite (lstrip_head _ _ _ El). rewrite andb_false_r. reflexivity.
    + intros Hs. unfold no_double_slash in *.
      destruct (lstrip_suffix tl) as [u Hu].
      assert (Hl : chain
                (fun a b => negb (chr_eqb (chr "/") a && chr_eqb (chr "/") b))
                (lstrip tl) = true).
      { apply (chain_suffix _ (c :: u)). cbn [app]. rewrite <- Hu. exact Hs. }
      specialize (IH2 Hl).
      destruct out as [|d out']; [reflexivity|].
      change (chain ?R (SPACE :: d :: out'))
        with (R SPACE d && chain R (d :: out')).
      rewrite IH2. reflexivity.
  - pose proof (after_spaces_none _ _ Hm) as Hc.
    pose proof (spaces_out_head _ _ Hr) as Hh. split.
    + unfold single_spaced in *. apply andb_prop in IH1.
      destruct IH1 as [Ha Hch]. cbn [forallb].
      rewrite Ha, Hc. cbn [implb andb].
      destruct out as [|d out']; [reflexivity|].
      change (chain ?R (c :: d :: out')) with (R c d && chain R (d :: out')).
      rewrite Hch, Hc. reflexivity.
    + intros Hs. unfold no_double_slash in *.
      destruct (chain_cons _ _ _ Hs) as [Ht Hcd].
      specialize (IH2 Ht).
      destruct out as [|d out']; [reflexivity|].
      change (chain ?R (c :: d :: out')) with (R c d && chain R (d :: out')).
      rewrite IH2, andb_true_r.
      destruct tl as [|e tl']; [discriminate Hh|].
      destruct Hh as [out'' Hh]. inversion Hh; subst.
      destruct (isspace e) eqn:He.
      * change (chr_eqb (chr "/") SPACE) with false.
        rewrite andb_false_r. reflexivity.
      * exact Hcd.
Qed.

(** Collapsing white space changes nothing in a single-spaced text. *)
Lemma spaces_fixed s out :
  subst_rel after_spaces [SPACE] s out ->
  single_spaced s = true -> out = s.
Proof.
  intros H. induction H as [|s s' out Hm Hr IH|c tl out Hm Hr IH]; intros Hs.
  - reflexivity.
  - destruct (after_spaces_some _ _ Hm) as (c & tl & -> & Hc & ->).
    pose proof (single_spaced_suffix [c] tl Hs) as Htl.
    unfold single_spaced in Hs. apply andb_prop in Hs.
    destruct Hs as [Ha Hch]. cbn [forallb] in Ha.
    apply andb_prop in Ha. destruct Ha as [Hsp _].
    rewrite Hc in Hsp. cbn [implb] in Hsp. apply chr_eqb_eq in Hsp. subst c.
    assert (Hl : lstrip tl = tl).
    { apply lstrip_id. destruct tl as [|e tl']; [exact I|].
      destruct (chain_cons _ _ _ Hch) as [_ Hce]. cbv beta in Hce.
      rewrite Hc in Hce. cbn [andb] in Hce.
      destruct (isspace e); [discriminate|reflexivity]. }
    rewrite Hl in IH. rewrite (IH Htl). reflexivity.
  - f_equal. apply IH. apply (single_spaced_suffix [c] tl Hs).
Qed.

Lemma spaces_length s out :
  subst_rel after_spaces [SPACE] s out -> length out <= length s.
Proof.
  intros H. induction H as [|s s' out Hm Hr IH|c tl out Hm Hr IH].
  - reflexivity.
  - destruct (after_spaces_progress _ _ Hm) as (c & u & ->).
    rewrite !length_app. simpl. lia.
  - simpl. lia.
Qed.

End NormalizerPhases.

(** ** Claims about the normalizer *)

Section NormalizerClaims.

Lemma option_map_rest_none (o : option mstate) :
  option_map rest o = None -> o = None.
Proof. destruct o; [discriminate|reflexivity]. Qed.

Lemma block_comment_fixed t :
  no_block_opener t = true -> sub BLOCK_COMMENT [] t = t.
Proof.
  intros Ht. unfold sub. apply sub_aux_no_match. intros u v pv' ->.
  destruct (match_here BLOCK_COMMENT pv' v) as [st|] eqn:Hm; [|reflexivity].
  exfalso.
  destruct (match_block_comment_start pv' v) as [tl ->];
    [rewrite Hm; discriminate|].
  apply chain_suffix in Ht. discriminate Ht.
Qed.

Lemma line_comment_fixed t :
  no_double_slash t = true -> sub LINE_COMMENT [] t = t.
Proof.
  intros Ht. unfold sub. apply sub_aux_no_match. intros u v pv' ->.
  apply option_map_rest_none. rewrite match_line_comment.
  destruct (after_line_comment v) as [s'|] eqn:Hm; [|reflexivity].
  exfalso. destruct (after_line_comment_some _ _ Hm) as [tl ->].
  apply chain_suffix in Ht. discriminate Ht.
Qed.

(** The shape of every normalized text. *)
Lemma normalize_shape s :
  single_spaced (normalize s) = true
  /\ no_double_slash (normalize s) = true
  /\ match normalize s with c :: _ => isspace c = false | [] => True end
  /\ match rev (normalize s) with c :: _ => isspace c = false | [] => True end.
Proof.
  unfold normalize, strip_comments.
  set (b := sub BLOCK_COMMENT [] s).
  set (u := sub LINE_COMMENT [] b).
  set (w := sub WHITESPACE [SPACE] u).
  pose proof (line_no_double_slash _ _ (line_rel b)) as Hu. fold u in Hu.
  destruct (spaces_single_spaced _ _ (spaces_rel u)) as [Hw1 Hw2].
  fold w in Hw1, Hw2. specialize (Hw2 Hu).
  destruct (strip_ends w) as [He1 He2].
  destruct (lstrip_suffix w) as [v Hv].
  destruct (rstrip_prefix (lstrip w)) as [v' Hv'].
  fold (strip w) in Hv'.
  repeat split; try assumption.
  - apply (single_spaced_prefix _ v'). rewrite <- Hv'.
    apply (single_spaced_suffix v). rewrite <- Hv. exact Hw1.
  - unfold no_double_slash in *. apply (chain_prefix _ _ v').
    rewrite <- Hv'. apply (chain_suffix _ v). rewrite <- Hv. exact Hw2.
Qed.

(** A text of that shape in which no block comment is left is its own
    normal form. *)
Lemma normalize_fixed t :
  single_spaced t = true -> no_double_slash t = true ->
  match t with c :: _ => isspace c = false | [] => True end ->
  match rev t with c :: _ => isspace c = false | [] => True end ->
  sub BLOCK_COMMENT [] t = t ->
  normalize t = t.
Proof.
  intros Hs Hd He1 He2 Hb. unfold normalize, strip_comments.
  rewrite Hb, (line_comment_fixed t Hd).
  rewrite (spaces_fixed _ _ (spaces_rel t) Hs).
  apply strip_id; assumption.
Qed.

Lemma normalize_length t :
  length (normalize t) <= length (sub BLOCK_COMMENT [] t).
Proof.
  unfold normalize, strip_comments.
  set (b := sub BLOCK_COMMENT [] t).
  pose proof (strip_length (sub WHITESPACE [SPACE] (sub LINE_COMMENT [] b))).
  pose proof (spaces_length _ _ (spaces_rel (sub LINE_COMMENT [] b))).
  pose proof (proj1 (sub_aux_remove_length LINE_COMMENT b 0 None)) as Hl.
  fold (sub LINE_COMMENT [] b) in Hl. lia.
Qed.

Lemma lstrip_all_space s : forallb isspace s = true -> lstrip s = [].
Proof.
  induction s as [|c tl IH]; simpl; [reflexivity|].
  intros H. apply andb_prop in H. destruct H as [-> H]. auto.
Qed.

Lemma spaces_rel_nil out : subst_rel after_spaces [SPACE] [] out -> out = [].
Proof.
  intros H. inversion H; subst; [reflexivity|].
  match goal with Hm : after_spaces [] = Some _ |- _ => discriminate Hm end.
Qed.

Lemma spaces_rel_all c tl out :
  isspace c = true -> forallb isspace tl = true ->
  subst_rel after_spaces [SPACE] (c :: tl) out -> out = [SPACE].
Proof.
  intros Hc Htl H. inversion H; subst.
  - match goal with
    | Hm : after_spaces _ = Some _, Hr : subst_rel _ _ _ _ |- _ =>
        cbn [after_spaces] in Hm;
        rewrite Hc, (lstrip_all_space tl Htl) in Hm;
        inversion Hm; subst; rewrite (spaces_rel_nil _ Hr)
    end.
    reflexivity.
  - match goal with
    | Hm : after_spaces _ = None |- _ =>
        cbn [after_spaces] in Hm; rewrite Hc in Hm; discriminate Hm
    end.
Qed.

Lemma normalize_whitespace s : forallb isspace s = true -> normalize s = [].
Proof.
  intros Hs. unfold normalize, strip_comments.
  assert (Hb : sub BLOCK_COMMENT [] s = s).
  { unfold sub. apply sub_aux_no_match. intros u v pv' ->.
    destruct (match_here BLOCK_COMMENT pv' v) as [st|] eqn:Hm; [|reflexivity].
    exfalso.
    destruct (match_block_comment_start pv' v) as [tl ->];
      [rewrite Hm; discriminate|].
    rewrite forallb_app in Hs. apply andb_prop in Hs. destruct Hs as [_ Hs].
    cbn [forallb] in Hs. rewrite slash_not_space in Hs. discriminate Hs. }
  assert (Hl : sub LINE_COMMENT [] s = s).
  { unfold sub. apply sub_aux_no_match. intros u v pv' ->.
    apply option_map_rest_none. rewrite match_line_comment.
    destruct (after_line_comment v) as [s'|] eqn:Hm; [|reflexivity].
    exfalso. destruct (after_line_comment_some _ _ Hm) as [tl ->].
    rewrite forallb_app in Hs. apply andb_prop in Hs. destruct Hs as [_ Hs].
    cbn [forallb] in Hs. rewrite slash_not_space in Hs. discriminate Hs. }
  rewrite Hb, Hl.
  pose proof (spaces_rel s) as Hr.
  destruct s as [|c tl].
  - rewrite (spaces_rel_nil _ Hr). reflexivity.
  - cbn [forallb] in Hs. apply andb_prop in Hs. destruct Hs as [Hc Htl].
    rewrite (spaces_rel_all c tl _ Hc Htl Hr). reflexivity.
Qed.

(** C2, as amended: normalizing is a function of its input; every input
    that consists of white space only, the empty one included, normalizes
    to the empty text; and normalizing a normalized text [normalize s]
    again returns it unchanged exactly when no block comment is left in it,
    which is the case whenever it contains no [/*]. *)
Theorem normalize_idempotent_unless_comment_left :
  (forall s, normalize (normalize s) = normalize s
             <-> sub BLOCK_COMMENT [] (normalize s) = normalize s)
  /\ (forall s, no_block_opener (normalize s) = true ->
                normalize (normalize s) = normalize s)
  /\ (forall s1 s2, s1 = s2 -> normalize s1 = normalize s2)
  /\ (forall s, forallb isspace s = true -> normalize s = []).
Proof.
  assert (Hfix : forall s,
    sub BLOCK_COMMENT [] (normalize s) = normalize s ->
    normalize (normalize s) = normalize s).
  { intros s Hb. destruct (normalize_shape s) as (H1 & H2 & H3 & H4).
    apply normalize_fixed; assumption. }
  split; [|split; [|split]].
  - intros s. split; [|apply Hfix].
    intros Hn.
    pose proof (normalize_length (normalize s)) as Hlen.
    rewrite Hn in Hlen.
    destruct (sub_aux_remove_length BLOCK_COMMENT (normalize s) 0 None)
      as [Hle Heq].
    fold (sub BLOCK_COMMENT [] (normalize s)) in Hle, Heq.
    apply Heq; [reflexivity|lia].
  - intros s Ho. apply Hfix. apply block_comment_fixed. exact Ho.
  - intros s1 s2 ->. reflexivity.
  - apply normalize_whitespace.
Qed.

(** C2 as stated fails: a block comment removed from between [/] and
    [**/] leaves the text [/**/], which the second normalization removes
    entirely. *)
Lemma normalize_not_idempotent :
  normalize (lit "//**/**/") = lit "/**/"
  /\ normalize (normalize (lit "//**/**/")) = [].
Proof. split; vm_compute; reflexivity. Qed.

(** An instance: a line with both kinds of comment. *)
Lemma normalize_idempotent_unless_comment_left_witness :
  no_block_opener (normalize (lit " a  =  b /* c */ // d")) = true
  /\ normalize (lit " a  =  b /* c */ // d") = lit "a = b"
  /\ normalize (normalize (lit " a  =  b /* c */ // d"))
     = normalize (lit " a  =  b /* c */ // d").
Proof.
  split; [vm_compute; reflexivity|]. split; [vm_compute; reflexivity|].
  apply (proj1 (proj2 normalize_idempotent_unless_comment_left)).
  vm_compute. reflexivity.
Defined.

End NormalizerClaims.

(** * Further properties of the code *)

(** ** Dictionaries of lists *)

Section Buckets.
Variable A : Type.
Variable key : A -> str.

Lemma add_key_In ks k x : In x (add_key ks k) <-> In x ks \/ x = k.
Proof.
  unfold add_key. destruct (existsb (str_eqb k) ks) eqn:E.
  - split; [auto|]. intros [H| ->]; [exact H|].
    apply existsb_exists in E. destruct E as (y & Hy & Hk).
    apply str_eqb_eq in Hk. subst y. exact Hy.
  - rewrite in_app_iff. simpl. intuition.
Qed.

Lemma add_key_NoDup ks k : NoDup ks -> NoDup (add_key ks k).
Proof.
  intros H. unfold add_key. destruct (existsb (str_eqb k) ks) eqn:E; [exact H|].
  apply NoDup_app; [exact H|constructor; [simpl; tauto|constructor]|].
  intros x Hx [Hk|[]]. subst x.
  assert (existsb (str_eqb k) ks = true); [|congruence].
  apply existsb_exists. exists k. split; [exact Hx|apply str_eqb_refl].
Qed.

Lemma fold_add_key_In l : forall ks x,
  In x (fold_left add_key l ks) <-> In x ks \/ In x l.
Proof.
  induction l as [|k l IH]; intros ks x; simpl; [tauto|].
  rewrite IH, add_key_In. intuition.
Qed.

Lemma fold_add_key_NoDup l : forall ks,
  NoDup ks -> NoDup (fold_left add_key l ks).
Proof.
  induction l as [|k l IH]; intros ks H; simpl; [exact H|].
  apply IH. apply add_key_NoDup. exact H.
Qed.

Lemma first_keys_In l x : In x (first_keys l) <-> In x l.
Proof. unfold first_keys. rewrite fold_add_key_In. simpl. tauto. Qed.

Lemma first_keys_NoDup l : NoDup (first_keys l).
Proof. apply fold_add_key_NoDup. constructor. Qed.

Lemma bucket_snoc k seen f :
  bucket key k (seen ++ [f])
  = bucket key k seen ++ (if str_eqb (key f) k then [f] else []).
Proof. unfold bucket. rewrite filter_app. reflexivity. Qed.

Lemma bucket_absent k seen :
  ~ In k (map key seen) -> bucket key k seen = [].
Proof.
  unfold bucket. induction seen as [|f seen IH]; simpl; [reflexivity|].
  intros H. destruct (str_eqb (key f) k) eqn:E.
  - apply str_eqb_eq in E. exfalso. apply H. left. exact E.
  - apply IH. intros Hin. apply H. right. exact Hin.
Qed.

(** Appending [f] to a dictionary that holds the buckets of [seen] gives
    the buckets of [seen ++ [f]]. *)
Lemma dict_append_buckets seen f : forall ks,
  NoDup ks ->
  (~ In (key f) ks -> ~ In (key f) (map key seen)) ->
  dict_append (key f) f (map (fun k => (k, bucket key k seen)) ks)
  = map (fun k => (k, bucket key k (seen ++ [f]))) (add_key ks (key f)).
Proof.
  induction ks as [|k ks IH]; intros Hnd Habs.
  - unfold add_key. simpl. rewrite bucket_snoc, str_eqb_refl.
    rewrite (bucket_absent _ _ (Habs (fun x => x))). reflexivity.
  - inversion Hnd as [|k' ks' Hk Hnd']; subst.
    cbn [map dict_append]. destruct (str_eqb k (key f)) eqn:E.
    + apply str_eqb_eq in E. subst k.
      unfold add_key. cbn [existsb]. rewrite str_eqb_refl. cbn [orb map].
      rewrite bucket_snoc, str_eqb_refl. f_equal.
      apply map_ext_in. intros k Hin. rewrite bucket_snoc.
      destruct (str_eqb (key f) k) eqn:E'; [|rewrite app_nil_r; reflexivity].
      apply str_eqb_eq in E'. subst k. contradiction.
    + assert (Hne : key f <> k)
        by (intros <-; rewrite str_eqb_refl in E; discriminate).
      rewrite IH; [|exact Hnd'|].
      * unfold add_key. cbn [existsb].
        assert (E2 : str_eqb (key f) k = false).
        { destruct (str_eqb (key f) k) eqn:E'; [|reflexivity].
          apply str_eqb_eq in E'. contradiction. }
        rewrite E2. cbn [orb].
        destruct (existsb (str_eqb (key f)) ks); cbn [map app];
          rewrite bucket_snoc, E2, app_nil_r; reflexivity.
      * intros Hn. apply Habs. intros [Hk'|Hk']; [congruence|contradiction].
Qed.

(** The dictionary a loop of [d[key(f)].append(f)] builds. *)
Lemma fold_dict_append_buckets l : forall seen,
  fold_left (fun d f => dict_append (key f) f d) l
    (map (fun k => (k, bucket key k seen)) (first_keys (map key seen)))
  = map (fun k => (k, bucket key k (seen ++ l)))
        (first_keys (map key (seen ++ l))).
Proof.
  induction l as [|f l IH]; intros seen; cbn [fold_left].
  - rewrite app_nil_r. reflexivity.
  - rewrite dict_append_buckets.
    + replace (add_key (first_keys (map key seen)) (key f))
        with (first_keys (map key (seen ++ [f]))).
      * rewrite IH, <- app_assoc. reflexivity.
      * unfold first_keys. rewrite map_app, fold_left_app. reflexivity.
    + apply first_keys_NoDup.
    + intros Hn Hin. apply Hn. apply first_keys_In. exact Hin.
Qed.

Lemma dict_buckets l :
  fold_left (fun d f => dict_append (key f) f d) l []
  = map (fun k => (k, bucket key k l)) (first_keys (map key l)).
Proof. apply (fold_dict_append_buckets l []). Qed.

End Buckets.

(** ** Exact-body and identical-named groups *)

Section KeyedGroups.

Lemma NoDup_map_on (A B : Type) (f : A -> B) (l : list A) :
  NoDup l ->
  (forall x y, In x l -> In y l -> f x = f y -> x = y) ->
  NoDup (map f l).
Proof.
  induction l as [|a l IH]; intros Hnd Hinj; simpl; [constructor|].
  inversion Hnd as [|a' l' Ha Hnd']; subst. constructor.
  - intros Hin. apply in_map_iff in Hin. destruct Hin as (x & Hx & Hin).
    assert (x = a) by (apply Hinj; simpl; auto). subst x. contradiction.
  - apply IH; [exact Hnd'|]. intros x y Hx Hy. apply Hinj; simpl; auto.
Qed.

Lemma bucket_In (A : Type) (key : A -> str) k l f :
  In f (bucket key k l) <-> In f l /\ key f = k.
Proof.
  unfold bucket. rewrite filter_In. rewrite str_eqb_eq. tauto.
Qed.

Lemma filter_map_comm (A B : Type) (h : A -> B) (c : B -> bool) (l : list A) :
  filter c (map h l) = map h (filter (fun x => c (h x)) l).
Proof.
  induction l as [|x l IH]; simpl; [reflexivity|].
  destruct (c (h x)); simpl; rewrite IH; reflexivity.
Qed.

(** The groups a dictionary of buckets yields under a test on its
    entries. *)
Lemma groups_of_buckets (A : Type) (key : A -> str)
    (c : str -> list A -> bool) (l : list A) :
  fold_left
    (fun groups (entry : str * list A) =>
       let (k, items) := entry in
       if c k items then groups ++ [items] else groups)
    (fold_left (fun d f => dict_append (key f) f d) l []) []
  = map (fun k => bucket key k l)
        (filter (fun k => c k (bucket key k l)) (first_keys (map key l))).
Proof.
  rewrite dict_buckets.
  rewrite (fold_left_append_if _ _ _ (fun e => c (fst e) (snd e)) snd)
    by (intros acc [k items]; reflexivity).
  cbn [app]. rewrite filter_map_comm, map_map. reflexivity.
Qed.

Lemma group_exact_eq funcs :
  group_exact funcs
  = map (fun k => bucket norm k funcs)
        (filter (fun k => (1 <? length (bucket norm k funcs)) && nonempty k)
                (first_keys (map norm funcs))).
Proof.
  unfold group_exact.
  apply (groups_of_buckets FunctionRecord norm
           (fun k items => (1 <? length items) && nonempty k)).
Qed.

(** X1: [group_exact] returns, in the order in which the non-empty norms
    first occur, the list of all records with that norm, in scan order, for
    every norm that at least two records have; no group comes twice, and a
    record is in a group exactly when its norm is not empty and another
    record shares it. *)
Theorem group_exact_buckets funcs :
  group_exact funcs
  = map (fun k => bucket norm k funcs)
        (filter (fun k => (1 <? length (bucket norm k funcs)) && nonempty k)
                (first_keys (map norm funcs)))
  /\ NoDup (group_exact funcs)
  /\ (forall f, (exists g, In g (group_exact funcs) /\ In f g)
                <-> In f funcs /\ norm f <> []
                    /\ 2 <= length (bucket norm (norm f) funcs)).
Proof.
  pose proof (group_exact_eq funcs) as E.
  split; [exact E|]. split.
  - rewrite E. apply NoDup_map_on.
    + apply NoDup_filter. apply first_keys_NoDup.
    + intros x y Hx Hy Hb. apply filter_In in Hx. destruct Hx as [_ Hx].
      apply andb_prop in Hx. destruct Hx as [Hx _]. apply Nat.ltb_lt in Hx.
      destruct (bucket norm x funcs) as [|f b] eqn:Eb; [simpl in Hx; lia|].
      assert (H1 : In f (bucket norm x funcs)) by (rewrite Eb; left; reflexivity).
      assert (H2 : In f (bucket norm y funcs)) by (rewrite <- Hb; left; reflexivity).
      apply bucket_In in H1, H2. destruct H1 as [_ <-], H2 as [_ <-].
      reflexivity.
  - intros f. rewrite E. split.
    + intros (g & Hg & Hf). apply in_map_iff in Hg.
      destruct Hg as (k & <- & Hk). apply filter_In in Hk.
      destruct Hk as [_ Hk]. apply andb_prop in Hk. destruct Hk as [Hlen Hne].
      apply Nat.ltb_lt in Hlen. apply bucket_In in Hf. destruct Hf as [Hf <-].
      split; [exact Hf|]. split; [|lia].
      destruct (norm f); [discriminate|congruence].
    + intros (Hf & Hne & Hlen). exists (bucket norm (norm f) funcs). split.
      * apply in_map_iff. exists (norm f). split; [reflexivity|].
        apply filter_In. split.
        -- apply first_keys_In. apply in_map. exact Hf.
        -- apply andb_true_intro. split; [apply Nat.ltb_lt; lia|].
           destruct (norm f); [congruence|reflexivity].
      * apply bucket_In. auto.
Qed.

Lemma by_name_filter funcs : forall d,
  fold_left
    (fun d f =>
       match name f with
       | Some n => if truthy (name f) then dict_append n f d else d
       | None => d
       end) funcs d
  = fold_left (fun d f => dict_append (name_key f) f d)
      (filter (fun f => truthy (name f)) funcs) d.
Proof.
  induction funcs as [|f funcs IH]; intros d; cbn [fold_left filter];
    [reflexivity|].
  rewrite IH.
  destruct (name f) as [[|c n]|] eqn:En; cbn [truthy fold_left];
    try reflexivity.
  unfold name_key. rewrite En. reflexivity.
Qed.

Lemma two_distinct (l : list str) :
  1 < length (nodup str_eq_dec l) ->
  exists a b, In a l /\ In b l /\ a <> b.
Proof.
  intros H. pose proof (NoDup_nodup str_eq_dec l) as Hnd.
  destruct (nodup str_eq_dec l) as [|a [|b r]] eqn:E;
    try (simpl in H; lia).
  exists a, b. repeat split.
  - apply (nodup_In str_eq_dec). rewrite E. simpl. auto.
  - apply (nodup_In str_eq_dec). rewrite E. simpl. auto.
  - inversion Hnd as [|x l' Hx _]; subst. intros ->. apply Hx. left.
    reflexivity.
Qed.

Lemma group_identical_named_eq funcs :
  group_identical_named funcs
  = map (fun n => bucket name_key n
                    (filter (fun f => truthy (name f)) funcs))
        (filter
           (fun n =>
              (1 <? length (bucket name_key n
                              (filter (fun f => truthy (name f)) funcs)))
              && (1 <? distinct_bodies
                         (bucket name_key n
                            (filter (fun f => truthy (name f)) funcs))))
           (first_keys
              (map name_key (filter (fun f => truthy (name f)) funcs)))).
Proof.
  unfold group_identical_named. rewrite by_name_filter.
  apply (groups_of_buckets FunctionRecord name_key
           (fun _ items => (1 <? length items)
                           && (1 <? distinct_bodies items))).
Qed.

(** X2: [group_identical_named] files the records that have a name under
    it and returns, in the order in which the names first occur, the list
    of all records with that name, for every name that at least two records
    have with at least two different norms.  So every group has two members
    or more, all of the input and of one non-empty name, two of them with
    different norms. *)
Theorem group_identical_named_buckets funcs :
  group_identical_named funcs
  = map (fun n => bucket name_key n
                    (filter (fun f => truthy (name f)) funcs))
        (filter
           (fun n =>
              (1 <? length (bucket name_key n
                              (filter (fun f => truthy (name f)) funcs)))
              && (1 <? distinct_bodies
                         (bucket name_key n
                            (filter (fun f => truthy (name f)) funcs))))
           (first_keys
              (map name_key (filter (fun f => truthy (name f)) funcs))))
  /\ Forall
       (fun g =>
          2 <= length g
          /\ (exists n, n <> []
                /\ forall f, In f g -> In f funcs /\ name f = Some n)
          /\ (exists f1 f2, In f1 g /\ In f2 g /\ norm f1 <> norm f2))
       (group_identical_named funcs).
Proof.
  pose proof (group_identical_named_eq funcs) as E.
  split; [exact E|].
  set (named := filter (fun f => truthy (name f)) funcs) in *.
  apply Forall_forall.
  intros g Hg. rewrite E in Hg. apply in_map_iff in Hg.
  destruct Hg as (n & <- & Hn). apply filter_In in Hn. destruct Hn as [_ Hn].
  apply andb_prop in Hn. destruct Hn as [Hlen Hd].
  apply Nat.ltb_lt in Hlen, Hd.
  assert (Hmem : forall f, In f (bucket name_key n named) ->
            In f funcs /\ name f = Some n /\ n <> []).
  { intros f Hf. apply bucket_In in Hf. destruct Hf as [Hf Hk].
    unfold named in Hf. apply filter_In in Hf. destruct Hf as [Hf Ht].
    unfold name_key in Hk. destruct (name f) as [[|c m]|]; try discriminate.
    subst n. repeat split; [exact Hf|discriminate]. }
  split; [lia|]. split.
  - destruct (bucket name_key n named) as [|f0 b] eqn:Eb; [simpl in Hlen; lia|].
    destruct (Hmem f0 (or_introl eq_refl)) as (_ & _ & Hne).
    exists n. split; [exact Hne|]. intros f Hf.
    destruct (Hmem f Hf) as (H1 & H2 & _). auto.
  - unfold distinct_bodies in Hd.
    destruct (two_distinct _ Hd) as (a & b & Ha & Hb & Hab).
    apply in_map_iff in Ha, Hb.
    destruct Ha as (f1 & <- & H1), Hb as (f2 & <- & H2).
    exists f1, f2. auto.
Qed.

End KeyedGroups.

(** ** The clusters of the fuzzy grouping, one representative at a time *)

Section FuzzyClusters.
Variable ratio : str -> str -> float.

Lemma list_remove_first x : forall pre tl,
  (forall y, In y pre -> y <> x) ->
  list_remove x (pre ++ x :: tl) = pre ++ tl.
Proof.
  induction pre as [|y pre IH]; intros tl Hpre; cbn [app list_remove].
  - destruct (FunctionRecord_eq_dec x x); [reflexivity|congruence].
  - destruct (FunctionRecord_eq_dec y x) as [e|_].
    + exfalso. apply (Hpre y); [left; reflexivity|exact e].
    + rewrite IH; [reflexivity|]. intros z Hz. apply Hpre. right. exact Hz.
Qed.

(** [for r in to_remove: unused.remove(r)] takes out exactly the records
    that were put on [to_remove], also when records are repeated. *)
Lemma remove_filtered (P : FunctionRecord -> bool) : forall tl pre,
  (forall y, In y pre -> P y = false) ->
  fold_left (fun u r => list_remove r u) (filter P tl) (pre ++ tl)
  = pre ++ filter (fun x => negb (P x)) tl.
Proof.
  induction tl as [|x tl IH]; intros pre Hpre; cbn [filter fold_left].
  - reflexivity.
  - destruct (P x) eqn:Px; cbn [negb fold_left].
    + rewrite list_remove_first; [apply IH; exact Hpre|].
      intros y Hy E. subst y. rewrite (Hpre _ Hy) in Px. discriminate.
    + replace (pre ++ x :: tl) with ((pre ++ [x]) ++ tl)
        by (rewrite <- app_assoc; reflexivity).
      rewrite IH.
      * rewrite <- app_assoc. reflexivity.
      * intros y Hy. apply in_app_or in Hy. destruct Hy as [Hy|[<-|[]]];
          [apply Hpre; exact Hy|exact Px].
Qed.

Lemma group_fuzzy_loop_acc threshold : forall fuel unused groups,
  group_fuzzy_loop ratio fuel threshold unused groups
  = groups ++ group_fuzzy_loop ratio fuel threshold unused [].
Proof.
  induction fuel as [|fuel IH]; intros unused groups; cbn [group_fuzzy_loop].
  - rewrite app_nil_r. reflexivity.
  - destruct unused as [|rep unused]; [rewrite app_nil_r; reflexivity|].
    destruct (fuzzy_pass ratio threshold rep unused) as [cluster to_remove].
    rewrite IH. rewrite (IH _ (if 1 <? length cluster then _ else _)).
    destruct (1 <? length cluster); cbn [app];
      rewrite <- ?app_assoc; reflexivity.
Qed.

Lemma filter_nil_existsb (A : Type) (P : A -> bool) (l : list A) :
  (1 <? length (A:=A) (filter P l) + 1) = existsb P l.
Proof.
  induction l as [|x l IH]; cbn [filter existsb]; [reflexivity|].
  destruct (P x); cbn [orb length]; [|exact IH].
  apply Nat.ltb_lt. lia.
Qed.

Lemma group_fuzzy_step threshold rep unused :
  group_fuzzy ratio (rep :: unused) threshold
  = (if existsb (absorbed_by ratio threshold rep) unused
     then [{| member := rep; similarity := None |}
             :: map (scored ratio rep)
                    (filter (absorbed_by ratio threshold rep) unused)]
     else [])
    ++ group_fuzzy ratio
         (filter (fun o => negb (absorbed_by ratio threshold rep o)) unused)
         threshold.
Proof.
  unfold group_fuzzy. cbn [length group_fuzzy_loop].
  rewrite fuzzy_pass_eq.
  pose proof (remove_filtered (absorbed_by ratio threshold rep) unused []
                (fun y (h : In y []) => match h with end)) as Hrm.
  cbn [app] in Hrm. rewrite Hrm. clear Hrm.
  rewrite group_fuzzy_loop_acc.
  cbn [length]. rewrite length_map.
  replace (S (length (filter (absorbed_by ratio threshold rep) unused)))
    with (length (filter (absorbed_by ratio threshold rep) unused) + 1)
    by lia.
  rewrite filter_nil_existsb.
  rewrite (group_fuzzy_loop_fuel ratio threshold (length unused)
             (length (filter (fun o => negb (absorbed_by ratio threshold rep o))
                             unused)));
    [|apply filter_length_le|lia].
  destruct (existsb (absorbed_by ratio threshold rep) unused); reflexivity.
Qed.

(** X3: the list of clusters [group_fuzzy] returns obeys a recursion on its
    input: the first record is the first representative; when it
    absorbs some later record, its cluster (itself, then every later record
    it absorbs, each with its score) comes first; the rest of the result is
    the grouping of the later records it did not absorb. *)
Theorem group_fuzzy_unfold threshold :
  group_fuzzy ratio [] threshold = []
  /\ forall rep unused,
       group_fuzzy ratio (rep :: unused) threshold
       = (if existsb (absorbed_by ratio threshold rep) unused
          then [{| member := rep; similarity := None |}
                  :: map (scored ratio rep)
                         (filter (absorbed_by ratio threshold rep) unused)]
          else [])
         ++ group_fuzzy ratio
              (filter (fun o => negb (absorbed_by ratio threshold rep o))
                      unused)
              threshold.
Proof.
  split; [reflexivity|]. intros rep unused. apply group_fuzzy_step.
Qed.

Lemma count_occ_filter_split (P : FunctionRecord -> bool) f l :
  count_occ FunctionRecord_eq_dec (filter P l) f
  + count_occ FunctionRecord_eq_dec (filter (fun x => negb (P x)) l) f
  = count_occ FunctionRecord_eq_dec l f.
Proof.
  induction l as [|x l IH]; cbn [filter count_occ]; [reflexivity|].
  destruct (P x); cbn [negb count_occ];
    destruct (FunctionRecord_eq_dec x f); lia.
Qed.

Lemma members_scored rep l : map member (map (scored ratio rep) l) = l.
Proof.
  rewrite map_map. cbn [scored member]. apply map_id.
Qed.

Lemma group_fuzzy_count threshold f : forall n funcs,
  length funcs <= n ->
  count_occ FunctionRecord_eq_dec
    (map member (concat (group_fuzzy ratio funcs threshold))) f
  <= count_occ FunctionRecord_eq_dec funcs f.
Proof.
  induction n as [|n IH]; intros funcs Hn.
  - destruct funcs; [|simpl in Hn; lia]. cbn. lia.
  - destruct funcs as [|rep unused]; [cbn; lia|].
    rewrite group_fuzzy_step.
    rewrite concat_app, map_app, count_occ_app.
    assert (Hrest : length
              (filter (fun o => negb (absorbed_by ratio threshold rep o))
                      unused) <= n).
    { etransitivity; [apply filter_length_le|]. simpl in Hn. lia. }
    specialize (IH _ Hrest).
    pose proof (count_occ_filter_split
                  (absorbed_by ratio threshold rep) f unused) as Hsplit.
    destruct (existsb (absorbed_by ratio threshold rep) unused).
    + cbn [concat]. rewrite app_nil_r. cbn [map member].
      rewrite members_scored. cbn [count_occ].
      destruct (FunctionRecord_eq_dec rep f); lia.
    + cbn [concat map count_occ].
      destruct (FunctionRecord_eq_dec rep f); lia.
Qed.

(** X4: no record is clustered more often than it occurs in the input of
    [group_fuzzy]: over all clusters together a record is a member at most
    as many times as the input holds it, so when the input holds no record
    twice the clusters are pairwise disjoint. *)
Theorem group_fuzzy_members_once threshold funcs :
  (forall f,
     count_occ FunctionRecord_eq_dec
       (map member (concat (group_fuzzy ratio funcs threshold))) f
     <= count_occ FunctionRecord_eq_dec funcs f)
  /\ (NoDup funcs ->
      NoDup (map member (concat (group_fuzzy ratio funcs threshold)))).
Proof.
  assert (H : forall f,
     count_occ FunctionRecord_eq_dec
       (map member (concat (group_fuzzy ratio funcs threshold))) f
     <= count_occ FunctionRecord_eq_dec funcs f)
    by (intros f; apply (group_fuzzy_count threshold f (length funcs));
        lia).
  split; [exact H|].
  intros Hnd. apply (NoDup_count_occ FunctionRecord_eq_dec). intros f.
  rewrite (NoDup_count_occ FunctionRecord_eq_dec) in Hnd.
  specialize (H f). specialize (Hnd f). lia.
Qed.

(** X5: every cluster of [group_fuzzy] has two members or more; its first
    member is the representative and carries no score, every other member
    carries one; and every member is a record of the input whose normalized
    body is not empty. *)
Theorem group_fuzzy_cluster_shape threshold funcs :
  Forall
    (fun c =>
       2 <= length c
       /\ (exists rep tl, c = rep :: tl /\ similarity rep = None
                          /\ Forall (fun m => similarity m <> None) tl)
       /\ Forall (fun m => In (member m) funcs /\ norm (member m) <> []) c)
    (group_fuzzy ratio funcs threshold).
Proof.
  apply Forall_forall. intros c H. apply group_fuzzy_spec in H.
  destruct H as (rep & others & -> & Hne & Hrep & Hall).
  destruct others as [|o others]; [congruence|].
  assert (Hr : norm rep <> []).
  { inversion Hall as [|? ? [_ Ha] _]; subst. unfold absorbed_by in Ha.
    destruct (norm rep); [discriminate|congruence]. }
  split; [cbn [length map]; lia|]. split.
  - eexists _, _. split; [reflexivity|]. split; [reflexivity|].
    apply Forall_forall. intros m Hm. apply in_map_iff in Hm.
    destruct Hm as (x & <- & _). discriminate.
  - constructor; [cbn [member]; auto|].
    apply Forall_forall. intros m Hm. apply in_map_iff in Hm.
    destruct Hm as (x & <- & Hx). cbn [scored member].
    rewrite Forall_forall in Hall. destruct (Hall x Hx) as [Hin Ha].
    split; [exact Hin|]. unfold absorbed_by in Ha.
    destruct (norm rep); [discriminate|].
    destruct (norm x); [discriminate|congruence].
Qed.

End FuzzyClusters.

(** ** What a record of the extractor holds *)

Section Records.
Variable relpath_root : str -> str.

Lemma count_app c a b : count c (a ++ b) = count c a + count c b.
Proof. unfold count. rewrite filter_app, length_app. reflexivity. Qed.

Lemma brace_balance_snoc pre l :
  brace_balance (pre ++ [l])
  = (brace_balance pre + Z.of_nat (count (chr "{") l)
     - Z.of_nat (count (chr "}") l))%Z.
Proof.
  unfold brace_balance. rewrite concat_app. cbn [concat].
  rewrite app_nil_r, !count_app. lia.
Qed.

Lemma seen_open_snoc pre l :
  seen_open (pre ++ [l])
  = if contains (chr "{") l then true else seen_open pre.
Proof.
  unfold seen_open. rewrite existsb_app. cbn [existsb].
  destruct (contains (chr "{") l), (existsb (contains (chr "{")) pre);
    reflexivity.
Qed.

(** The inner loop stops after the first line at which the lines read so
    far are balanced, or at the end of the lines. *)
Lemma scan_braces_extent : forall ls pre j,
  exists n,
    scan_braces ls j (brace_balance pre) (seen_open pre) = j + n
    /\ n <= length ls
    /\ (forall k, 1 <= k < n -> balanced (pre ++ firstn k ls) = false)
    /\ (n < length ls -> balanced (pre ++ firstn n ls) = true).
Proof.
  induction ls as [|l tl IH]; intros pre j; cbn [scan_braces].
  - exists 0. cbn [length].
    split; [lia|]. split; [lia|]. split; intros; lia.
  - rewrite <- brace_balance_snoc, <- seen_open_snoc.
    fold (balanced (pre ++ [l])).
    destruct (balanced (pre ++ [l])) eqn:Hb.
    + exists 1. cbn [length firstn].
      split; [lia|]. split; [lia|]. split; [intros; lia|].
      intros _. exact Hb.
    + destruct (IH (pre ++ [l]) (j + 1)) as (n & He & Hn & Hk & Hc).
      exists (S n). cbn [length].
      split; [lia|]. split; [lia|]. split.
      * intros k Hk'. destruct k as [|k]; [lia|]. cbn [firstn].
        destruct k as [|k]; [exact Hb|].
        replace (pre ++ l :: firstn (S k) tl)
          with ((pre ++ [l]) ++ firstn (S k) tl)
          by (rewrite <- app_assoc; reflexivity).
        apply Hk. lia.
      * intros Hlt. cbn [firstn].
        replace (pre ++ l :: firstn n tl) with ((pre ++ [l]) ++ firstn n tl)
          by (rewrite <- app_assoc; reflexivity).
        apply Hc. lia.
Qed.

Lemma record_at_extent lines file j nm :
  j < length lines ->
  let r := record_at relpath_root lines file j nm in
  let body := slice (start_line r - 1) (end_line r) lines in
  length body = end_line r - start_line r + 1
  /\ (forall k, 1 <= k < length body -> balanced (firstn k body) = false)
  /\ (end_line r < length lines -> balanced body = true).
Proof.
  intros Hj. cbn zeta. cbn [record_at start_line end_line].
  destruct (scan_braces_extent (skipn j lines) [] j) as (n & He & Hn & Hk & Hc).
  change (brace_balance []) with 0%Z in He.
  change (seen_open []) with false in He.
  assert (Hpos : 1 <= n).
  { destruct (scan_braces_bounds (skipn j lines) j 0%Z false) as [_ Hlt].
    rewrite He in Hlt.
    assert (skipn j lines <> []).
    { intros E. apply (f_equal (@length str)) in E.
      rewrite length_skipn in E. cbn [length] in E. lia. }
    specialize (Hlt H). lia. }
  rewrite He. rewrite length_skipn in Hn, Hc.
  replace (j + 1 - 1) with j by lia.
  unfold slice. replace (j + n - j) with n by lia.
  assert (Hlen : length (firstn n (skipn j lines)) = n)
    by (rewrite length_firstn, length_skipn; lia).
  rewrite Hlen. split; [lia|]. split.
  - intros k Hk'. rewrite firstn_firstn.
    replace (Nat.min k n) with k by lia. apply (Hk k). lia.
  - intros Hlt. apply Hc. lia.
Qed.

(** X6: every record of [extract_functions] describes a run of lines of
    the text: its path is the relative path of the file; the line at
    [start_line] matched a pattern, which captured the record's name; the
    record ends within the text; its code is the lines from [start_line] to
    [end_line], joined by newlines, and its norm is the normal form of that
    code. *)
Theorem extract_functions_record_contents text file :
  Forall
    (fun r =>
       path r = relpath_root file
       /\ 1 <= start_line r
       /\ end_line r <= length (splitlines text)
       /\ scan_patterns FUNC_PATTERNS
            (nth (start_line r - 1) (splitlines text) [])
          = Matched (name r)
       /\ code r
          = join [LF] (slice (start_line r - 1) (end_line r)
                             (splitlines text))
       /\ length (slice (start_line r - 1) (end_line r) (splitlines text))
          = end_line r - start_line r + 1
       /\ norm r = normalize (code r))
    (extract_functions relpath_root text file).
Proof.
  apply (emitted_Forall relpath_root (splitlines text) file) with (i := 0);
    [|apply extract_functions_emitted].
  intros j nm Hj Hs.
  destruct (record_at_lines relpath_root (splitlines text) file j nm Hj)
    as (H1 & H2 & H3).
  destruct (record_at_extent (splitlines text) file j nm Hj) as (Hlen & _).
  split; [reflexivity|]. split; [lia|]. split; [exact H3|].
  split; [|split; [|split; [exact Hlen|reflexivity]]].
  - cbn [record_at start_line name]. replace (j + 1 - 1) with j by lia.
    exact Hs.
  - cbn [record_at start_line end_line code].
    replace (j + 1 - 1) with j by lia. reflexivity.
Qed.

(** X7: a record of [extract_functions] ends after the first of its lines
    at which an opening brace has been seen and the closing braces have
    caught up with the opening ones: no shorter run of its lines is
    balanced, and a record that ends before the last line of the text is
    balanced; without such a line the record runs to the end of the
    text. *)
Theorem extract_functions_extent text file :
  Forall
    (fun r =>
       let body := slice (start_line r - 1) (end_line r) (splitlines text) in
       (forall k, 1 <= k < length body -> balanced (firstn k body) = false)
       /\ (end_line r < length (splitlines text) -> balanced body = true)
       /\ (balanced body = false -> end_line r = length (splitlines text)))
    (extract_functions relpath_root text file).
Proof.
  apply (emitted_Forall relpath_root (splitlines text) file) with (i := 0);
    [|apply extract_functions_emitted].
  intros j nm Hj Hs.
  destruct (record_at_extent (splitlines text) file j nm Hj) as (_ & Hk & Hc).
  destruct (record_at_lines relpath_root (splitlines text) file j nm Hj)
    as (_ & _ & H3).
  cbn zeta in *. split; [exact Hk|]. split; [exact Hc|].
  intros Hb.
  destruct (Nat.eq_dec
              (end_line (record_at relpath_root (splitlines text) file j nm))
              (length (splitlines text))) as [e|ne]; [exact e|].
  rewrite Hc in Hb; [discriminate|lia].
Qed.

Lemma lstrip_ident n : forallb ident n = true -> lstrip n = n.
Proof.
  destruct n as [|c n]; cbn [forallb lstrip]; [reflexivity|].
  intros H. apply andb_prop in H. destruct H as [Hc _].
  rewrite (ident_not_space c Hc). reflexivity.
Qed.

Lemma strip_ident n : forallb ident n = true -> strip n = n.
Proof.
  intros H. unfold strip, rstrip. rewrite (lstrip_ident n H).
  rewrite lstrip_ident; [apply rev_involutive|].
  rewrite forallb_forall in *. intros c Hc. apply H. apply in_rev. exact Hc.
Qed.

Lemma scan_patterns_not_denied line nm : forall pats,
  scan_patterns pats line = Matched (Some nm) ->
  nm = [] \/ in_keyword_names (lower (strip nm)) = false.
Proof.
  induction pats as [|pat pats IH]; intros H; cbn [scan_patterns] in H.
  - discriminate.
  - destruct (match_ pat line) as [m|]; [|apply IH; exact H].
    destruct (group1 m) as [[|c n]|]; cbn [truthy andb] in H.
    + inversion H. left. reflexivity.
    + destruct (in_keyword_names (lower (strip (c :: n)))) eqn:Hk;
        [discriminate|].
      inversion H. subst nm. right. exact Hk.
    + discriminate.
Qed.

(** X8: no record of [extract_functions] carries a denylisted name: the
    name of every record, in lower case, is none of [KEYWORD_NAMES]. *)
Theorem extracted_name_not_keyword text file :
  Forall
    (fun r => exists n, name r = Some n
                        /\ in_keyword_names (lower (strip n)) = false
                        /\ ~ In (lower n) KEYWORD_NAMES)
    (extract_functions relpath_root text file).
Proof.
  apply (emitted_Forall relpath_root (splitlines text) file) with (i := 0);
    [|apply extract_functions_emitted].
  intros j nm _ Hs. cbn [record_at name].
  destruct (scan_patterns_matched _ _ FUNC_PATTERNS (fun _ h => h) Hs)
    as (c & n & -> & Hi).
  exists (c :: n). split; [reflexivity|].
  destruct (scan_patterns_not_denied _ _ _ Hs) as [Hnil|Hk];
    [discriminate|].
  split; [exact Hk|].
  rewrite (strip_ident _ Hi) in Hk. intros Hin.
  unfold in_keyword_names in Hk.
  assert (Ht : existsb (str_eqb (lower (c :: n))) KEYWORD_NAMES = true).
  { apply existsb_exists. exists (lower (c :: n)). split; [exact Hin|].
    apply str_eqb_refl. }
  unfold str in *. rewrite Ht in Hk. discriminate.
Qed.

Lemma emitted_span lines file : forall i rs,
  emitted relpath_root lines file i rs ->
  i <= length lines ->
  list_sum (map (fun r => end_line r - start_line r + 1) rs)
  <= length lines - i.
Proof.
  intros i rs H. induction H as [i|i j nm rs Hij Hj Hs Hrs IH]; intros Hi.
  - cbn. lia.
  - destruct (record_at_lines relpath_root lines file j nm Hj)
      as (H1 & H2 & H3).
    change (list_sum
              (map (fun r => end_line r - start_line r + 1)
                   (record_at relpath_root lines file j nm :: rs)))
      with ((end_line (record_at relpath_root lines file j nm)
             - start_line (record_at relpath_root lines file j nm) + 1)
            + list_sum (map (fun r => end_line r - start_line r + 1) rs)).
    specialize (IH H3). lia.
Qed.

(** X9: the records of one text cover lines of their own: the line counts
    of all records together do not exceed the number of lines of the text,
    and so there are no more records than lines. *)
Theorem extract_functions_span text file :
  list_sum (map (fun r => end_line r - start_line r + 1)
                (extract_functions relpath_root text file))
  <= length (splitlines text)
  /\ length (extract_functions relpath_root text file)
     <= length (splitlines text).
Proof.
  pose proof (emitted_span _ _ _ _
                (extract_functions_emitted relpath_root text file)
                (Nat.le_0_l _)) as H.
  split; [lia|].
  etransitivity; [|etransitivity; [exact H|lia]].
  generalize (extract_functions relpath_root text file).
  induction l as [|r l IH]; [cbn; lia|].
  change (S (length l)
          <= (end_line r - start_line r + 1)
             + list_sum (map (fun r => end_line r - start_line r + 1) l)).
  lia.
Qed.

End Records.

(** ** The scan of all files and the report *)

Section Report.
Variables relpath_root join_root : str -> str.
Variable ratio : str -> str -> float.
Variable round3 : float -> float.

Lemma scan_files_acc files : forall acc,
  fold_left
    (fun funcs (file : str * str) =>
       let (p, text) := file in
       if nonempty text
       then funcs ++ extract_functions relpath_root text p else funcs)
    files acc
  = acc ++ flat_map (fun file => extract_functions relpath_root
                                   (snd file) (fst file)) files.
Proof.
  induction files as [|[p text] files IH]; intros acc;
    cbn [fold_left flat_map fst snd].
  - rewrite app_nil_r. reflexivity.
  - rewrite IH. destruct text as [|c text]; cbn [nonempty].
    + reflexivity.
    + rewrite app_assoc. reflexivity.
Qed.

Lemma scan_files_eq files :
  scan_files relpath_root files
  = flat_map (fun file => extract_functions relpath_root
                            (snd file) (fst file)) files.
Proof. unfold scan_files. apply scan_files_acc. Qed.

(** X10: the records of a scan are the records of the files one after the
    other, in file order; the test that skips a file whose text is empty
    changes nothing, as such a text has no records; so the scan of two
    lists of files is the scan of the first followed by the scan of the
    second, and every record comes from a file with a non-empty text. *)
Theorem scan_files_flat_map files :
  scan_files relpath_root files
  = flat_map (fun file => extract_functions relpath_root
                            (snd file) (fst file)) files
  /\ (forall more,
        scan_files relpath_root (files ++ more)
        = scan_files relpath_root files ++ scan_files relpath_root more)
  /\ Forall
       (fun r => exists p text,
          In (p, text) files /\ text <> []
          /\ In r (extract_functions relpath_root text p)
          /\ path r = relpath_root p)
       (scan_files relpath_root files).
Proof.
  split; [apply scan_files_eq|]. split.
  - intros more. rewrite !scan_files_eq. apply flat_map_app.
  - rewrite scan_files_eq. apply Forall_forall. intros r Hr.
    apply in_flat_map in Hr. destruct Hr as ([p text] & Hf & Hr).
    cbn [fst snd] in Hr. exists p, text. split; [exact Hf|].
    split; [intros ->; exact Hr|]. split; [exact Hr|].
    pose proof (emitted_Forall relpath_root (splitlines text) p
                  (fun r => path r = relpath_root p)
                  (fun _ _ _ _ => eq_refl) 0 _
                  (extract_functions_emitted relpath_root text p)) as Hall.
    rewrite Forall_forall in Hall. apply Hall. exact Hr.
Qed.

Lemma all_some_map (A B : Type) (f : A -> option B) (l : list A) :
  (forall x, In x l -> f x <> None) ->
  exists ys, all_some (map f l) = Some ys
             /\ Forall2 (fun x y => f x = Some y) l ys.
Proof.
  induction l as [|x l IH]; intros H; cbn [map all_some].
  - exists []. split; [reflexivity|constructor].
  - destruct (f x) as [y|] eqn:Hx;
      [|exfalso; apply (H x); [left; reflexivity|exact Hx]].
    destruct IH as (ys & -> & Hall);
      [intros z Hz; apply H; right; exact Hz|].
    exists (y :: ys). split; [reflexivity|]. constructor; assumption.
Qed.

(** [choose_canonical] raises on the empty group only. *)
Lemma choose_canonical_some (A : Type) (path_of : A -> str) (g : list A) :
  g <> [] ->
  exists canon,
    In canon g
    /\ choose_canonical relpath_root join_root path_of g
       = Some (relpath_root (join_root (path_of canon)),
               lit "first by path (" ++ path_of canon
               ++ lit ") and shortest path heuristic").
Proof.
  intros Hg. unfold choose_canonical.
  pose proof (sorted_by_nonempty A (fun x => path_key (path_of x)) g Hg)
    as Hne.
  destruct (sorted_by (fun x => path_key (path_of x)) g) as [|x tl] eqn:Hs;
    [congruence|].
  exists x. split; [|reflexivity].
  apply (sorted_by_In A (fun x => path_key (path_of x)) g).
  rewrite Hs. left. reflexivity.
Qed.

(** X11: [choose_canonical] fails on the empty group and on no other; on
    a group with a member its answer is the path of a member, passed
    through the two path functions, and the justification that quotes that
    member's path. *)
Theorem choose_canonical_defined (A : Type) (path_of : A -> str)
    (g : list A) :
  (choose_canonical relpath_root join_root path_of g = None <-> g = [])
  /\ (g <> [] ->
      exists canon,
        In canon g
        /\ choose_canonical relpath_root join_root path_of g
           = Some (relpath_root (join_root (path_of canon)),
                   lit "first by path (" ++ path_of canon
                   ++ lit ") and shortest path heuristic")).
Proof.
  split; [|apply choose_canonical_some].
  split.
  - intros Hn. destruct g as [|x g]; [reflexivity|].
    destruct (choose_canonical_some A path_of (x :: g)) as (c & _ & Hc);
      [discriminate|]. rewrite Hc in Hn. discriminate.
  - intros ->. reflexivity.
Qed.

Lemma report_group_some g :
  2 <= length g ->
  exists r, report_group relpath_root join_root g = Some r
            /\ reports_group relpath_root join_root g r.
Proof.
  intros Hlen. unfold report_group.
  destruct (choose_canonical_some FunctionRecord path g) as (c & Hc & ->);
    [destruct g; [simpl in Hlen; lia|discriminate]|].
  eexists. split; [reflexivity|].
  unfold reports_group. cbn [functions suggested_canonical justification].
  split; [reflexivity|]. split; [rewrite length_map; exact Hlen|].
  exists c. auto.
Qed.

Lemma report_fuzzy_some threshold pool c :
  cluster_of ratio threshold pool c ->
  exists r, report_fuzzy relpath_root join_root round3 c = Some r
            /\ reports_cluster relpath_root join_root round3 c r.
Proof.
  intros (rep & others & -> & Hne & _ & _).
  unfold report_fuzzy.
  destruct (choose_canonical_some ClusterMember
              (fun m => path (member m))
              ({| member := rep; similarity := None |}
                 :: map (scored ratio rep) others))
    as (c & Hc & ->); [discriminate|].
  eexists. split; [reflexivity|].
  unfold reports_cluster.
  cbn [representative matches fz_suggested_canonical].
  eexists _, _. split; [reflexivity|]. split.
  - destruct others; [congruence|discriminate].
  - split; [reflexivity|]. split; [reflexivity|]. exists c. auto.
Qed.

Lemma Forall2_weaken (A B : Type) (P Q : A -> B -> Prop) l l' :
  (forall x y, In x l -> P x y -> Q x y) ->
  Forall2 P l l' -> Forall2 Q l l'.
Proof.
  intros H F. induction F as [|x y l l' Hxy F IH]; constructor.
  - apply H; [left; reflexivity|exact Hxy].
  - apply IH. intros a b Ha. apply H. right. exact Ha.
Qed.

(** X12: [main] never fails: no group it reports on is empty, so neither
    [sorted_items[0]] nor [g[0]] is out of range.  Its document has one
    entry for every exact group, every identical-named group and every
    fuzzy cluster, in their order: an entry lists the group's members, two
    or more, and suggests [relpath(join(ROOT, p), ROOT)] for the path [p]
    of a member, with the justification that quotes [p]; an entry of a
    cluster names the representative, lists every other member, at least
    one, with its rounded score, and suggests [relpath(join(ROOT, p), ROOT)]
    for the path [p] of a member of the cluster. *)
Theorem main_report files :
  exists e i f,
    main relpath_root join_root ratio round3 files
    = Some {| exact_body_duplicates := e;
              identical_named_duplicates := i;
              fuzzy_duplicates := f |}
    /\ Forall2 (reports_group relpath_root join_root)
         (group_exact (scan_files relpath_root files)) e
    /\ Forall2 (reports_group relpath_root join_root)
         (group_identical_named (scan_files relpath_root files)) i
    /\ Forall2 (reports_cluster relpath_root join_root round3)
         (group_fuzzy ratio
            (remaining (scan_files relpath_root files)
               (exact_norms (group_exact (scan_files relpath_root files))))
            FUZZY_THRESHOLD) f.
Proof.
  unfold main.
  set (funcs := scan_files relpath_root files).
  set (rem := remaining funcs (exact_norms (group_exact funcs))).
  assert (He : forall g, In g (group_exact funcs) -> 2 <= length g).
  { intros g Hg. destruct (group_exact_spec funcs g Hg) as (_ & _ & H & _).
    exact H. }
  assert (Hi : forall g, In g (group_identical_named funcs) ->
                         2 <= length g).
  { intros g Hg. rewrite group_identical_named_eq in Hg.
    apply in_map_iff in Hg. destruct Hg as (n & <- & Hn).
    apply filter_In in Hn. destruct Hn as [_ Hn].
    apply andb_prop in Hn. destruct Hn as [Hn _].
    apply Nat.ltb_lt in Hn. lia. }
  destruct (all_some_map _ _ (report_group relpath_root join_root)
              (group_exact funcs)) as (e & -> & Fe).
  { intros g Hg. destruct (report_group_some g (He g Hg)) as (r & -> & _).
    discriminate. }
  destruct (all_some_map _ _ (report_group relpath_root join_root)
              (group_identical_named funcs)) as (i & -> & Fi).
  { intros g Hg. destruct (report_group_some g (Hi g Hg)) as (r & -> & _).
    discriminate. }
  destruct (all_some_map _ _ (report_fuzzy relpath_root join_root round3)
              (group_fuzzy ratio rem FUZZY_THRESHOLD)) as (f & -> & Ff).
  { intros c Hc. apply group_fuzzy_spec in Hc.
    destruct (report_fuzzy_some _ _ _ Hc) as (r & -> & _). discriminate. }
  exists e, i, f. split; [reflexivity|]. split; [|split].
  - eapply Forall2_weaken; [|exact Fe]. cbv beta. intros g r Hg Hr.
    destruct (report_group_some g (He g Hg)) as (r' & Hr' & Hs).
    rewrite Hr in Hr'. inversion Hr'. subst r'. exact Hs.
  - eapply Forall2_weaken; [|exact Fi]. cbv beta. intros g r Hg Hr.
    destruct (report_group_some g (Hi g Hg)) as (r' & Hr' & Hs).
    rewrite Hr in Hr'. inversion Hr'. subst r'. exact Hs.
  - eapply Forall2_weaken; [|exact Ff]. cbv beta. intros c r Hc Hr.
    apply group_fuzzy_spec in Hc.
    destruct (report_fuzzy_some _ _ _ Hc) as (r' & Hr' & Hs).
    rewrite Hr in Hr'. inversion Hr'. subst r'. exact Hs.
Qed.

End Report.

(** ** What the normalizer keeps and what it removes *)

Section NormalForms.

(** Removing the matches of a pattern only deletes characters. *)
Lemma sub_aux_remove_subseq r : forall s n pv,
  subseq (sub_aux r [] n pv s) s.
Proof.
  induction s as [|c tl IH]; intros n pv.
  - destruct n; cbn [sub_aux].
    + destruct (match_here r pv []); constructor.
    + constructor.
  - destruct n as [|n]; cbn [sub_aux].
    + destruct (match_here r pv (c :: tl)) as [st'|].
      * destruct (length (c :: tl) - length (rest st')) as [|m]; cbn [app].
        -- apply subseq_keep. apply IH.
        -- apply subseq_skip. apply IH.
      * apply subseq_keep. apply IH.
    + apply subseq_skip. apply IH.
Qed.

Lemma subseq_trans u v : subseq u v -> forall w, subseq v w -> subseq u w.
Proof.
  intros Huv w Hvw. revert u Huv.
  induction Hvw as [|c v w Hvw IH|c v w Hvw IH]; intros u Huv.
  - exact Huv.
  - apply subseq_skip. apply IH. exact Huv.
  - inversion Huv as [|c' u' v' H'|c' u' v' H']; subst.
    + apply subseq_skip. apply IH. exact H'.
    + apply subseq_keep. apply IH. exact H'.
Qed.

Lemma subseq_length u v : subseq u v -> length u <= length v.
Proof. induction 1; cbn [length]; lia. Qed.

Lemma code_chars_lstrip s : code_chars (lstrip s) = code_chars s.
Proof.
  induction s as [|c tl IH]; cbn [lstrip]; [reflexivity|].
  destruct (isspace c) eqn:Hc; [|reflexivity].
  rewrite IH. unfold code_chars. cbn [filter]. rewrite Hc. reflexivity.
Qed.

Lemma code_chars_rev s : code_chars (rev s) = rev (code_chars s).
Proof. unfold code_chars. apply filter_rev. Qed.

Lemma code_chars_strip s : code_chars (strip s) = code_chars s.
Proof.
  unfold strip, rstrip.
  rewrite code_chars_rev, code_chars_lstrip, code_chars_rev, rev_involutive.
  apply code_chars_lstrip.
Qed.

(** Collapsing white space leaves every other character where it is. *)
Lemma spaces_code_chars s out :
  subst_rel after_spaces [SPACE] s out -> code_chars out = code_chars s.
Proof.
  intros H. induction H as [|s s' out Hm Hr IH|c tl out Hm Hr IH].
  - reflexivity.
  - destruct (after_spaces_some _ _ Hm) as (c & tl & -> & Hc & ->).
    rewrite code_chars_lstrip in IH.
    unfold code_chars in *. cbn [app filter].
    rewrite isspace_SPACE, Hc. cbn [negb]. exact IH.
  - pose proof (after_spaces_none _ _ Hm) as Hc.
    unfold code_chars in *. cbn [filter]. rewrite Hc. cbn [negb].
    f_equal. exact IH.
Qed.

Lemma contains_app c u v :
  contains c (u ++ v) = contains c u || contains c v.
Proof. unfold contains. apply existsb_app. Qed.

Lemma no_slash_no_block_comment s :
  contains (chr "/") s = false -> sub BLOCK_COMMENT [] s = s.
Proof.
  intros Hs. unfold sub. apply sub_aux_no_match. intros u v pv' ->.
  destruct (match_here BLOCK_COMMENT pv' v) as [st|] eqn:Hm; [|reflexivity].
  exfalso.
  destruct (match_block_comment_start pv' v) as [tl ->];
    [rewrite Hm; discriminate|].
  rewrite contains_app in Hs. apply orb_false_elim in Hs.
  destruct Hs as [_ Hs]. discriminate Hs.
Qed.

Lemma no_slash_no_double_slash s :
  contains (chr "/") s = false -> no_double_slash s = true.
Proof.
  unfold no_double_slash, contains.
  induction s as [|a tl IH]; [reflexivity|].
  cbn [existsb]. intros H. apply orb_false_elim in H. destruct H as [Ha Ht].
  destruct tl as [|b tl']; [reflexivity|].
  change (chain ?R (a :: b :: tl')) with (R a b && chain R (b :: tl')).
  rewrite (IH Ht), Ha. reflexivity.
Qed.

Lemma strip_comments_subseq s : subseq (strip_comments s) s.
Proof.
  unfold strip_comments, sub.
  eapply subseq_trans; apply sub_aux_remove_subseq.
Qed.

Lemma strip_comments_fixed s :
  strip_comments s = s
  <-> no_double_slash s = true /\ sub BLOCK_COMMENT [] s = s.
Proof.
  unfold strip_comments. split.
  - intros H.
    assert (Hb : sub BLOCK_COMMENT [] s = s).
    { destruct (sub_aux_remove_length BLOCK_COMMENT s 0 None) as [Hle Heq].
      fold (sub BLOCK_COMMENT [] s) in Hle, Heq.
      apply Heq; [reflexivity|].
      pose proof (proj1 (sub_aux_remove_length LINE_COMMENT
                           (sub BLOCK_COMMENT [] s) 0 None)) as Hl.
      fold (sub LINE_COMMENT [] (sub BLOCK_COMMENT [] s)) in Hl.
      rewrite H in Hl. lia. }
    split; [|exact Hb].
    rewrite <- H. apply (line_no_double_slash _ _ (line_rel _)).
  - intros [Hd Hb]. rewrite Hb. apply line_comment_fixed. exact Hd.
Qed.

(** X13: [strip_comments] only deletes characters; what it returns holds no
    [//] any more; it returns a text unchanged exactly when the text holds
    no [//] and no block comment, as is the case for every text without a
    slash. *)
Theorem strip_comments_spec s :
  subseq (strip_comments s) s
  /\ length (strip_comments s) <= length s
  /\ no_double_slash (strip_comments s) = true
  /\ (strip_comments s = s
      <-> no_double_slash s = true /\ sub BLOCK_COMMENT [] s = s)
  /\ (contains (chr "/") s = false -> strip_comments s = s).
Proof.
  split; [apply strip_comments_subseq|].
  split; [apply subseq_length, strip_comments_subseq|].
  split; [apply (line_no_double_slash _ _ (line_rel _))|].
  split; [apply strip_comments_fixed|].
  intros Hs. apply strip_comments_fixed.
  split; [apply no_slash_no_double_slash|apply no_slash_no_block_comment];
    exact Hs.
Qed.

(** X14: what [normalize] returns has white space only as single spaces
    between other characters and holds no [//]; it is not longer than the
    text; and its characters other than white space are those the comment
    stripper left, in their order. *)
Theorem normalize_normal_form s :
  normal_shape (normalize s)
  /\ length (normalize s) <= length s
  /\ code_chars (normalize s) = code_chars (strip_comments s)
  /\ subseq (code_chars (normalize s)) s.
Proof.
  split; [apply normalize_shape|]. split.
  - pose proof (normalize_length s) as H1.
    pose proof (proj1 (sub_aux_remove_length BLOCK_COMMENT s 0 None)) as H2.
    fold (sub BLOCK_COMMENT [] s) in H2. lia.
  - assert (E : code_chars (normalize s) = code_chars (strip_comments s)).
    { unfold normalize. rewrite code_chars_strip.
      apply spaces_code_chars. apply spaces_rel. }
    split; [exact E|]. rewrite E.
    eapply subseq_trans; [|apply strip_comments_subseq].
    generalize (strip_comments s). intros t. unfold code_chars.
    induction t as [|c t IH]; cbn [filter]; [constructor|].
    destruct (isspace c); cbn [negb]; constructor; exact IH.
Qed.

(** X15: the texts [normalize] returns unchanged are exactly the texts of
    that shape in which no block comment is left. *)
Theorem normalize_fixed_points t :
  normalize t = t <-> normal_shape t /\ sub BLOCK_COMMENT [] t = t.
Proof.
  split.
  - intros H. split.
    + rewrite <- H. apply normalize_shape.
    + destruct (sub_aux_remove_length BLOCK_COMMENT t 0 None) as [Hle Heq].
      fold (sub BLOCK_COMMENT [] t) in Hle, Heq.
      apply Heq; [reflexivity|].
      pose proof (normalize_length t) as Hl. rewrite H in Hl. lia.
  - intros [(H1 & H2 & H3 & H4) Hb]. apply normalize_fixed; assumption.
Qed.

End NormalForms.

(** ** The file walker *)

Section PathFacts.

Lemma chr_eqb_sym a b : chr_eqb a b = chr_eqb b a.
Proof. unfold chr_eqb. apply Ascii.eqb_sym. Qed.

Lemma simple_parts c :
  simple c = true ->
  nonempty c = true /\ contains Posix.SEP c = false
  /\ str_eqb c Posix.DOT = false /\ str_eqb c Posix.DOTDOT = false.
Proof.
  unfold simple. intros H.
  apply andb_prop in H. destruct H as [H H4].
  apply andb_prop in H. destruct H as [H H3].
  apply andb_prop in H. destruct H as [H1 H2].
  apply negb_true_iff in H2, H3, H4. auto.
Qed.

Lemma split_aux_nosep : forall c cur tl,
  contains Posix.SEP c = false ->
  Posix.split_aux cur (c ++ tl) = Posix.split_aux (rev c ++ cur) tl.
Proof.
  induction c as [|x c IH]; intros cur tl H; [reflexivity|].
  unfold contains in H. cbn [existsb] in H. apply orb_false_elim in H.
  destruct H as [Hx Hc]. cbn [app Posix.split_aux].
  rewrite chr_eqb_sym, Hx. rewrite (IH _ _ Hc). cbn [rev].
  rewrite <- app_assoc. reflexivity.
Qed.

Lemma split_aux_abs : forall comps cur,
  Forall (fun c => contains Posix.SEP c = false) comps ->
  Posix.split_aux cur (abs_of comps) = rev cur :: comps.
Proof.
  induction comps as [|c comps IH]; intros cur H; [reflexivity|].
  inversion H as [|? ? Hc Hcs]; subst.
  unfold abs_of. cbn [map concat app Posix.split_aux].
  change (chr_eqb Posix.SEP Posix.SEP) with true. cbn iota.
  fold (abs_of comps). rewrite (split_aux_nosep c [] _ Hc).
  rewrite (IH _ Hcs). rewrite app_nil_r, rev_involutive. reflexivity.
Qed.

Lemma join_abs : forall cs c,
  join [Posix.SEP] (c :: cs) = c ++ abs_of cs.
Proof.
  induction cs as [|c2 cs IH]; intros c.
  - cbn [join]. rewrite app_nil_r. reflexivity.
  - change (join [Posix.SEP] (c :: c2 :: cs))
      with (c ++ [Posix.SEP] ++ join [Posix.SEP] (c2 :: cs)).
    rewrite IH. reflexivity.
Qed.

Lemma abs_of_app a b : abs_of (a ++ b) = abs_of a ++ abs_of b.
Proof. unfold abs_of. rewrite map_app, concat_app. reflexivity. Qed.

Lemma abs_of_join comps :
  comps <> [] -> abs_of comps = Posix.SEP :: join [Posix.SEP] comps.
Proof.
  destruct comps as [|c cs]; [congruence|]. intros _.
  rewrite join_abs. reflexivity.
Qed.

Lemma join_snoc comps d :
  comps <> [] ->
  join [Posix.SEP] (comps ++ [d])
  = join [Posix.SEP] comps ++ Posix.SEP :: d.
Proof.
  destruct comps as [|c cs]; [congruence|]. intros _.
  cbn [app]. rewrite !join_abs, abs_of_app, <- app_assoc.
  unfold abs_of at 2. cbn [map concat]. rewrite app_nil_r. reflexivity.
Qed.

Lemma split_join comps :
  comps <> [] ->
  Forall (fun c => contains Posix.SEP c = false) comps ->
  Posix.split (join [Posix.SEP] comps) = comps.
Proof.
  destruct comps as [|c cs]; [congruence|]. intros _ H.
  inversion H as [|? ? Hc Hcs]; subst.
  rewrite join_abs. unfold Posix.split.
  rewrite (split_aux_nosep c [] _ Hc), (split_aux_abs _ _ Hcs).
  rewrite app_nil_r, rev_involutive. reflexivity.
Qed.

Lemma Forall_simple_nosep comps :
  Forall (fun c => simple c = true) comps ->
  Forall (fun c => contains Posix.SEP c = false) comps.
Proof.
  intros H. eapply Forall_impl; [|exact H]. cbv beta.
  intros c Hc. apply (simple_parts c Hc).
Qed.

Lemma norm_comps_simple b : forall comps acc,
  Forall (fun c => simple c = true) comps ->
  Posix.norm_comps b comps acc = acc ++ comps.
Proof.
  induction comps as [|c comps IH]; intros acc H; cbn [Posix.norm_comps].
  - rewrite app_nil_r. reflexivity.
  - inversion H as [|? ? Hc Hcs]; subst.
    destruct (simple_parts c Hc) as (Hn & _ & Hd & Hdd).
    assert (He : str_eqb c [] = false) by (destruct c; [discriminate|reflexivity]).
    unfold str in *. rewrite He, Hd, Hdd. cbn [orb negb].
    rewrite (IH _ Hcs), <- app_assoc. reflexivity.
Qed.

Lemma simple_head c :
  simple c = true ->
  exists x tl, c = x :: tl /\ chr_eqb x Posix.SEP = false.
Proof.
  intros H. destruct (simple_parts c H) as (Hn & Hs & _).
  destruct c as [|x tl]; [discriminate|]. exists x, tl.
  split; [reflexivity|]. unfold contains in Hs. cbn [existsb] in Hs.
  apply orb_false_elim in Hs. rewrite chr_eqb_sym. apply Hs.
Qed.

Lemma simple_last c :
  simple c = true ->
  exists x tl, rev c = x :: tl /\ chr_eqb x Posix.SEP = false.
Proof.
  intros H. destruct (simple_parts c H) as (Hn & Hs & _).
  destruct (rev c) as [|x tl] eqn:E.
  - apply (f_equal (@rev ascii)) in E. rewrite rev_involutive in E.
    subst c. discriminate.
  - exists x, tl. split; [reflexivity|].
    destruct (chr_eqb x Posix.SEP) eqn:Hx; [|reflexivity].
    assert (Hin : In x c) by (apply in_rev; rewrite E; left; reflexivity).
    assert (Ht : contains Posix.SEP c = true).
    { unfold contains. apply existsb_exists. exists x.
      split; [exact Hin|]. rewrite chr_eqb_sym. exact Hx. }
    rewrite Ht in Hs. discriminate.
Qed.

Lemma normpath_one_slash x r :
  chr_eqb x Posix.SEP = false ->
  Posix.normpath (Posix.SEP :: x :: r)
  = Posix.SEP
      :: join [Posix.SEP]
              (Posix.norm_comps true (Posix.split (Posix.SEP :: x :: r)) []).
Proof.
  intros Hx. unfold Posix.normpath.
  change (chr_eqb Posix.SEP Posix.SEP) with true. cbn iota.
  destruct r as [|y r]; rewrite Hx; reflexivity.
Qed.

Lemma normpath_no_slash x r :
  chr_eqb x Posix.SEP = false ->
  Posix.normpath (x :: r)
  = match join [Posix.SEP]
            (Posix.norm_comps false (Posix.split (x :: r)) []) with
    | [] => Posix.DOT
    | _ :: _ =>
        join [Posix.SEP] (Posix.norm_comps false (Posix.split (x :: r)) [])
    end.
Proof.
  intros Hx. unfold Posix.normpath.
  destruct r as [|y [|z r]]; rewrite Hx; reflexivity.
Qed.

Lemma join_nonempty comps :
  comps <> [] -> Forall (fun c => simple c = true) comps ->
  exists x r, join [Posix.SEP] comps = x :: r
              /\ chr_eqb x Posix.SEP = false.
Proof.
  intros Hne H. destruct comps as [|c cs]; [congruence|].
  inversion H as [|? ? Hc Hcs]; subst.
  destruct (simple_head c Hc) as (x & tl & -> & Hx).
  rewrite join_abs. exists x, (tl ++ abs_of cs). auto.
Qed.

Lemma normpath_abs comps :
  comps <> [] -> Forall (fun c => simple c = true) comps ->
  Posix.normpath (abs_of comps) = abs_of comps.
Proof.
  intros Hne H.
  pose proof (split_aux_abs comps [] (Forall_simple_nosep _ H)) as Hsplit.
  pose proof (norm_comps_simple true comps [] H) as Hn.
  pose proof (abs_of_join comps Hne) as Hj.
  destruct (join_nonempty comps Hne H) as (x & r & E & Hx).
  unfold str in *. rewrite Hj in Hsplit |- *. rewrite E in *.
  rewrite (normpath_one_slash x r Hx). unfold Posix.split. rewrite Hsplit.
  cbn [Posix.norm_comps str_eqb orb rev]. unfold str in *.
  rewrite Hn. cbn [app]. rewrite E. reflexivity.
Qed.

Lemma normpath_rel comps :
  comps <> [] -> Forall (fun c => simple c = true) comps ->
  Posix.normpath (join [Posix.SEP] comps) = join [Posix.SEP] comps.
Proof.
  intros Hne H.
  destruct (join_nonempty comps Hne H) as (x & r & E & Hx).
  pose proof (split_join comps Hne (Forall_simple_nosep _ H)) as Hsplit.
  pose proof (norm_comps_simple false _ [] H) as Hn.
  unfold str in *. rewrite E in *.
  rewrite (normpath_no_slash x r Hx), Hsplit. unfold str in *.
  rewrite Hn. cbn [app]. rewrite E. reflexivity.
Qed.

Lemma common_app l : forall m, Posix.common l (l ++ m) = length l.
Proof.
  induction l as [|x l IH]; intros m; [destruct m; reflexivity|].
  cbn [app Posix.common length]. rewrite str_eqb_refl, IH. reflexivity.
Qed.

Lemma filter_simple comps :
  Forall (fun c => simple c = true) comps ->
  filter (fun x : str => match x with [] => false | _ => true end) comps
  = comps.
Proof.
  induction 1 as [|c cs Hc Hcs IH]; [reflexivity|].
  cbn [filter]. destruct (simple_parts c Hc) as (Hn & _).
  destruct c as [|x tl]; [discriminate|]. rewrite IH. reflexivity.
Qed.

Lemma parts_abs cwd comps :
  comps <> [] -> Forall (fun c => simple c = true) comps ->
  Posix.parts cwd (abs_of comps) = comps.
Proof.
  intros Hne H. unfold Posix.parts, Posix.abspath.
  assert (Ha : Posix.isabs (abs_of comps) = true).
  { rewrite abs_of_join by exact Hne. reflexivity. }
  rewrite Ha, (normpath_abs comps Hne H).
  unfold Posix.split.
  rewrite (split_aux_abs _ [] (Forall_simple_nosep _ H)).
  cbn [rev filter]. apply filter_simple. exact H.
Qed.

(** The relative path of a directory below the root. *)
Lemma relpath_abs cwd rcomps comps :
  rcomps <> [] ->
  Forall (fun c => simple c = true) rcomps ->
  Forall (fun c => simple c = true) comps ->
  Posix.relpath_root cwd (abs_of rcomps) (abs_of (rcomps ++ comps))
  = match comps with
    | [] => Posix.DOT
    | _ => join [Posix.SEP] comps
    end.
Proof.
  intros Hne Hr Hc. unfold Posix.relpath_root.
  assert (Hne' : rcomps ++ comps <> [])
    by (destruct rcomps; [congruence|discriminate]).
  rewrite (abs_of_join _ Hne') at 1.
  rewrite (parts_abs cwd rcomps Hne Hr).
  rewrite (parts_abs cwd (rcomps ++ comps) Hne'
             (proj2 (Forall_app _ _ _) (conj Hr Hc))).
  rewrite common_app, Nat.sub_diag. cbn [repeat app].
  rewrite skipn_app, skipn_all, Nat.sub_diag. cbn [app skipn].
  destruct comps; reflexivity.
Qed.

Lemma join2_simple a d x tl :
  rev a = x :: tl -> chr_eqb x Posix.SEP = false -> simple d = true ->
  Posix.join2 a d = a ++ Posix.SEP :: d.
Proof.
  intros Ha Hx Hd. unfold Posix.join2.
  destruct (simple_head d Hd) as (y & r & -> & Hy).
  cbn [Posix.isabs]. unfold str in *. rewrite Hy, Ha, Hx. reflexivity.
Qed.

Lemma abs_snoc comps d :
  abs_of (comps ++ [d]) = abs_of comps ++ Posix.SEP :: d.
Proof.
  rewrite abs_of_app. unfold abs_of at 2. cbn [map concat].
  rewrite app_nil_r. reflexivity.
Qed.

Lemma abs_last comps :
  comps <> [] -> Forall (fun c => simple c = true) comps ->
  exists x tl, rev (abs_of comps) = x :: tl
               /\ chr_eqb x Posix.SEP = false.
Proof.
  intros Hne H.
  destruct (exists_last Hne) as (cs & c & ->).
  apply Forall_app in H. destruct H as [_ H].
  inversion H as [|? ? Hc _]; subst.
  destruct (simple_last c Hc) as (x & tl & E & Hx).
  rewrite abs_snoc, rev_app_distr. cbn [rev].
  rewrite E. cbn [app]. eauto.
Qed.

Lemma join_last comps :
  comps <> [] -> Forall (fun c => simple c = true) comps ->
  exists x tl, rev (join [Posix.SEP] comps) = x :: tl
               /\ chr_eqb x Posix.SEP = false.
Proof.
  intros Hne H.
  destruct (abs_last comps Hne H) as (x & tl & E & Hx).
  rewrite (abs_of_join comps Hne) in E. cbn [rev] in E.
  destruct (rev (join [Posix.SEP] comps)) as [|y r] eqn:Er.
  - destruct (join_nonempty comps Hne H) as (z & u & Ez & _).
    apply (f_equal (@rev ascii)) in Er. rewrite rev_involutive in Er.
    unfold str in *. rewrite Er in Ez. discriminate.
  - cbn [app] in E. inversion E; subst. eauto.
Qed.

(** [os.path.join(dirpath, d)] for a directory below the root. *)
Lemma join2_abs comps d :
  comps <> [] -> Forall (fun c => simple c = true) comps ->
  simple d = true ->
  Posix.join2 (abs_of comps) d = abs_of (comps ++ [d]).
Proof.
  intros Hne H Hd. destruct (abs_last comps Hne H) as (x & tl & E & Hx).
  rewrite (join2_simple _ d x tl E Hx Hd), abs_snoc. reflexivity.
Qed.

Lemma join2_rel comps d :
  comps <> [] -> Forall (fun c => simple c = true) comps ->
  simple d = true ->
  Posix.join2 (join [Posix.SEP] comps) d = join [Posix.SEP] (comps ++ [d]).
Proof.
  intros Hne H Hd. destruct (join_last comps Hne H) as (x & tl & E & Hx).
  rewrite (join2_simple _ d x tl E Hx Hd), (join_snoc comps d Hne).
  reflexivity.
Qed.

End PathFacts.
Section WalkerFacts.

Lemma abs_of_boundary cs : at_boundary (abs_of cs).
Proof. destruct cs; [exact I|reflexivity]. Qed.

Lemma str_eqb_sym a : forall b, str_eqb a b = str_eqb b a.
Proof.
  induction a as [|x a IH]; intros [|y b]; cbn [str_eqb]; try reflexivity.
  rewrite chr_eqb_sym, IH. reflexivity.
Qed.

Lemma nosep_head x c :
  contains Posix.SEP (x :: c) = false ->
  chr_eqb Posix.SEP x = false /\ contains Posix.SEP c = false.
Proof.
  unfold contains. cbn [existsb]. apply orb_false_elim.
Qed.

Lemma startswith_comp : forall p c u w,
  contains Posix.SEP p = false -> contains Posix.SEP c = false ->
  at_boundary w ->
  startswith (p ++ Posix.SEP :: u) (c ++ w)
  = str_eqb p c
    && match w with [] => false | _ :: w' => startswith u w' end.
Proof.
  induction p as [|a p IH]; intros [|x c] u w Hp Hc Hw;
    cbn [app startswith str_eqb andb].
  - destruct w as [|y w']; [reflexivity|]. cbn in Hw. subst y.
    reflexivity.
  - destruct (nosep_head _ _ Hc) as [Hx _]. rewrite Hx. reflexivity.
  - destruct (nosep_head _ _ Hp) as [Ha _].
    destruct w as [|y w']; [reflexivity|]. cbn in Hw. subst y.
    rewrite chr_eqb_sym, Ha. reflexivity.
  - destruct (nosep_head _ _ Hp) as [_ Hp'].
    destruct (nosep_head _ _ Hc) as [_ Hc'].
    rewrite (IH c u w Hp' Hc' Hw). apply andb_assoc.
Qed.

Lemma str_eqb_comp : forall c p w w2,
  contains Posix.SEP c = false -> contains Posix.SEP p = false ->
  at_boundary w -> at_boundary w2 ->
  str_eqb (c ++ w) (p ++ w2) = str_eqb c p && str_eqb w w2.
Proof.
  induction c as [|x c IH]; intros [|a p] w w2 Hc Hp Hw Hw2;
    cbn [app str_eqb andb].
  - reflexivity.
  - destruct (nosep_head _ _ Hp) as [Ha _].
    destruct w as [|y w']; [reflexivity|]. cbn in Hw. subst y.
    cbn [str_eqb]. rewrite Ha. reflexivity.
  - destruct (nosep_head _ _ Hc) as [Hx _].
    destruct w2 as [|y w2']; [reflexivity|]. cbn in Hw2. subst y.
    cbn [str_eqb]. rewrite chr_eqb_sym, Hx. reflexivity.
  - destruct (nosep_head _ _ Hp) as [_ Hp'].
    destruct (nosep_head _ _ Hc) as [_ Hc'].
    rewrite (IH p w w2 Hc' Hp' Hw Hw2). apply andb_assoc.
Qed.

(** The test of [keep_dir] on two paths is the prefix test on their
    components. *)
Lemma prefix_test : forall pc cs,
  pc <> [] -> cs <> [] ->
  Forall (fun c => contains Posix.SEP c = false) pc ->
  Forall (fun c => contains Posix.SEP c = false) cs ->
  str_eqb (join [Posix.SEP] cs) (join [Posix.SEP] pc)
  || startswith (join [Posix.SEP] pc ++ [Posix.SEP]) (join [Posix.SEP] cs)
  = is_prefix pc cs.
Proof.
  induction pc as [|p pc IH]; intros cs Hpc Hcs Fp Fc; [congruence|].
  destruct cs as [|c cs]; [congruence|].
  inversion Fp as [|? ? Hp Fp']; subst.
  inversion Fc as [|? ? Hc Fc']; subst.
  rewrite !join_abs. rewrite <- app_assoc.
  rewrite (str_eqb_comp c p _ _ Hc Hp
             (abs_of_boundary cs) (abs_of_boundary pc)).
  cbn [is_prefix]. rewrite (str_eqb_sym c p).
  destruct pc as [|p2 pc].
  - cbn [abs_of map concat app is_prefix].
    rewrite (startswith_comp p c [] _ Hp Hc (abs_of_boundary cs)).
    destruct cs as [|c2 cs]; cbn [abs_of map concat app str_eqb startswith];
      destruct (str_eqb p c); reflexivity.
  - rewrite (abs_of_join (p2 :: pc)) by discriminate. cbn [app].
    rewrite (startswith_comp p c _ _ Hp Hc (abs_of_boundary cs)).
    destruct cs as [|c2 cs].
    + cbn [abs_of map concat str_eqb is_prefix].
      destruct (str_eqb p c); reflexivity.
    + rewrite (abs_of_join (c2 :: cs)) by discriminate.
      cbn [str_eqb]. change (chr_eqb Posix.SEP Posix.SEP) with true.
      cbn [andb]. rewrite <- andb_orb_distrib_r.
      rewrite (IH (c2 :: cs)); try discriminate; try assumption.
      reflexivity.
Qed.

Lemma existsb_ext_in (A : Type) (f g : A -> bool) (l : list A) :
  (forall x, In x l -> f x = g x) -> existsb f l = existsb g l.
Proof.
  induction l as [|x l IH]; intros H; [reflexivity|]. cbn [existsb].
  rewrite (H x (or_introl eq_refl)), IH; [reflexivity|].
  intros y Hy. apply H. right. exact Hy.
Qed.

Lemma existsb_map_comp (A B : Type) (h : A -> B) (g : B -> bool) l :
  existsb g (map h l) = existsb (fun x => g (h x)) l.
Proof.
  induction l as [|x l IH]; [reflexivity|]. cbn [map existsb].
  rewrite IH. reflexivity.
Qed.

Lemma excluded_paths :
  map Posix.normpath EXCLUDE_DIRS = map (join [Posix.SEP]) EXCLUDED.
Proof. vm_compute. reflexivity. Qed.

Lemma excluded_components :
  Forall (fun pc => pc <> []
                    /\ Forall (fun c => contains Posix.SEP c = false) pc)
         EXCLUDED.
Proof.
  unfold EXCLUDED. cbn [map].
  repeat (constructor;
          [split; [discriminate|repeat constructor]|]).
  constructor.
Qed.

Lemma keep_dir_join comps d :
  Forall (fun c => simple c = true) comps -> simple d = true ->
  keep_dir (join [Posix.SEP] comps) d = negb (pruned (comps ++ [d])).
Proof.
  intros H Hd. unfold keep_dir, pruned. f_equal.
  assert (Hchild :
    (if nonempty (join [Posix.SEP] comps)
     then Posix.normpath (Posix.join2 (join [Posix.SEP] comps) d) else d)
    = join [Posix.SEP] (comps ++ [d])).
  { destruct comps as [|c cs]; [reflexivity|].
    assert (Hne : c :: cs <> []) by discriminate.
    destruct (join_nonempty _ Hne H) as (x & r & E & _).
    unfold str in *. rewrite E. cbn [nonempty]. rewrite <- E.
    rewrite (join2_rel _ d Hne H Hd).
    apply normpath_rel; [destruct cs; discriminate|].
    apply Forall_app. split; [exact H|repeat constructor; exact Hd]. }
  unfold str in *. rewrite Hchild.
  rewrite <- (existsb_map_comp _ _ Posix.normpath
                (fun ex_norm =>
                   str_eqb (join [Posix.SEP] (comps ++ [d])) ex_norm
                   || startswith (ex_norm ++ [Posix.SEP])
                        (join [Posix.SEP] (comps ++ [d])))).
  rewrite excluded_paths, existsb_map_comp.
  apply existsb_ext_in. intros pc Hpc.
  pose proof excluded_components as He. rewrite Forall_forall in He.
  destruct (He pc Hpc) as [Hne Hns].
  apply prefix_test; [exact Hne|destruct comps; discriminate|exact Hns|].
  apply Forall_simple_nosep, Forall_app.
  split; [exact H|repeat constructor; exact Hd].
Qed.

Lemma join_not_dot comps :
  comps <> [] -> Forall (fun c => simple c = true) comps ->
  str_eqb (join [Posix.SEP] comps) (lit ".") = false.
Proof.
  intros Hne H. destruct comps as [|c cs]; [congruence|].
  inversion H as [|? ? Hc Hcs]; subst.
  destruct (simple_parts c Hc) as (Hn & Hs & Hd & _).
  rewrite join_abs.
  change (lit ".") with (Posix.DOT ++ []).
  rewrite (str_eqb_comp c Posix.DOT _ [] Hs eq_refl (abs_of_boundary cs) I).
  unfold str in *. rewrite Hd. reflexivity.
Qed.

Lemma Dir_induction (P : Dir -> Prop) :
  (forall dirnames filenames,
     Forall (fun sub => P (snd sub)) dirnames ->
     P (Node dirnames filenames)) ->
  forall t, P t.
Proof.
  intros H.
  refine (fix IH (t : Dir) : P t :=
            match t with
            | Node dirnames filenames =>
                H dirnames filenames
                  ((fix go (l : list (str * Dir))
                      : Forall (fun sub => P (snd sub)) l :=
                      match l with
                      | [] => Forall_nil _
                      | sub :: l' => Forall_cons sub (IH (snd sub)) (go l')
                      end) dirnames)
            end).
Qed.

Lemma map_flat_map_comm (A B C : Type) (g : B -> C) (f : A -> list B) l :
  map g (flat_map f l) = flat_map (fun x => map g (f x)) l.
Proof.
  induction l as [|x l IH]; [reflexivity|]. cbn [flat_map].
  rewrite map_app, IH. reflexivity.
Qed.

Lemma flat_map_ext_in (A B : Type) (f g : A -> list B) l :
  (forall x, In x l -> f x = g x) -> flat_map f l = flat_map g l.
Proof.
  induction l as [|x l IH]; intros H; [reflexivity|]. cbn [flat_map].
  rewrite (H x (or_introl eq_refl)), IH; [reflexivity|].
  intros y Hy. apply H. right. exact Hy.
Qed.

Lemma walk_by_components cwd rcomps :
  rcomps <> [] -> Forall (fun c => simple c = true) rcomps ->
  forall t comps,
    Forall (fun c => simple c = true) comps ->
    well_named t = true ->
    walk cwd (abs_of rcomps) (abs_of (rcomps ++ comps)) t
    = map (fun e => abs_of (rcomps ++ fst e ++ [snd e]))
          (walk_components comps t).
Proof.
  intros Hne Hr.
  induction t as [dirnames filenames IH] using Dir_induction.
  intros comps Hc Hw. cbn [well_named] in Hw.
  apply andb_prop in Hw. destruct Hw as [Hds Hfs].
  rewrite forallb_forall in Hds, Hfs.
  assert (Hall : Forall (fun c => simple c = true) (rcomps ++ comps))
    by (apply Forall_app; split; assumption).
  assert (Hne' : rcomps ++ comps <> [])
    by (destruct rcomps; [congruence|discriminate]).
  cbn [walk walk_components].
  rewrite (relpath_abs cwd rcomps comps Hne Hr Hc).
  assert (Hrel :
    (if str_eqb match comps with
                | [] => Posix.DOT
                | _ :: _ => join [Posix.SEP] comps
                end (lit ".")
     then [] else match comps with
                  | [] => Posix.DOT
                  | _ :: _ => join [Posix.SEP] comps
                  end)
    = join [Posix.SEP] comps).
  { destruct comps as [|c cs]; [reflexivity|].
    rewrite (join_not_dot (c :: cs)) by (discriminate || exact Hc).
    reflexivity. }
  unfold str in *. rewrite Hrel. rewrite map_app. f_equal.
  - rewrite map_map. apply map_ext_in. intros fn Hfn. cbn [fst snd].
    apply filter_In in Hfn. destruct Hfn as [Hfn _].
    rewrite (join2_abs _ fn Hne' Hall (Hfs fn Hfn)), <- app_assoc.
    reflexivity.
  - rewrite map_flat_map_comm. apply flat_map_ext_in.
    intros [d sub] Hsub. cbn [fst snd].
    specialize (Hds _ Hsub). cbn [fst snd] in Hds.
    apply andb_prop in Hds. destruct Hds as [Hd Hwsub].
    rewrite (keep_dir_join comps d Hc Hd). unfold str in *.
    destruct (pruned (comps ++ [d])); cbn [negb]; [reflexivity|].
    rewrite (join2_abs _ d Hne' Hall Hd), <- app_assoc.
    rewrite Forall_forall in IH.
    apply (IH (d, sub) Hsub (comps ++ [d])); [|exact Hwsub].
    apply Forall_app. split; [exact Hc|repeat constructor; exact Hd].
Qed.

Lemma startswith_app p s u :
  startswith p s = true -> startswith p (s ++ u) = true.
Proof.
  revert s. induction p as [|a p IH]; intros [|b s] H; cbn [startswith app] in *;
    try reflexivity; try discriminate.
  apply andb_prop in H. destruct H as [-> H]. cbn [andb]. apply IH, H.
Qed.

Lemma endswith_app exts u s :
  endswith exts s = true -> endswith exts (u ++ s) = true.
Proof.
  unfold endswith. intros H. apply existsb_exists in H.
  destruct H as (e & He & Hs). apply existsb_exists. exists e.
  split; [exact He|]. rewrite rev_app_distr. apply startswith_app, Hs.
Qed.

Lemma endswith_join2 exts a fn :
  endswith exts fn = true -> endswith exts (Posix.join2 a fn) = true.
Proof.
  intros H. unfold Posix.join2.
  destruct (Posix.isabs fn); [exact H|].
  destruct (rev a) as [|c r]; [exact H|].
  destruct (chr_eqb c Posix.SEP).
  - apply endswith_app, H.
  - rewrite app_assoc. apply endswith_app, H.
Qed.

Lemma walk_extensions cwd root : forall t dirpath,
  Forall (fun p => endswith EXTS p = true) (walk cwd root dirpath t).
Proof.
  induction t as [dirnames filenames IH] using Dir_induction.
  intros dirpath. cbn [walk]. apply Forall_app. split.
  - apply Forall_forall. intros p Hp. apply in_map_iff in Hp.
    destruct Hp as (fn & <- & Hfn). apply filter_In in Hfn.
    apply endswith_join2, Hfn.
  - apply Forall_forall. intros p Hp. apply in_flat_map in Hp.
    destruct Hp as (sub & Hsub & Hp).
    destruct (keep_dir _ (fst sub)); [|contradiction].
    rewrite Forall_forall in IH.
    pose proof (IH sub Hsub (Posix.join2 dirpath (fst sub))) as IH'.
    rewrite Forall_forall in IH'. apply IH', Hp.
Qed.

Lemma is_prefix_app p : forall l m,
  is_prefix p l = true -> is_prefix p (l ++ m) = true.
Proof.
  induction p as [|a p IH]; intros [|b l] m H; cbn [is_prefix app] in *;
    try reflexivity; try discriminate.
  apply andb_prop in H. destruct H as [-> H]. cbn [andb]. apply IH, H.
Qed.

Lemma pruned_app l m : pruned l = true -> pruned (l ++ m) = true.
Proof.
  unfold pruned. intros H. apply existsb_exists in H.
  destruct H as (ex & He & Hp). apply existsb_exists. exists ex.
  split; [exact He|apply is_prefix_app, Hp].
Qed.

Lemma walk_components_kept : forall t comps,
  pruned comps = false ->
  Forall (fun e => pruned (fst e) = false
                   /\ (exists more, fst e = comps ++ more)
                   /\ endswith EXTS (snd e) = true)
         (walk_components comps t).
Proof.
  induction t as [dirnames filenames IH] using Dir_induction.
  intros comps Hk. cbn [walk_components]. apply Forall_app. split.
  - apply Forall_forall. intros e He. apply in_map_iff in He.
    destruct He as (fn & <- & Hfn). apply filter_In in Hfn. cbn [fst snd].
    split; [exact Hk|]. split; [exists []; rewrite app_nil_r; reflexivity|].
    apply Hfn.
  - apply Forall_forall. intros e He. apply in_flat_map in He.
    destruct He as (sub & Hsub & He).
    destruct (pruned (comps ++ [fst sub])) eqn:Hp; [contradiction|].
    rewrite Forall_forall in IH.
    pose proof (IH sub Hsub (comps ++ [fst sub]) Hp) as IH'.
    rewrite Forall_forall in IH'.
    destruct (IH' e He) as (H1 & [more H2] & H3).
    split; [exact H1|]. split; [|exact H3].
    exists ([fst sub] ++ more). rewrite H2, <- app_assoc. reflexivity.
Qed.

End WalkerFacts.
Section WalkerProperties.
Variable cwd : str.

(** X16: every path [list_files] returns ends in one of the extensions
    [EXTS], whatever the tree and the root. *)
Theorem list_files_extensions root t :
  Forall (fun p => endswith EXTS p = true) (list_files cwd root t).
Proof. unfold list_files. exact (walk_extensions cwd root t root). Qed.

(** X17: for a directory whose path below the root has the components
    [comps], [keep_dir] drops the sub directory [d] exactly when an entry
    of [EXCLUDE_DIRS], read as components, is a prefix of the components of
    [d]'s path: the comparison of normalized path texts is a comparison of
    path components. *)
Theorem keep_dir_components comps d :
  Forall (fun c => simple c = true) comps -> simple d = true ->
  keep_dir (join [Posix.SEP] comps) d = negb (pruned (comps ++ [d])).
Proof. apply keep_dir_join. Qed.

(** X18: below an absolute root, over a tree of ordinary names,
    [list_files] returns the files with a listed extension of every
    directory that neither is an excluded directory nor lies in one, a
    directory before its sub directories and these in their order; the
    excluded directories are those whose components below the root start
    with the components of an entry of [EXCLUDE_DIRS]. *)
Theorem list_files_components rcomps t :
  rcomps <> [] -> Forall (fun c => simple c = true) rcomps ->
  well_named t = true ->
  list_files cwd (abs_of rcomps) t
  = map (fun e => abs_of (rcomps ++ fst e ++ [snd e]))
        (walk_components [] t)
  /\ Forall (fun e => pruned (fst e) = false
                      /\ endswith EXTS (snd e) = true)
            (walk_components [] t).
Proof.
  intros Hne Hr Hw. split.
  - unfold list_files.
    pose proof (walk_by_components cwd rcomps Hne Hr t [] (Forall_nil _) Hw)
      as H.
    rewrite app_nil_r in H. exact H.
  - eapply Forall_impl; [|apply (walk_components_kept t [] eq_refl)].
    cbv beta. intros e (H1 & _ & H3). auto.
Qed.

End WalkerProperties.

(** An instance: in the directory [website/static] the sub directory
    [scripts] is dropped. *)
Lemma keep_dir_components_witness :
  keep_dir (join [Posix.SEP] [lit "website"; lit "static"]) (lit "scripts")
  = negb (pruned ([lit "website"; lit "static"] ++ [lit "scripts"]))
  /\ keep_dir (lit "website/static") (lit "scripts") = false.
Proof.
  split; [|vm_compute; reflexivity].
  apply keep_dir_components.
  - repeat (constructor; [vm_compute; reflexivity|]). constructor.
  - vm_compute. reflexivity.
Defined.

(** An instance: the files found in [sample_tree] below [/repo]; the
    directory [node_modules] inside [lib] is not excluded. *)
Lemma list_files_components_witness :
  (list_files Run.CWD (abs_of [lit "repo"]) sample_tree
   = map (fun e => abs_of ([lit "repo"] ++ fst e ++ [snd e]))
         (walk_components [] sample_tree)
   /\ Forall (fun e => pruned (fst e) = false
                       /\ endswith EXTS (snd e) = true)
             (walk_components [] sample_tree))
  /\ list_files Run.CWD Run.ROOT sample_tree
     = map lit ["/repo/top.js"; "/repo/lib/a.js"; "/repo/lib/c.tsx";
                "/repo/lib/node_modules/y.js"; "/repo/website/w.ts";
                "/repo/website/static/img/i.jsx"]%string.
Proof.
  split; [|vm_compute; reflexivity].
  apply list_files_components.
  - discriminate.
  - constructor; [vm_compute; reflexivity|constructor].
  - vm_compute. reflexivity.
Defined.

(** ** Lines the patterns are sure to match *)

Section PatternsComplete.

Lemma ok_star k p u s g Q :
  forallb p u = true -> stops p s ->
  succeeds k s g Q -> succeeds (rmatch (Star p) k) (u ++ s) g Q.
Proof.
  intros Hu Hs Hk pv. cbn [rmatch prev rest grp].
  revert pv. induction u as [|c u IH]; intros pv; cbn [app].
  - destruct s as [|d s']; cbn [star_greedy]; [apply Hk|].
    cbn in Hs. rewrite Hs. apply Hk.
  - cbn [forallb] in Hu. apply andb_prop in Hu. destruct Hu as [Hc Hu].
    cbn [star_greedy]. rewrite Hc.
    destruct (IH Hu (Some c)) as (r & -> & Hr). eauto.
Qed.

Lemma ok_chr k (p : ascii -> bool) c s g Q :
  p c = true ->
  succeeds k s g Q -> succeeds (rmatch (Chr p) k) (c :: s) g Q.
Proof.
  intros Hc Hk pv. cbn [rmatch rest grp]. rewrite Hc. apply Hk.
Qed.

Lemma ok_lit k l : forall s g Q,
  succeeds k s g Q -> succeeds (rmatch (Lit l) k) (l ++ s) g Q.
Proof.
  induction l as [|c l IH]; intros s g Q Hk; cbn [Lit app].
  - intros pv. cbn [rmatch]. apply Hk.
  - intros pv. cbn [rmatch rest grp].
    unfold chr_eqb at 1. rewrite Ascii.eqb_refl.
    apply (IH s g Q Hk).
Qed.

Lemma ok_plus k p c u s g Q :
  p c = true -> forallb p u = true -> stops p s ->
  succeeds k s g Q -> succeeds (rmatch (Plus p) k) ((c :: u) ++ s) g Q.
Proof.
  intros Hc Hu Hs Hk. unfold Plus. cbn [app].
  change (rmatch (Seq (Chr p) (Star p)) k)
    with (rmatch (Chr p) (rmatch (Star p) k)).
  apply ok_chr; [exact Hc|]. apply ok_star; assumption.
Qed.

Lemma consumed_prefix pv pv' n s g g' :
  consumed (MState pv (n ++ s) g) (MState pv' s g') = n.
Proof.
  unfold consumed. cbn [rest]. rewrite length_app.
  replace (length n + length s - length s) with (length n) by lia.
  rewrite firstn_app, Nat.sub_diag, firstn_all. cbn [firstn].
  apply app_nil_r.
Qed.

Lemma ok_group_ident k c u s g Q :
  ident c = true -> forallb ident u = true -> stops ident s ->
  succeeds k s (Some (c :: u)) Q ->
  succeeds (rmatch (Group (Plus ident)) k) ((c :: u) ++ s) g Q.
Proof.
  intros Hc Hu Hs Hk pv. cbn [rmatch].
  apply (ok_plus _ ident c u s g Q Hc Hu Hs).
  intros pv'. cbn [prev rest].
  rewrite (consumed_prefix pv pv' (c :: u) s g g). apply Hk.
Qed.

Lemma space_not_ident c : isspace c = true -> ident c = false.
Proof.
  intros H. destruct (ident c) eqn:Hi; [|reflexivity].
  rewrite (ident_not_space c Hi) in H. discriminate.
Qed.

Lemma stops_ws_app sp s :
  forallb isspace sp = true -> stops ident s -> stops ident (sp ++ s).
Proof.
  destruct sp as [|c sp]; [intros _ H; exact H|].
  cbn [forallb app stops]. intros H _. apply andb_prop in H.
  apply space_not_ident, H.
Qed.

Lemma match_declaration indent sp1 c u sp2 args sp3 tl :
  forallb isspace indent = true ->
  sp1 <> [] -> forallb isspace sp1 = true ->
  ident c = true -> forallb ident u = true ->
  forallb isspace sp2 = true ->
  forallb not_rparen args = true ->
  forallb isspace sp3 = true ->
  exists m,
    match_ PAT_DECLARATION
      (declaration_line indent sp1 (c :: u) sp2 args sp3 tl) = Some m
    /\ group1 m = Some (c :: u).
Proof.
  intros Hin Hne H1 Hc Hu H2 Ha H3.
  destruct sp1 as [|x sp1]; [congruence|].
  cbn [forallb] in H1. apply andb_prop in H1. destruct H1 as [Hx H1].
  enough (H : succeeds
                 (rmatch (seq [Star ws; Lit (lit "function"); Plus ws;
                               Group (Plus ident); Star ws;
                               Chr (chr_eqb (chr "(")); Star not_rparen;
                               Chr (chr_eqb (chr ")")); Star ws;
                               Chr (chr_eqb (chr "{"))])
                         (fun st => Some st))
                 (declaration_line indent (x :: sp1) (c :: u) sp2 args sp3
                    tl)
                 None (fun r => group1 r = Some (c :: u)))
    by (apply (H None)).
  unfold seq, declaration_line. cbn [fold_right].
  repeat match goal with
         | |- context [rmatch (Seq ?a ?b) ?k] =>
             change (rmatch (Seq a b) k) with (rmatch a (rmatch b k))
         end.
  apply ok_star; [exact Hin|reflexivity|].
  apply ok_lit.
  apply ok_plus; [exact Hx|exact H1|apply (ident_not_space c Hc)|].
  apply ok_group_ident; [exact Hc|exact Hu| |].
  { apply stops_ws_app; [exact H2|reflexivity]. }
  apply ok_star; [exact H2|reflexivity|].
  apply (ok_chr _ (chr_eqb (chr "(")) (chr "(")); [reflexivity|].
  apply ok_star; [exact Ha|reflexivity|].
  apply (ok_chr _ (chr_eqb (chr ")")) (chr ")")); [reflexivity|].
  apply ok_star; [exact H3|reflexivity|].
  apply (ok_chr _ (chr_eqb (chr "{")) (chr "{")); [reflexivity|].
  intros pv. cbn [rmatch]. eexists. split; reflexivity.
Qed.

(** X19: the scan of a line that declares a function, [function name(...)
    {] with white space where JavaScript allows it and any text after the
    brace, answers with a match and the name, unless the name is
    denylisted. *)
Theorem declaration_line_detected indent sp1 n sp2 args sp3 tl :
  forallb isspace indent = true ->
  sp1 <> [] -> forallb isspace sp1 = true ->
  n <> [] -> forallb ident n = true ->
  forallb isspace sp2 = true ->
  forallb not_rparen args = true ->
  forallb isspace sp3 = true ->
  scan_patterns FUNC_PATTERNS (declaration_line indent sp1 n sp2 args sp3 tl)
  = if in_keyword_names (lower n) then Denied else Matched (Some n).
Proof.
  intros Hin Hne H1 Hn Hi H2 Ha H3.
  destruct n as [|c u]; [congruence|].
  pose proof (strip_ident _ Hi) as Hstrip.
  cbn [forallb] in Hi. apply andb_prop in Hi. destruct Hi as [Hc Hu].
  destruct (match_declaration indent sp1 c u sp2 args sp3 tl
              Hin Hne H1 Hc Hu H2 Ha H3) as (m & Hm & Hg).
  unfold FUNC_PATTERNS. cbn [scan_patterns].
  unfold str in *. rewrite Hm, Hg. cbn [truthy andb].
  rewrite Hstrip. reflexivity.
Qed.

End PatternsComplete.

(** An instance: an indented declaration of [add]. *)
Lemma declaration_line_detected_witness :
  declaration_line (lit "  ") (lit " ") (lit "add") [] (lit "a, b")
    (lit " ") (lit " return a + b; }")
  = lit "  function add(a, b) { return a + b; }"
  /\ scan_patterns FUNC_PATTERNS
       (declaration_line (lit "  ") (lit " ") (lit "add") [] (lit "a, b")
          (lit " ") (lit " return a + b; }"))
     = if in_keyword_names (lower (lit "add")) then Denied
       else Matched (Some (lit "add")).
Proof.
  split; [vm_compute; reflexivity|].
  apply declaration_line_detected;
    try (vm_compute; reflexivity); discriminate.
Defined.

(** ** Which matching lines the extractor reports *)

Section Coverage.
Variable relpath_root : str -> str.

Lemma extract_loop_covers lines file i nm :
  i < length lines ->
  scan_patterns FUNC_PATTERNS (nth i lines []) = Matched nm ->
  forall fuel p acc,
    p <= i -> length lines - p <= fuel ->
    (exists r,
       In r (extract_loop relpath_root fuel lines file p acc)
       /\ start_line r <= i + 1 <= end_line r
       /\ (start_line r = i + 1 -> name r = nm))
    \/ (exists j, i = j + 1 /\ p <= j
                  /\ scan_patterns FUNC_PATTERNS (nth j lines []) = Denied).
Proof.
  intros Hi Hs. induction fuel as [|fuel IH]; intros p acc Hp Hf; [lia|].
  cbn [extract_loop].
  assert (Hlt : (p <? length lines) = true) by (apply Nat.ltb_lt; lia).
  unfold str in *. rewrite Hlt.
  destruct (scan_patterns FUNC_PATTERNS (nth p lines [])) as [| |nm'] eqn:Hsp.
  - assert (p <> i) by (intros ->; unfold str in *; congruence).
    destruct (IH (p + 1) acc) as [H1|(j & Hj & Hpj & Hd)];
      [lia|lia|left; exact H1|].
    right. exists j. split; [exact Hj|]. split; [lia|exact Hd].
  - assert (p <> i) by (intros ->; unfold str in *; congruence).
    destruct (Nat.eq_dec (p + 1) i) as [e|ne].
    + right. exists p. split; [lia|]. split; [lia|exact Hsp].
    + destruct (IH (p + 1 + 1) acc) as [H1|(j & Hj & Hpj & Hd)];
        [lia|lia|left; exact H1|].
      right. exists j. split; [exact Hj|]. split; [lia|exact Hd].
  - assert (Hp' : p < length lines) by lia.
    set (r0 := record_at relpath_root lines file p nm').
    destruct (record_at_lines relpath_root lines file p nm' Hp')
      as (H1 & H2 & H3). fold r0 in H1, H2, H3.
    destruct (Nat.lt_ge_cases i (end_line r0)) as [Hie|Hei].
    + left. exists r0. split.
      * change (In r0 (extract_loop relpath_root fuel lines file
                         (end_line r0) (acc ++ [r0]))).
        rewrite extract_loop_acc. apply in_or_app. left.
        apply in_or_app. right. left. reflexivity.
      * split; [lia|]. intros Hst.
        assert (p = i) by lia. subst p.
        change (name r0) with nm'. unfold str in *. congruence.
    + destruct (IH (end_line r0) (acc ++ [r0]))
        as [Hl|(j & Hj & Hej & Hd)]; [exact Hei|lia|left; exact Hl|].
      right. exists j. split; [exact Hj|]. split; [lia|exact Hd].
Qed.

(** X20: a line that the patterns match, with a name that is not
    denylisted, is reported: it lies in the line range of a record, and a
    record that starts at it carries the name the line gave.  The one
    exception is a line directly after a line whose match was rejected by
    the denylist: that line is passed over. *)
Theorem matched_line_covered text file i nm :
  i < length (splitlines text) ->
  scan_patterns FUNC_PATTERNS (nth i (splitlines text) []) = Matched nm ->
  (exists r,
     In r (extract_functions relpath_root text file)
     /\ start_line r <= i + 1 <= end_line r
     /\ (start_line r = i + 1 -> name r = nm))
  \/ (exists j, i = j + 1
                /\ scan_patterns FUNC_PATTERNS (nth j (splitlines text) [])
                   = Denied).
Proof.
  intros Hi Hs. unfold extract_functions.
  destruct (extract_loop_covers (splitlines text) file i nm Hi Hs
              (length (splitlines text)) 0 [])
    as [H|(j & Hj & _ & Hd)];
    [apply Nat.le_0_l|apply Nat.le_sub_l|left; exact H|].
  right. exists j. auto.
Qed.

End Coverage.

(** An instance: the second line of a text whose first line is a
    statement. *)
Lemma matched_line_covered_witness :
  exists r,
    In r (Run.extract_functions
            (Examples.lines_text ["x = 1;"; "function foo() {"; "}"]%string)
            Examples.a_js)
    /\ start_line r <= 1 + 1 <= end_line r
    /\ (start_line r = 1 + 1 -> name r = Some (lit "foo")).
Proof.
  destruct (matched_line_covered Run.relpath_root
              (Examples.lines_text ["x = 1;"; "function foo() {"; "}"]%string)
              Examples.a_js 1 (Some (lit "foo")))
    as [H|(j & Hj & Hd)].
  - vm_compute. lia.
  - vm_compute. reflexivity.
  - exact H.
  - exfalso. assert (j = 0) by lia. subst j. vm_compute in Hd.
    discriminate Hd.
Defined.

(** ** Stored paths *)

Section StoredPaths.




Lemma join_app a b :
  a <> [] -> b <> [] ->
  join [Posix.SEP] (a ++ b)
  = join [Posix.SEP] a ++ Posix.SEP :: join [Posix.SEP] b.
Proof.
  intros Ha Hb. destruct a as [|c cs]; [congruence|]. cbn [app].
  rewrite !join_abs, abs_of_app, <- app_assoc.
  rewrite (abs_of_join b Hb). reflexivity.
Qed.
















End StoredPaths.

Section RoundTrip.
Variable cwd : str.
Variable rcomps : list str.
Hypothesis cwd_abs : Posix.isabs cwd = true.
Hypothesis root_simple : Forall (fun c => simple c = true) rcomps.









End RoundTrip.

(** ** The canonical selector on stored paths *)

Section CanonicalClaim.
Variables cwd root : str.


End CanonicalClaim.


